(** * Snap & Solve: the expression extraction and evaluation pipeline

    A shallow embedding of the two service files of the repository,

    - [src/services/geminiService.ts]  (module [GeminiService]: the extractor
      and the remote evaluator), and
    - the JavaScript service of [src/unnamed/part_000]  (module
      [LocalService]: the extractor with output cleaning and the local
      evaluator built on [new Function]),

    together with the part of the JavaScript runtime they call: strings of
    UTF-16 code units, the regular expressions the code uses, IEEE 754
    binary64 numbers, [Number.prototype.toString], [Number], [parseFloat] and
    the evaluation of a function body made of arithmetic text. *)

From Stdlib Require Import ZArith NArith List Bool String Ascii Lia.
Import ListNotations.



(* ================================================================== *)
(** * Strings *)
(* ================================================================== *)

(** A JavaScript string is a sequence of UTF-16 code units. *)
Definition code_unit := N.
Definition jstring := list code_unit.

Definition chr (a : ascii) : code_unit := N_of_ascii a.

(** [js "abc"] is the JavaScript string literal with the same ASCII text. *)
Definition js (s : string) : jstring := map N_of_ascii (list_ascii_of_string s).

Definition is_char (a : ascii) (c : code_unit) : bool := N.eqb c (chr a).

(** ** Character classes of the regular expressions in the source *)

(** [[0-9]] *)
Definition is_digit (c : code_unit) : bool :=
  (N.leb (chr "0") c) && (N.leb c (chr "9")).

(** [[+\-*/]], also written [[*\/+\-]] *)
Definition is_operator (c : code_unit) : bool :=
  is_char "+" c || is_char "-" c || is_char "*" c || is_char "/" c.

(** [\s]: ECMAScript WhiteSpace and LineTerminator code points. *)
Definition is_line_terminator (c : code_unit) : bool :=
  N.eqb c 0x0A || N.eqb c 0x0D || N.eqb c 0x2028 || N.eqb c 0x2029.

Definition is_white_space (c : code_unit) : bool :=
  N.eqb c 0x09 || N.eqb c 0x0B || N.eqb c 0x0C || N.eqb c 0x20 ||
  N.eqb c 0xA0 || N.eqb c 0x1680 ||
  (N.leb 0x2000 c && N.leb c 0x200A) ||
  N.eqb c 0x202F || N.eqb c 0x205F || N.eqb c 0x3000 || N.eqb c 0xFEFF.

Definition is_space (c : code_unit) : bool :=
  is_white_space c || is_line_terminator c.

(** [[0-9.+\-*/()]] : the class kept by the extractor of [LocalService]. *)
Definition is_expression_char (c : code_unit) : bool :=
  is_digit c || is_char "." c || is_operator c || is_char "(" c || is_char ")" c.

(** [[0-9.+\-*/\s()]] : the class kept by the extractor of [GeminiService]
    and by the first guard of the local evaluator. *)
Definition is_allowed_char (c : code_unit) : bool :=
  is_expression_char c || is_space c.

(** ** String methods *)

Fixpoint drop_while (p : code_unit -> bool) (s : jstring) : jstring :=
  match s with
  | [] => []
  | c :: r => if p c then drop_while p r else s
  end.

Fixpoint take_while (p : code_unit -> bool) (s : jstring) : jstring :=
  match s with
  | [] => []
  | c :: r => if p c then c :: take_while p r else []
  end.

(** [String.prototype.trim] *)
Definition trimStart (s : jstring) : jstring := drop_while is_space s.
Definition trimEnd (s : jstring) : jstring := rev (drop_while is_space (rev s)).
Definition trim (s : jstring) : jstring := trimEnd (trimStart s).

(** [String.prototype.startsWith] *)
Fixpoint startsWith (s prefix : jstring) {struct prefix} : bool :=
  match prefix, s with
  | [], _ => true
  | p :: prefix', c :: s' => N.eqb c p && startsWith s' prefix'
  | _ :: _, [] => false
  end.
Arguments startsWith s prefix : simpl never.

(** [re.test(s)] for a regular expression that is one character class. *)
Definition test_class (p : code_unit -> bool) (s : jstring) : bool := existsb p s.

(** [s.replace(/[^...]/g, '')]: delete every character outside the class. *)
Definition keep_class (p : code_unit -> bool) (s : jstring) : jstring := filter p s.

(** [s.replace(/\s+/g, '')] *)
Definition remove_spaces (s : jstring) : jstring := filter (fun c => negb (is_space c)) s.

(** [/[*\/+\-]{2,}/.test(s)]: two operator characters next to each other. *)
Fixpoint has_operator_run (s : jstring) : bool :=
  match s with
  | a :: (b :: _) as r => (is_operator a && is_operator b) || has_operator_run r
  | _ => false
  end.

(** ** The label pattern [/(expression|result|answer)[:\-]?\s*/gi] *)

(** Canonicalisation of the [i] flag (no [u] flag): a code unit is compared
    through its upper case, and a non-ASCII code unit never folds to an ASCII
    one, so for the ASCII words of the pattern only ASCII letters fold. *)
Definition canonicalize (c : code_unit) : code_unit :=
  if N.leb (chr "a") c && N.leb c (chr "z") then (c - 32)%N else c.

(** The rest of [s] after the word [w], compared case-insensitively. *)
Fixpoint match_word (w s : jstring) : option jstring :=
  match w, s with
  | [], _ => Some s
  | p :: w', c :: s' =>
      if N.eqb (canonicalize c) (canonicalize p) then match_word w' s' else None
  | _ :: _, [] => None
  end.

(** The alternation, tried from left to right. *)
Fixpoint match_alternatives (ws : list jstring) (s : jstring) : option (nat * jstring) :=
  match ws with
  | [] => None
  | w :: ws' =>
      match match_word w s with
      | Some rest => Some (List.length w, rest)
      | None => match_alternatives ws' s
      end
  end.

Definition label_words : list jstring := [js "expression"; js "result"; js "answer"].

(** Length of the match of the label pattern at the head of [s], if any. Both
    [[:\-]?] and [\s*] are greedy and nothing follows them, so no
    backtracking takes place. *)
Definition match_label (s : jstring) : option nat :=
  match match_alternatives label_words s with
  | None => None
  | Some (n, rest) =>
      let '(n1, rest1) :=
        match rest with
        | c :: r => if is_char ":" c || is_char "-" c then (1, r) else (0, rest)
        | [] => (0, rest)
        end in
      Some (n + n1 + List.length (take_while is_space rest1))%nat
  end.

(** [s.replace(re, '')] for a global pattern given by its match length at
    each position: the scan resumes after each match; [skip] counts the
    characters of the current match still to delete. *)
Fixpoint delete_matches (m : jstring -> option nat) (skip : nat) (s : jstring) : jstring :=
  match s with
  | [] => []
  | c :: r =>
      match skip with
      | S k => delete_matches m k r
      | O =>
          match m s with
          | Some (S n) => delete_matches m n r
          | _ => c :: delete_matches m 0 r
          end
      end
  end.

Definition strip_labels (s : jstring) : jstring := delete_matches match_label 0 s.

(* ================================================================== *)
(** * Completions: normal return or thrown exception *)
(* ================================================================== *)

Inductive error : Type :=
  | SyntaxError      (* raised when a function body does not parse *)
  | TypeError        (* raised at run time: call of a non-function, method of undefined *)
  | RequestFailed.   (* the model client rejected the request *)

Inductive completion (A : Type) : Type :=
  | Return (a : A)
  | Throw (e : error).
Arguments Return {A} a.
Arguments Throw {A} e.

Definition bind {A B : Type} (c : completion A) (k : A -> completion B) : completion B :=
  match c with
  | Return a => k a
  | Throw e => Throw e
  end.

Notation "x <- c ;; k" := (bind c (fun x => k))
  (at level 61, c at next level, right associativity).

(** [try { body } catch (error) { handler }] *)
Definition try_catch {A : Type} (body : completion A) (handler : error -> completion A)
  : completion A :=
  match body with
  | Return a => Return a
  | Throw e => handler e
  end.

(* ================================================================== *)
(** * Numbers: IEEE 754 binary64 *)
(* ================================================================== *)

Module Float64.
Local Open Scope Z_scope.

(** The Number type. [Finite neg m e] is the value [(-1)^neg * m * 2^e]. *)
Inductive number : Type :=
  | NaN
  | Infinity (neg : bool)
  | Zero (neg : bool)
  | Finite (neg : bool) (m : positive) (e : Z).

Definition isNaN (x : number) : bool :=
  match x with NaN => true | _ => false end.

(** The global [isFinite], on a value that is already a Number. *)
Definition isFinite (x : number) : bool :=
  match x with Zero _ | Finite _ _ _ => true | _ => false end.

Definition number_eqb (x y : number) : bool :=
  match x, y with
  | NaN, NaN => true
  | Infinity a, Infinity b => Bool.eqb a b
  | Zero a, Zero b => Bool.eqb a b
  | Finite a m e, Finite b m' e' => Bool.eqb a b && Pos.eqb m m' && Z.eqb e e'
  | _, _ => false
  end.

(** [Number.MAX_VALUE = (2^53 - 1) * 2^971] *)
Definition MAX_VALUE : Z := (2 ^ 53 - 1) * 2 ^ 971.

(** ** Rounding a positive rational [p / q] to the nearest Number, ties to
       even *)

(** [(p / q) / 2^e] as a fraction. *)
Definition scale2 (p q e : Z) : Z * Z :=
  if 0 <=? e then (p, q * 2 ^ e) else (p * 2 ^ (- e), q).

(** [floor (log2 (p / q))] *)
Definition floor_log2 (p q : Z) : Z :=
  let l := Z.log2 p - Z.log2 q in
  let '(n, d) := scale2 p q l in
  if d <=? n then l else l - 1.

(** The integer nearest to [n / d], ties to the even one. *)
Definition round_half_even (n d : Z) : Z :=
  let m := n / d in
  let r2 := 2 * (n mod d) in
  if r2 <? d then m
  else if d <? r2 then m + 1
  else if Z.even m then m else m + 1.

(** [n * 2^e] as a fraction. *)
Definition dyadic (n e : Z) : Z * Z :=
  if 0 <=? e then (n * 2 ^ e, 1) else (n, 2 ^ (- e)).

(** The exponent of the binade is [floor_log2 - 52], not below that of the
    subnormal numbers; a significand rounded up to [2^53] moves to the next
    binade; a rounded value above [MAX_VALUE] overflows to infinity. *)
Definition round (neg : bool) (p q : Z) : number :=
  let e := Z.max (floor_log2 p q - 52) (-1074) in
  let '(n, d) := scale2 p q e in
  let m := round_half_even n d in
  let '(m, e) := if m =? 2 ^ 53 then (2 ^ 52, e + 1) else (m, e) in
  match m with
  | Zpos mp =>
      let '(pm, qm) := dyadic m e in
      if MAX_VALUE * qm <? pm then Infinity neg else Finite neg mp e
  | _ => Zero neg
  end.

(** ** Arithmetic: the exact result, rounded *)

Definition opp (x : number) : number :=
  match x with
  | NaN => NaN
  | Infinity s => Infinity (negb s)
  | Zero s => Zero (negb s)
  | Finite s m e => Finite (negb s) m e
  end.

Definition signed (s : bool) (m : positive) : Z := if s then Zneg m else Zpos m.

Definition add (x y : number) : number :=
  match x, y with
  | NaN, _ | _, NaN => NaN
  | Infinity a, Infinity b => if Bool.eqb a b then Infinity a else NaN
  | Infinity a, _ => Infinity a
  | _, Infinity b => Infinity b
  | Zero a, Zero b => Zero (a && b)
  | Zero _, Finite _ _ _ => y
  | Finite _ _ _, Zero _ => x
  | Finite s1 m1 e1, Finite s2 m2 e2 =>
      let e := Z.min e1 e2 in
      let n := signed s1 m1 * 2 ^ (e1 - e) + signed s2 m2 * 2 ^ (e2 - e) in
      if n =? 0 then Zero false
      else let '(p, q) := dyadic (Z.abs n) e in round (n <? 0) p q
  end.

Definition sub (x y : number) : number := add x (opp y).

Definition mul (x y : number) : number :=
  match x, y with
  | NaN, _ | _, NaN => NaN
  | Infinity _, Zero _ | Zero _, Infinity _ => NaN
  | Infinity a, Infinity b | Infinity a, Finite b _ _ | Finite a _ _, Infinity b =>
      Infinity (xorb a b)
  | Zero a, Zero b | Zero a, Finite b _ _ | Finite a _ _, Zero b => Zero (xorb a b)
  | Finite s1 m1 e1, Finite s2 m2 e2 =>
      let '(p, q) := dyadic (Zpos m1 * Zpos m2) (e1 + e2) in round (xorb s1 s2) p q
  end.

Definition div (x y : number) : number :=
  match x, y with
  | NaN, _ | _, NaN => NaN
  | Infinity _, Infinity _ | Zero _, Zero _ => NaN
  | Infinity a, Zero b | Infinity a, Finite b _ _ | Finite a _ _, Zero b =>
      Infinity (xorb a b)
  | Zero a, Infinity b | Finite a _ _, Infinity b | Zero a, Finite b _ _ =>
      Zero (xorb a b)
  | Finite s1 m1 e1, Finite s2 m2 e2 =>
      let '(p, q) := scale2 (Zpos m1) (Zpos m2) (e2 - e1) in round (xorb s1 s2) p q
  end.

(** The Number nearest to the decimal [d * 10^x], for [0 <= d]. *)
Definition of_decimal (neg : bool) (d x : Z) : number :=
  if 0 <=? x then round neg (d * 10 ^ x) 1 else round neg d (10 ^ (- x)).

End Float64.
Export Float64.

(* ================================================================== *)
(** * Numbers and strings *)
(* ================================================================== *)

Local Open Scope Z_scope.

(** ** Decimal digits *)

Definition digit_char (d : Z) : code_unit := (chr "0" + Z.to_N d)%N.
Definition digit_value (c : code_unit) : Z := Z.of_N (c - chr "0").

(** The value of a digit string in base [b] (digits are taken as they are:
    callers pass characters of the right class). *)
Definition digits_value_base (b : Z) (ds : jstring) : Z :=
  fold_left (fun a c => b * a + digit_value c) ds 0.
Definition digits_value : jstring -> Z := digits_value_base 10.

Fixpoint digits_fuel (fuel : nat) (n : Z) (acc : jstring) : jstring :=
  match fuel with
  | O => acc
  | S f =>
      let acc' := digit_char (n mod 10) :: acc in
      if n / 10 =? 0 then acc' else digits_fuel f (n / 10) acc'
  end.

(** The decimal digits of [n >= 0], most significant first. *)
Definition decimal_digits (n : Z) : jstring :=
  digits_fuel (S (Z.to_nat (Z.log2 n))) n [].

(** ** Number::toString (radix 10) *)

(** [p / q < 10^j] *)
Definition lt_pow10 (p q j : Z) : bool :=
  if 0 <=? j then p <? q * 10 ^ j else p * 10 ^ (- j) <? q.

Fixpoint decimal_point_from (fuel : nat) (p q n : Z) : Z :=
  match fuel with
  | O => n
  | S f => if lt_pow10 p q (n - 1) then decimal_point_from f p q (n - 1) else n
  end.

(** The [n] with [10^(n-1) <= p / q < 10^n], searched downwards from a power
    of ten that is above [p / q]. *)
Definition decimal_point (p q : Z) : Z :=
  let d := Z.log2 p - Z.log2 q + 1 in
  decimal_point_from (S (S (Z.to_nat (Z.abs d)))) p q (Z.max 0 d).

(** [(p / q) / 10^x] as a fraction. *)
Definition scale10 (p q x : Z) : Z * Z :=
  if 0 <=? x then (p, q * 10 ^ x) else (p * 10 ^ (- x), q).

(** The [k]-digit decimals [s * 10^x] next to [p / q] (below and above) that
    round to [target]; of two, the nearer one, and the even one on a tie. A
    significand that reaches [10^k] is written with its trailing zero moved
    to the exponent. *)
Definition candidate (target : number) (p q n k : Z) : option (Z * Z) :=
  let x := n - k in
  let '(num, den) := scale10 p q x in
  let norm s := if s =? 10 ^ k then (10 ^ (k - 1), x + 1) else (s, x) in
  let lo := norm (num / den) in
  let hi := norm (num / den + 1) in
  let ok c := number_eqb (of_decimal false (fst c) (snd c)) target in
  match ok lo, ok hi with
  | true, false => Some lo
  | false, true => Some hi
  | true, true =>
      let r2 := 2 * (num mod den) in
      if r2 <? den then Some lo
      else if den <? r2 then Some hi
      else if Z.even (num / den) then Some lo else Some hi
  | false, false => None
  end.

(** The least number of digits [k], counted up from [k]. *)
Fixpoint shortest_from (fuel : nat) (target : number) (p q n k : Z) : option (Z * Z) :=
  match fuel with
  | O => None
  | S f =>
      match candidate target p q n k with
      | Some c => Some c
      | None => shortest_from f target p q n (k + 1)
      end
  end.

(** [m * 2^e] written out in full as [s * 10^x]. *)
Definition exact_decimal (m : positive) (e : Z) : Z * Z :=
  if 0 <=? e then (Zpos m * 2 ^ e, 0) else (Zpos m * 5 ^ (- e), e).

(** The digits [s] and the exponent [x] of the shortest decimal [s * 10^x]
    that rounds to [Finite false m e]. Seventeen digits always suffice for a
    binary64 value; the exact expansion, which trivially denotes the value,
    closes the search. *)
Definition shortest_decimal (m : positive) (e : Z) : Z * Z :=
  let '(p, q) := dyadic (Zpos m) e in
  match shortest_from 17 (Finite false m e) p q (decimal_point p q) 1 with
  | Some c => c
  | None => exact_decimal m e
  end.

Definition zeros (n : Z) : jstring := repeat (chr "0") (Z.to_nat n).

(** The layout of the digits [ds] with the decimal point after [n] digits:
    plain, with a point, with leading zeros, or in exponent notation. *)
Definition layout (ds : jstring) (n : Z) : jstring :=
  let k := Z.of_nat (List.length ds) in
  if (k <=? n) && (n <=? 21) then ds ++ zeros (n - k)
  else if (0 <? n) && (n <=? 21) then
    firstn (Z.to_nat n) ds ++ [chr "."] ++ skipn (Z.to_nat n) ds
  else if (-6 <? n) && (n <=? 0) then js "0." ++ zeros (- n) ++ ds
  else
    let e := n - 1 in
    let es := (if 0 <? e then chr "+" else chr "-") :: decimal_digits (Z.abs e) in
    match ds with
    | [] => []
    | [d] => d :: chr "e" :: es
    | d :: rest => d :: chr "." :: rest ++ chr "e" :: es
    end.

Definition Number_toString (x : number) : jstring :=
  match x with
  | NaN => js "NaN"
  | Zero _ => js "0"
  | Infinity false => js "Infinity"
  | Infinity true => js "-Infinity"
  | Finite neg m e =>
      let '(s, x) := shortest_decimal m e in
      let ds := decimal_digits s in
      (if neg then [chr "-"] else []) ++ layout ds (Z.of_nat (List.length ds) + x)
  end.

(** ** StringToNumber and parseFloat *)

Fixpoint jstring_eqb (a b : jstring) : bool :=
  match a, b with
  | [], [] => true
  | x :: a', y :: b' => N.eqb x y && jstring_eqb a' b'
  | _, _ => false
  end.

(** ExponentPart: [e] or [E], an optional sign, at least one digit. Without
    digits there is no exponent part and nothing is consumed. *)
Definition scan_exponent (s : jstring) : Z * jstring :=
  match s with
  | c :: r =>
      if is_char "e" c || is_char "E" c then
        let '(neg, r1) :=
          match r with
          | c1 :: r' =>
              if is_char "+" c1 then (false, r')
              else if is_char "-" c1 then (true, r') else (false, r)
          | [] => (false, r)
          end in
        match take_while is_digit r1 with
        | [] => (0, s)
        | ds => (if neg then - digits_value ds else digits_value ds,
                 drop_while is_digit r1)
        end
      else (0, s)
  | [] => (0, s)
  end.

(** The longest prefix that is a StrUnsignedDecimalLiteral other than
    [Infinity]: its digits as an integer, its decimal exponent, and the rest
    of the string. *)
Definition scan_decimal (s : jstring) : option (Z * Z * jstring) :=
  let int_ds := take_while is_digit s in
  let r1 := drop_while is_digit s in
  let '(frac_ds, r2) :=
    match r1 with
    | c :: r =>
        if is_char "." c then (take_while is_digit r, drop_while is_digit r)
        else ([], r1)
    | [] => ([], r1)
    end in
  match int_ds, frac_ds with
  | [], [] => None
  | _, _ =>
      let '(x, r3) := scan_exponent r2 in
      Some (digits_value (int_ds ++ frac_ds), x - Z.of_nat (List.length frac_ds), r3)
  end.

(** The longest prefix that is a StrDecimalLiteral, as a Number. *)
Definition scan_signed_decimal (s : jstring) : option (number * jstring) :=
  let '(neg, r) :=
    match s with
    | c :: r' =>
        if is_char "+" c then (false, r')
        else if is_char "-" c then (true, r') else (false, s)
    | [] => (false, s)
    end in
  if startsWith r (js "Infinity") then Some (Infinity neg, skipn 8 r)
  else
    match scan_decimal r with
    | Some (d, x, rest) => Some (of_decimal neg d x, rest)
    | None => None
    end.

(** The global [parseFloat] on a string. *)
Definition parseFloat (s : jstring) : number :=
  match scan_signed_decimal (trimStart s) with
  | Some (v, _) => v
  | None => NaN
  end.

Definition is_hex_digit (c : code_unit) : bool :=
  is_digit c || (N.leb (chr "a") c && N.leb c (chr "f"))
             || (N.leb (chr "A") c && N.leb c (chr "F")).
Definition hex_value (c : code_unit) : Z :=
  if is_digit c then digit_value c
  else if N.leb (chr "a") c then Z.of_N (c - chr "a") + 10
  else Z.of_N (c - chr "A") + 10.
Definition is_octal_digit (c : code_unit) : bool := N.leb (chr "0") c && N.leb c (chr "7").
Definition is_binary_digit (c : code_unit) : bool := is_char "0" c || is_char "1" c.

(** NonDecimalIntegerLiteral: [0x], [0o] or [0b] (either case) and digits. *)
Definition scan_non_decimal (s : jstring) : option (option Z) :=
  match s with
  | z :: b :: ds =>
      if is_char "0" z then
        let all p := match ds with [] => false | _ => forallb p ds end in
        if is_char "x" b || is_char "X" b then
          Some (if all is_hex_digit
                then Some (fold_left (fun a c => 16 * a + hex_value c) ds 0) else None)
        else if is_char "o" b || is_char "O" b then
          Some (if all is_octal_digit then Some (digits_value_base 8 ds) else None)
        else if is_char "b" b || is_char "B" b then
          Some (if all is_binary_digit then Some (digits_value_base 2 ds) else None)
        else None
      else None
  | _ => None
  end.

(** StringToNumber: the whole string, white space trimmed, is empty, a
    non-decimal integer literal or a decimal literal; anything else is NaN. *)
Definition StringToNumber (s : jstring) : number :=
  match trim s with
  | [] => Zero false
  | t =>
      match scan_non_decimal t with
      | Some (Some v) => round false v 1
      | Some None => NaN
      | None =>
          match scan_signed_decimal t with
          | Some (v, []) => v
          | _ => NaN
          end
      end
  end.

(* ================================================================== *)
(** * Evaluation of arithmetic text as a function body *)
(* ================================================================== *)

(** The semantics of [new Function("return " + s)()] for the texts the local
    evaluator builds: [s] is made of digits, [.], [+ - * /], parentheses and
    white space, and no two operator characters are adjacent. On such text
    the tokens of JavaScript are numeric literals, regular expression
    literals, single-character punctuators and [...]; multi-character
    operators ([++], [**], ...) and comments ([//], [/*]) cannot occur. Text
    outside this fragment is not modelled and is reported as a
    [SyntaxError]. *)

Inductive value : Type :=
  | VUndefined
  | VNumber (x : number)
  | VString (s : jstring)
  | VRegExp (source : jstring).

(** [typeof v === 'number'] *)
Definition typeof_number (v : value) : bool :=
  match v with VNumber _ => true | _ => false end.

Module Script.

(** ** Lexical grammar *)

(** A numeric literal is kept as its mathematical value [d * 10^x]. *)
Inductive token : Type :=
  | TNumber (d x : Z)
  | TRegExp (body : jstring)
  | TPlus | TMinus | TStar | TSlash
  | TLParen | TRParen
  | TDot | TEllipsis.

(** A token with the flag "a line terminator precedes it". *)
Definition ltoken : Type := (bool * token)%type.

(** NumericLiteral at the head of [s] (which starts with a digit, or with a
    point and a digit). A literal [0d...] of octal digits only is a legacy
    octal integer (sloppy mode); with an [8] or a [9] it is decimal and may
    carry a fraction. *)
Definition scan_numeric_literal (s : jstring) : Z * Z * jstring :=
  let int_ds := take_while is_digit s in
  let r1 := drop_while is_digit s in
  let legacy_octal :=
    match int_ds with
    | z :: _ :: _ => is_char "0" z && forallb is_octal_digit int_ds
    | _ => false
    end in
  if legacy_octal then (digits_value_base 8 int_ds, 0, r1)
  else
    let '(frac_ds, r2) :=
      match r1 with
      | c :: r =>
          if is_char "." c then (take_while is_digit r, drop_while is_digit r)
          else ([], r1)
      | [] => ([], r1)
      end in
    (digits_value (int_ds ++ frac_ds), - Z.of_nat (List.length frac_ds), r2).

(** The pattern of a regular expression literal over the alphabet: every
    quantifier [*] or [+] follows an atom and the parentheses match. *)
Fixpoint valid_pattern (s : jstring) (depth : nat) (atom : bool) : bool :=
  match s with
  | [] => Nat.eqb depth 0
  | c :: r =>
      if is_char "(" c then valid_pattern r (S depth) false
      else if is_char ")" c then
        match depth with O => false | S d => valid_pattern r d true end
      else if is_char "*" c || is_char "+" c then atom && valid_pattern r depth false
      else valid_pattern r depth true
  end.

(** RegularExpressionLiteral after its opening [/]: the body runs to the next
    [/] on the same line; a digit after the closing [/] would be a flag, and
    no digit is one. *)
Definition scan_regexp (r : jstring) : option (jstring * jstring) :=
  let in_body c := negb (is_char "/" c) && negb (is_line_terminator c) in
  let body := take_while in_body r in
  match drop_while in_body r with
  | c :: rest =>
      if is_char "/" c && negb (match rest with d :: _ => is_digit d | [] => false end)
         && valid_pattern body 0 false
      then Some (body, rest) else None
  | [] => None
  end.

(** [operand] tells whether the previous token ends an operand, in which
    case [/] is the division punctuator; otherwise it opens a regular
    expression literal. *)
Fixpoint lex (fuel : nat) (s : jstring) (nl operand : bool) : option (list ltoken) :=
  match fuel with
  | O => None
  | S f =>
      let emit t rest op :=
        match lex f rest false op with
        | Some ts => Some ((nl, t) :: ts)
        | None => None
        end in
      match s with
      | [] => Some []
      | c :: r =>
          if is_line_terminator c then lex f r true operand
          else if is_white_space c then lex f r nl operand
          else if is_digit c
                  || (is_char "." c && match r with d :: _ => is_digit d | [] => false end)
          then let '(d, x, rest) := scan_numeric_literal s in emit (TNumber d x) rest true
          else if is_char "." c then
            match r with
            | c1 :: c2 :: r' =>
                if is_char "." c1 && is_char "." c2 then emit TEllipsis r' false
                else emit TDot r false
            | _ => emit TDot r false
            end
          else if is_char "+" c then emit TPlus r false
          else if is_char "-" c then emit TMinus r false
          else if is_char "*" c then emit TStar r false
          else if is_char "(" c then emit TLParen r false
          else if is_char ")" c then emit TRParen r true
          else if is_char "/" c then
            if operand then emit TSlash r false
            else
              match scan_regexp r with
              | Some (body, rest) => emit (TRegExp body) rest true
              | None => None
              end
          else None
      end
  end.

Definition tokens (s : jstring) : option (list ltoken) :=
  if forallb is_allowed_char s && negb (has_operator_run s)
  then lex (S (List.length s)) s false false
  else None.

(** ** Expressions *)

Inductive unary_operator : Type := UPlus | UMinus.
Inductive binary_operator : Type := Add | Sub | Mul | Div.

Inductive expr : Type :=
  | ELiteral (d x : Z)                         (* the literal d * 10^x *)
  | ERegExp (body : jstring)
  | EUnary (op : unary_operator) (e : expr)
  | EBinary (op : binary_operator) (l r : expr)
  | ECall (callee : expr)                      (* f() *)
  | ECallWith (callee argument : expr).        (* f(a) and f(...a) *)

Definition parsed : Type := option (expr * list ltoken).

(** Recursive descent along the grammar of ECMAScript:
    AdditiveExpression, MultiplicativeExpression, UnaryExpression,
    CallExpression (a primary expression followed by argument lists of at
    most one argument, possibly a spread one), PrimaryExpression. *)
Fixpoint parse_additive (fuel : nat) (ts : list ltoken) : parsed :=
  match fuel with
  | O => None
  | S f =>
      match parse_multiplicative f ts with
      | Some (e, rest) => additive_rest f e rest
      | None => None
      end
  end
with additive_rest (fuel : nat) (lhs : expr) (ts : list ltoken) : parsed :=
  match fuel with
  | O => None
  | S f =>
      match ts with
      | (_, TPlus) :: r =>
          match parse_multiplicative f r with
          | Some (e, rest) => additive_rest f (EBinary Add lhs e) rest
          | None => None
          end
      | (_, TMinus) :: r =>
          match parse_multiplicative f r with
          | Some (e, rest) => additive_rest f (EBinary Sub lhs e) rest
          | None => None
          end
      | _ => Some (lhs, ts)
      end
  end
with parse_multiplicative (fuel : nat) (ts : list ltoken) : parsed :=
  match fuel with
  | O => None
  | S f =>
      match parse_unary f ts with
      | Some (e, rest) => multiplicative_rest f e rest
      | None => None
      end
  end
with multiplicative_rest (fuel : nat) (lhs : expr) (ts : list ltoken) : parsed :=
  match fuel with
  | O => None
  | S f =>
      match ts with
      | (_, TStar) :: r =>
          match parse_unary f r with
          | Some (e, rest) => multiplicative_rest f (EBinary Mul lhs e) rest
          | None => None
          end
      | (_, TSlash) :: r =>
          match parse_unary f r with
          | Some (e, rest) => multiplicative_rest f (EBinary Div lhs e) rest
          | None => None
          end
      | _ => Some (lhs, ts)
      end
  end
with parse_unary (fuel : nat) (ts : list ltoken) : parsed :=
  match fuel with
  | O => None
  | S f =>
      match ts with
      | (_, TPlus) :: r =>
          match parse_unary f r with
          | Some (e, rest) => Some (EUnary UPlus e, rest)
          | None => None
          end
      | (_, TMinus) :: r =>
          match parse_unary f r with
          | Some (e, rest) => Some (EUnary UMinus e, rest)
          | None => None
          end
      | (_, TNumber d x) :: r => call_rest f (ELiteral d x) r
      | (_, TRegExp b) :: r => call_rest f (ERegExp b) r
      | (_, TLParen) :: r =>
          match parse_additive f r with
          | Some (e, (_, TRParen) :: rest) => call_rest f e rest
          | _ => None
          end
      | _ => None
      end
  end
with call_rest (fuel : nat) (callee : expr) (ts : list ltoken) : parsed :=
  match fuel with
  | O => None
  | S f =>
      match ts with
      | (_, TLParen) :: (_, TRParen) :: rest => call_rest f (ECall callee) rest
      | (_, TLParen) :: (_, TEllipsis) :: r =>
          match parse_additive f r with
          | Some (a, (_, TRParen) :: rest) => call_rest f (ECallWith callee a) rest
          | _ => None
          end
      | (_, TLParen) :: r =>
          match parse_additive f r with
          | Some (a, (_, TRParen) :: rest) => call_rest f (ECallWith callee a) rest
          | _ => None
          end
      | _ => Some (callee, ts)
      end
  end.

Definition parse_fuel (ts : list ltoken) : nat := 8 * List.length ts + 8.

Definition parse_expression (ts : list ltoken) : parsed :=
  parse_additive (parse_fuel ts) ts.

(** The statements after the first one: expression statements, each begun
    on a new line (automatic semicolon insertion applies only before a token
    that a line terminator precedes). They only have to parse. *)
Fixpoint parse_statements (fuel : nat) (ts : list ltoken) : bool :=
  match fuel with
  | O => false
  | S f =>
      match ts with
      | [] => true
      | (true, _) :: _ =>
          match parse_expression ts with
          | Some (_, rest) => parse_statements f rest
          | None => false
          end
      | (false, _) :: _ => false
      end
  end.

(** ** Evaluation *)

Definition ToPrimitive (v : value) : value :=
  match v with
  | VRegExp source => VString (chr "/" :: source ++ [chr "/"])
  | _ => v
  end.

Definition ToNumber (v : value) : number :=
  match ToPrimitive v with
  | VNumber x => x
  | VString s => StringToNumber s
  | _ => NaN
  end.

Definition ToString (v : value) : jstring :=
  match ToPrimitive v with
  | VNumber x => Number_toString x
  | VString s => s
  | _ => js "undefined"
  end.

Definition is_string (v : value) : bool :=
  match v with VString _ => true | _ => false end.

Definition apply_binary (op : binary_operator) (l r : value) : value :=
  match op with
  | Add =>
      let lp := ToPrimitive l in
      let rp := ToPrimitive r in
      if is_string lp || is_string rp then VString (ToString lp ++ ToString rp)
      else VNumber (add (ToNumber lp) (ToNumber rp))
  | Sub => VNumber (sub (ToNumber l) (ToNumber r))
  | Mul => VNumber (mul (ToNumber l) (ToNumber r))
  | Div => VNumber (div (ToNumber l) (ToNumber r))
  end.

(** No value of the fragment is callable: a call evaluates its operands and
    throws a [TypeError]. *)
Fixpoint eval (e : expr) : completion value :=
  match e with
  | ELiteral d x => Return (VNumber (of_decimal false d x))
  | ERegExp body => Return (VRegExp body)
  | EUnary UPlus e1 => v <- eval e1 ;; Return (VNumber (ToNumber v))
  | EUnary UMinus e1 => v <- eval e1 ;; Return (VNumber (opp (ToNumber v)))
  | EBinary op l r => lv <- eval l ;; rv <- eval r ;; Return (apply_binary op lv rv)
  | ECall callee => _ <- eval callee ;; Throw TypeError
  | ECallWith callee argument => _ <- eval callee ;; _ <- eval argument ;; Throw TypeError
  end.

(** [new Function("return " + s)]: the function is compiled as a whole, so
    a syntax error anywhere in the text is thrown before anything runs. A
    [return] with nothing after it on its line returns [undefined]
    ([Some None]); what follows the [return] statement are statements that
    are never run. *)
Definition compile (s : jstring) : option (option expr) :=
  match tokens s with
  | None => None
  | Some [] => Some None
  | Some (((true, _) :: _) as ts) =>
      if parse_statements (S (List.length ts)) ts then Some None else None
  | Some ts =>
      match parse_expression ts with
      | Some (e, rest) =>
          if parse_statements (S (List.length rest)) rest then Some (Some e) else None
      | None => None
      end
  end.

(** [new Function("return " + s)()] *)
Definition run_return (s : jstring) : completion value :=
  match compile s with
  | None => Throw SyntaxError
  | Some None => Return VUndefined
  | Some (Some e) => eval e
  end.

(** [new Function(body)()] for a body of the form [return <text>]. *)
Definition call_new_Function (body : jstring) : completion value :=
  if startsWith body (js "return ")
  then run_return (skipn 7 body)
  else Throw SyntaxError.

End Script.

(* ================================================================== *)
(** * Code that calls the dynamic evaluator *)
(* ================================================================== *)

(** A computation that either finishes by itself or hands one function body
    to [new Function] and continues with the completion of calling it. The
    request is data, so what is handed over can be stated and proved. *)
Inductive program (A : Type) : Type :=
  | Done (c : completion A)
  | NewFunction (body : jstring) (k : completion value -> completion A).
Arguments Done {A} c.
Arguments NewFunction {A} body k.

Definition run {A : Type} (p : program A) : completion A :=
  match p with
  | Done c => c
  | NewFunction body k => k (Script.call_new_Function body)
  end.

(** [try { ... } catch (error) { ... }] around such a computation. *)
Definition try_catch_program {A : Type} (p : program A) (handler : error -> completion A)
  : program A :=
  match p with
  | Done c => Done (try_catch c handler)
  | NewFunction body k => NewFunction body (fun r => try_catch (k r) handler)
  end.

(* ================================================================== *)
(** * The model client *)
(* ================================================================== *)

Record inline_data : Type := { mimeType : jstring; data : jstring }.

Inductive part : Type :=
  | TextPart (text : jstring)
  | InlineDataPart (inlineData : inline_data).

Record request : Type := { model : jstring; contents : list part }.

(** The [text] accessor of a response is a string or [undefined]. *)
Record response : Type := { text : option jstring }.

(** [response.text.trim()]: a [TypeError] when [text] is [undefined]. *)
Definition response_text_trim (r : response) : completion jstring :=
  match text r with
  | Some t => Return (trim t)
  | None => Throw TypeError
  end.

Definition ERROR_prefix : jstring := js "ERROR:".

(* ================================================================== *)
(** * src/services/geminiService.ts *)
(* ================================================================== *)

Module GeminiService.
Section Service.

(** [ai.models.generateContent]: opaque; it resolves with a response or
    rejects. *)
Variable generateContent : request -> completion response.
(** The fixed instruction text of the extraction request, and the
    instruction text of the calculation request, which ends with the
    expression to solve. *)
Variable extraction_prompt : jstring.
Variable calculation_prompt : jstring -> jstring.

Definition model_name : jstring := js "gemini-2.5-flash".

Definition extraction_request (base64Image mimeType : jstring) : request :=
  let imagePart := InlineDataPart {| mimeType := mimeType; data := base64Image |} in
  {| model := model_name; contents := [imagePart; TextPart extraction_prompt] |}.

Definition calculation_request (expression : jstring) : request :=
  {| model := model_name; contents := [TextPart (calculation_prompt expression)] |}.

Definition extractExpressionFromImage (base64Image mimeType : jstring)
  : completion jstring :=
  try_catch
    (response <- generateContent (extraction_request base64Image mimeType) ;;
     text <- response_text_trim response ;;
     if negb (match text with [] => true | _ => false end)
        && test_class is_digit text && test_class is_operator text
     then Return (keep_class is_allowed_char text)
     else if startsWith text ERROR_prefix then Return text
     else Return (js "ERROR: Could not recognize a valid expression in the image."))
    (fun _ => Return (js "ERROR: Failed to communicate with the AI model for extraction.")).

Definition calculateExpression (expression : jstring) : completion jstring :=
  try_catch
    (response <- generateContent (calculation_request expression) ;;
     text <- response_text_trim response ;;
     if negb (isNaN (parseFloat text)) && isFinite (StringToNumber text)
     then Return text
     else if startsWith text ERROR_prefix then Return text
     else Return (js "ERROR: AI returned an invalid numerical format."))
    (fun _ => Return (js "ERROR: Failed to communicate with the AI model for calculation.")).

End Service.
End GeminiService.

(* ================================================================== *)
(** * The JavaScript service of src/unnamed/part_000 *)
(* ================================================================== *)

Module LocalService.
Section Service.

Variable generateContent : request -> completion response.
Variable extraction_prompt : jstring.

Definition extractionModel : jstring := js "gemini-2.5-pro".

Definition extraction_request (base64Image mimeType : jstring) : request :=
  let imagePart := InlineDataPart {| mimeType := mimeType; data := base64Image |} in
  {| model := extractionModel; contents := [TextPart extraction_prompt; imagePart] |}.

Definition extractExpressionFromImage (base64Image mimeType : jstring)
  : completion jstring :=
  try_catch
    (response <- generateContent (extraction_request base64Image mimeType) ;;
     text <- response_text_trim response ;;
     let text := strip_labels text in
     let text := remove_spaces text in
     if negb (match text with [] => true | _ => false end)
        && test_class is_digit text && test_class is_operator text
     then Return (keep_class is_expression_char text)
     else if startsWith text ERROR_prefix then Return text
     else Return (js "ERROR: Could not recognize a valid expression in the image."))
    (fun _ => Return (js "ERROR: Failed to communicate with the AI model for extraction.")).

End Service.

Definition calculateExpression_program (expression : jstring) : program jstring :=
  try_catch_program
    (let sanitizedExpression := keep_class is_allowed_char expression in
     if negb (jstring_eqb sanitizedExpression expression)
     then Done (Return (js "ERROR: Expression contains invalid characters."))
     else if has_operator_run sanitizedExpression
     then Done (Return (js "ERROR: Invalid operator sequence."))
     else
       NewFunction (js "return " ++ sanitizedExpression)
         (fun called =>
            result <- called ;;
            match result with
            | VNumber x =>
                if isFinite x then Return (Number_toString x)
                else Return (js "ERROR: Calculation resulted in an invalid number.")
            | _ => Return (js "ERROR: Calculation resulted in an invalid number.")
            end))
    (fun _ => Return (js "ERROR: Invalid or unrecognized mathematical expression.")).

Definition calculateExpression (expression : jstring) : completion jstring :=
  run (calculateExpression_program expression).

End LocalService.


(* ================================================================== *)
(** * The component of src/unnamed/part_000 (App) *)
(* ================================================================== *)

Module App.

Inductive ProcessState : Type := idle | processing | success | error_state.

(** The five state variables of the component ([null] is [None]). *)
Record state : Type := {
  imagePreview : option jstring;
  expression : option jstring;
  result : option jstring;
  error : option jstring;
  processState : ProcessState
}.

(** What an awaited call gives the handler: a value, or a thrown value of
    which the handler reads [message] (a string, or [undefined]). *)
Inductive attempt (A : Type) : Type :=
  | Resolved (a : A)
  | Rejected (message : option jstring).
Arguments Resolved {A} a.
Arguments Rejected {A} message.

(** A JavaScript value used as a condition: [null] and the empty string are
    falsy. *)
Definition truthy (v : option jstring) : bool :=
  match v with Some (_ :: _) => true | _ => false end.

Definition UNEXPECTED : jstring := js "An unexpected error occurred.".

(** [resetState] (the two file inputs it clears are not state of the
    component). *)
Definition resetState (_ : state) : state :=
  {| imagePreview := None; expression := None; result := None; error := None;
     processState := idle |}.

(** [getBackgroundColor] *)
Definition getBackgroundColor (st : state) : jstring :=
  match processState st with
  | processing => js "bg-blue-50"
  | success => js "bg-green-50"
  | error_state => js "bg-red-50"
  | idle => js "bg-white"
  end.

Section Handler.

(** A selected file; [fileToBase64] of [./utils/fileUtils] and the
    [FileReader] are outside the sources and are taken as given: the first
    resolves with the base64 data and the MIME type or rejects, the second
    ends with the data URL of the file or with [null]. *)
Variable file : Type.
Variable fileToBase64 : file -> attempt (jstring * jstring).
Variable readAsDataURL : file -> option jstring.
(** The two functions imported from [./services/geminiService]. *)
Variable extractExpressionFromImage : jstring -> jstring -> attempt jstring.
Variable calculateExpression : jstring -> attempt jstring.

(** The [catch] block: [setError(e.message || "An unexpected error
    occurred."); setProcessState('error')]. *)
Definition caught (message : option jstring) (st : state) : state :=
  {| imagePreview := imagePreview st; expression := expression st; result := result st;
     error := Some (if truthy message
                    then match message with Some m => m | None => UNEXPECTED end
                    else UNEXPECTED);
     processState := error_state |}.

(** [handleImageChange], as the state once every update it starts has been
    applied: [files?.[0]] is the selected file, if any. *)
Definition handleImageChange (st : state) (selected : option file) : state :=
  match selected with
  | None => st
  | Some f =>
      (* processing; error, expression and result cleared; the reader sets
         the preview when it has loaded the file *)
      let st :=
        {| imagePreview := readAsDataURL f; expression := None; result := None;
           error := None; processState := processing |} in
      match fileToBase64 f with
      | Rejected m => caught m st
      | Resolved (base64, mimeType) =>
          match extractExpressionFromImage base64 mimeType with
          | Rejected m => caught m st
          | Resolved extractedExpr =>
              if startsWith extractedExpr ERROR_prefix
              then caught (Some extractedExpr) st
              else
                let st :=
                  {| imagePreview := imagePreview st; expression := Some extractedExpr;
                     result := result st; error := error st;
                     processState := processState st |} in
                match calculateExpression extractedExpr with
                | Rejected m => caught m st
                | Resolved calculatedResult =>
                    if startsWith calculatedResult ERROR_prefix
                    then caught (Some calculatedResult) st
                    else
                      {| imagePreview := imagePreview st; expression := expression st;
                         result := Some calculatedResult; error := error st;
                         processState := success |}
                end
          end
      end
  end.

End Handler.

(** What the component renders, as conditions on the state. *)
Definition shows_upload_prompt (st : state) : bool := negb (truthy (imagePreview st)).

Definition shows_spinner (st : state) : bool :=
  truthy (imagePreview st)
  && match processState st with processing => true | _ => false end.

Definition shows_error (st : state) : bool :=
  truthy (imagePreview st)
  && match processState st with error_state => true | _ => false end
  && truthy (error st).

Definition shows_panel (st : state) : bool :=
  truthy (imagePreview st)
  && match processState st with
     | success => true
     | error_state => truthy (expression st)
     | _ => false
     end.

Definition shows_expression (st : state) : bool := shows_panel st && truthy (expression st).
Definition shows_result (st : state) : bool := shows_panel st && truthy (result st).

End App.

(** A service of this development as the component awaits it: a thrown
    runtime error carries some message. *)
Definition awaited {A : Type} (message_of : error -> option jstring) (c : completion A)
  : App.attempt A :=
  match c with
  | Return a => App.Resolved a
  | Throw e => App.Rejected (message_of e)
  end.

(* ================================================================== *)
(** * Precedence and associativity *)
(* ================================================================== *)

Module Layout.
Import Script.

(** Arithmetic terms, and their conventional layout as tokens: an operand is
    parenthesized only when the convention demands it -- a sum or difference
    under a product or quotient, and a right operand of the same precedence
    as its operator ([a - (b - c)], [a / (b / c)]). *)
Inductive arith : Type :=
  | ANum (d x : Z)
  | ABin (op : binary_operator) (l r : arith).

Definition precedence (op : binary_operator) : nat :=
  match op with Add | Sub => 1 | Mul | Div => 2 end.

Definition operator_token (op : binary_operator) : token :=
  match op with Add => TPlus | Sub => TMinus | Mul => TStar | Div => TSlash end.

Fixpoint print (ctx : nat) (e : arith) : list token :=
  match e with
  | ANum d x => [TNumber d x]
  | ABin op l r =>
      let body := print (precedence op) l ++ operator_token op :: print (S (precedence op)) r in
      if (ctx <=? precedence op)%nat then body else TLParen :: body ++ [TRParen]
  end.

(** The expression a term stands for. *)
Fixpoint to_expr (e : arith) : expr :=
  match e with
  | ANum d x => ELiteral d x
  | ABin op l r => EBinary op (to_expr l) (to_expr r)
  end.

(** Tokens on one line. *)
Definition on_line (ts : list token) : list ltoken := map (pair false) ts.

(** Fuel that suffices to parse the layout of a term at a level. *)
Fixpoint need (c : nat) (e : arith) : nat :=
  match e with
  | ANum _ _ => match c with 3 => 1 | 2 => 3 | _ => 5 end
  | ABin op l r =>
      match op with
      | Add | Sub =>
          let n := need 1 l + need 2 r + 2 in
          match c with 1 => n | 3 => n + 2 | _ => n + 4 end
      | Mul | Div =>
          let n := need 2 l + need 3 r + 2 in
          match c with 2 => n | 1 => n + 2 | _ => n + 4 end
      end
  end%nat.

Fixpoint size (e : arith) : nat :=
  match e with
  | ANum _ _ => 1
  | ABin _ l r => S (size l + size r)
  end.

(** Arithmetic as it is written: decimal literals (integer digits [i] and
    fraction digits [f], a point between them when there is a fraction) and
    the four operators, parenthesized by the same convention. *)
Inductive formula : Type :=
  | Numeral (i f : jstring)
  | Operation (op : binary_operator) (l r : formula).

Definition operator_char (op : binary_operator) : code_unit :=
  match op with Add => chr "+" | Sub => chr "-" | Mul => chr "*" | Div => chr "/" end.

Definition numeral_text (i f : jstring) : jstring :=
  i ++ match f with [] => [] | _ => chr "." :: f end.

Fixpoint write (ctx : nat) (t : formula) : jstring :=
  match t with
  | Numeral i f => numeral_text i f
  | Operation op l r =>
      let body :=
        write (precedence op) l ++ operator_char op :: write (S (precedence op)) r in
      if (ctx <=? precedence op)%nat then body else chr "(" :: body ++ [chr ")"]
  end.

(** A decimal literal has at least one integer digit and no superfluous
    leading zero (which would make it a legacy octal literal). *)
Definition decimal_literal (i f : jstring) : bool :=
  forallb is_digit i && forallb is_digit f &&
  match i with
  | [] => false
  | [_] => true
  | z :: _ => negb (is_char "0" z)
  end.

Fixpoint well_written (t : formula) : bool :=
  match t with
  | Numeral i f => decimal_literal i f
  | Operation _ l r => well_written l && well_written r
  end.

Fixpoint meaning (t : formula) : arith :=
  match t with
  | Numeral i f => ANum (digits_value (i ++ f)) (- Z.of_nat (List.length f))
  | Operation op l r => ABin op (meaning l) (meaning r)
  end.

(** The number a term denotes in double precision arithmetic. *)
Fixpoint value (e : arith) : number :=
  match e with
  | ANum d x => Float64.of_decimal false d x
  | ABin Add l r => Float64.add (value l) (value r)
  | ABin Sub l r => Float64.sub (value l) (value r)
  | ABin Mul l r => Float64.mul (value l) (value r)
  | ABin Div l r => Float64.div (value l) (value r)
  end.

End Layout.

(* ================================================================== *)
(** * Properties *)
(* ================================================================== *)

(** ** Strings *)

Lemma jstring_eqb_eq (a b : jstring) : jstring_eqb a b = true <-> a = b.
Proof.
  revert b; induction a as [|x a IH]; intros [|y b]; simpl; split; try congruence; auto.
  - intros H. apply andb_true_iff in H as [Hx Hab].
    apply N.eqb_eq in Hx. apply IH in Hab. congruence.
  - intros H. injection H as -> ->.
    rewrite N.eqb_refl. simpl. apply IH. reflexivity.
Qed.

Lemma keep_class_all (p : code_unit -> bool) (s : jstring) :
  forallb p (keep_class p s) = true.
Proof.
  unfold keep_class. induction s as [|c s IH]; simpl; auto.
  destruct (p c) eqn:E; simpl; rewrite ?E; auto.
Qed.

Lemma keep_class_fixed (p : code_unit -> bool) (s : jstring) :
  keep_class p s = s <-> forallb p s = true.
Proof.
  split.
  - intros H. rewrite <- H. apply keep_class_all.
  - unfold keep_class. induction s as [|c s IH]; simpl; auto.
    intros H. apply andb_true_iff in H as [Hc Hs]. rewrite Hc, IH; auto.
Qed.

Lemma keep_class_idempotent (p : code_unit -> bool) (s : jstring) :
  keep_class p (keep_class p s) = keep_class p s.
Proof. apply keep_class_fixed, keep_class_all. Qed.

Lemma forallb_weaken (p q : code_unit -> bool) (s : jstring) :
  (forall c, p c = true -> q c = true) -> forallb p s = true -> forallb q s = true.
Proof.
  intros Hpq. induction s as [|c s IH]; simpl; auto.
  intros H. apply andb_true_iff in H as [Hc Hs]. rewrite (Hpq _ Hc), IH; auto.
Qed.

(** A character outside the class exists exactly when [forallb] fails. *)
Lemma forallb_false_iff (p : code_unit -> bool) (s : jstring) :
  forallb p s = false <-> exists c, In c s /\ p c = false.
Proof.
  induction s as [|c s IH]; simpl.
  - split; [discriminate | intros (c & [] & _)].
  - destruct (p c) eqn:E; simpl.
    + rewrite IH. split.
      * intros (d & Hd & Hp). exists d. auto.
      * intros (d & [-> | Hd] & Hp); [congruence | exists d; auto].
    + split; auto. intros _. exists c. auto.
Qed.

(** [has_operator_run] is the test "two operator characters are adjacent". *)
Lemma has_operator_run_iff (s : jstring) :
  has_operator_run s = true <->
  exists u a b v, s = u ++ a :: b :: v /\ is_operator a = true /\ is_operator b = true.
Proof.
  induction s as [|a s IH].
  - simpl. split; [discriminate|]. intros (u & x & y & v & H & _). destruct u; discriminate.
  - destruct s as [|b s'].
    + simpl. split; [discriminate|].
      intros (u & x & y & v & H & _). destruct u as [|? [|]]; discriminate.
    + change (has_operator_run (a :: b :: s'))
        with ((is_operator a && is_operator b) || has_operator_run (b :: s')).
      rewrite orb_true_iff, andb_true_iff, IH. split.
      * intros [[Ha Hb] | (u & x & y & v & H & Hx & Hy)].
        -- exists [], a, b, s'. auto.
        -- exists (a :: u), x, y, v. simpl. rewrite H. auto.
      * intros (u & x & y & v & H & Hx & Hy). destruct u as [|c u].
        -- simpl in H. injection H as -> -> ->. auto.
        -- simpl in H. injection H as -> H. right. exists u, x, y, v. auto.
Qed.

Lemma existsb_drop_while (p q : code_unit -> bool) (s : jstring) :
  existsb p (drop_while q s) = true -> existsb p s = true.
Proof.
  induction s as [|c s IH]; simpl; auto.
  destruct (q c); simpl; auto. intros H. rewrite (IH H). apply orb_true_r.
Qed.

Lemma existsb_rev (p : code_unit -> bool) (s : jstring) :
  existsb p (rev s) = existsb p s.
Proof.
  induction s as [|c s IH]; simpl; auto.
  rewrite existsb_app, IH. simpl. rewrite orb_false_r. apply orb_comm.
Qed.

Lemma existsb_trim (p : code_unit -> bool) (s : jstring) :
  existsb p (trim s) = true -> existsb p s = true.
Proof.
  unfold trim, trimEnd, trimStart. rewrite existsb_rev. intros H.
  apply existsb_drop_while in H. rewrite existsb_rev in H.
  eapply existsb_drop_while; eauto.
Qed.

Lemma existsb_filter (p q : code_unit -> bool) (s : jstring) :
  existsb p (filter q s) = true -> existsb p s = true.
Proof.
  induction s as [|c s IH]; simpl; auto.
  destruct (q c); simpl; intros H.
  - apply orb_true_iff in H as [H | H]; [rewrite H; auto | rewrite (IH H); apply orb_true_r].
  - rewrite (IH H). apply orb_true_r.
Qed.

Lemma existsb_delete_matches (p : code_unit -> bool) m (s : jstring) :
  forall skip, existsb p (delete_matches m skip s) = true -> existsb p s = true.
Proof.
  induction s as [|c s IH]; intros skip; simpl; auto.
  destruct skip as [|k].
  - destruct (m (c :: s)) as [[|n]|]; simpl; intros H;
      try (apply orb_true_iff in H as [H | H];
           [rewrite H; auto | rewrite (IH _ H); apply orb_true_r]).
    rewrite (IH _ H). apply orb_true_r.
  - intros H. rewrite (IH _ H). apply orb_true_r.
Qed.

(** Cleaning a response only deletes characters. *)
Lemma existsb_cleaned (p : code_unit -> bool) (raw : jstring) :
  existsb p (remove_spaces (strip_labels (trim raw))) = true -> existsb p raw = true.
Proof.
  unfold remove_spaces, strip_labels. intros H.
  apply existsb_filter, existsb_delete_matches, existsb_trim in H. exact H.
Qed.

(** ** The extractors *)

(** The validation policy in the words of the specification: the text is
    accepted, and sanitized, when it has a digit and an operator; an error
    text passes through; anything else becomes the fixed error. *)
Definition validation_policy (sanitize : jstring -> jstring) (t : jstring) : jstring :=
  if test_class is_digit t && test_class is_operator t then sanitize t
  else if startsWith t ERROR_prefix then t
  else js "ERROR: Could not recognize a valid expression in the image.".

(** The text the extractor of [LocalService] validates. *)
Definition cleaned (raw : jstring) : jstring := remove_spaces (strip_labels (trim raw)).

Lemma nonempty_of_digit (t : jstring) :
  test_class is_digit t = true -> negb (match t with [] => true | _ => false end) = true.
Proof. destruct t; simpl; [discriminate | auto]. Qed.

Lemma validation_policy_error sanitize (t : jstring) :
  test_class is_digit t && test_class is_operator t = false ->
  startsWith (validation_policy sanitize t) ERROR_prefix = true.
Proof.
  unfold validation_policy. intros ->.
  destruct (startsWith t ERROR_prefix) eqn:E; [exact E | reflexivity].
Qed.

Lemma gemini_extract_resolved gc p img mime raw :
  gc (GeminiService.extraction_request p img mime) = Return {| text := Some raw |} ->
  GeminiService.extractExpressionFromImage gc p img mime
  = Return (validation_policy (keep_class is_allowed_char) (trim raw)).
Proof.
  intros H. unfold GeminiService.extractExpressionFromImage, validation_policy.
  rewrite H. simpl.
  destruct (test_class is_digit (trim raw)) eqn:Hd.
  - rewrite (nonempty_of_digit _ Hd). simpl.
    destruct (test_class is_operator (trim raw)); simpl; auto.
    destruct (startsWith (trim raw) ERROR_prefix); reflexivity.
  - rewrite andb_false_r. simpl.
    destruct (startsWith (trim raw) ERROR_prefix); reflexivity.
Qed.

Lemma local_extract_resolved gc p img mime raw :
  gc (LocalService.extraction_request p img mime) = Return {| text := Some raw |} ->
  LocalService.extractExpressionFromImage gc p img mime
  = Return (validation_policy (keep_class is_expression_char) (cleaned raw)).
Proof.
  intros H. unfold LocalService.extractExpressionFromImage, validation_policy.
  rewrite H. simpl. fold (cleaned raw).
  destruct (test_class is_digit (cleaned raw)) eqn:Hd.
  - rewrite (nonempty_of_digit _ Hd). simpl.
    destruct (test_class is_operator (cleaned raw)); simpl; auto.
    destruct (startsWith (cleaned raw) ERROR_prefix); reflexivity.
  - rewrite andb_false_r. simpl.
    destruct (startsWith (cleaned raw) ERROR_prefix); reflexivity.
Qed.

(** What an extractor returns when the client rejects, or when the response
    has no text. *)
Lemma gemini_extract_cases gc p img mime :
  (exists raw, gc (GeminiService.extraction_request p img mime) = Return {| text := Some raw |})
  \/ GeminiService.extractExpressionFromImage gc p img mime
     = Return (js "ERROR: Failed to communicate with the AI model for extraction.").
Proof.
  unfold GeminiService.extractExpressionFromImage.
  destruct (gc _) as [[[raw|]]|e]; simpl; eauto.
Qed.

Lemma local_extract_cases gc p img mime :
  (exists raw, gc (LocalService.extraction_request p img mime) = Return {| text := Some raw |})
  \/ LocalService.extractExpressionFromImage gc p img mime
     = Return (js "ERROR: Failed to communicate with the AI model for extraction.").
Proof.
  unfold LocalService.extractExpressionFromImage.
  destruct (gc _) as [[[raw|]]|e]; simpl; eauto.
Qed.

Lemma not_error_of_class (p : code_unit -> bool) (r : jstring) :
  p (chr "E") = false -> forallb p r = true -> startsWith r ERROR_prefix = false.
Proof.
  intros HE Hr. destruct r as [|c r]; [reflexivity|].
  simpl in Hr. apply andb_true_iff in Hr as [Hc _].
  change (startsWith (c :: r) ERROR_prefix)
    with (N.eqb c (chr "E") && startsWith r (js "RROR:")).
  destruct (N.eqb c (chr "E")) eqn:E; [|reflexivity].
  apply N.eqb_eq in E. congruence.
Qed.

(** A text is accepted exactly when it has a digit and an operator: only
    then is the value returned by the policy not an error. *)
Lemma validation_policy_accepts (p : code_unit -> bool) (t : jstring) :
  p (chr "E") = false ->
  startsWith (validation_policy (keep_class p) t) ERROR_prefix
  = negb (test_class is_digit t && test_class is_operator t).
Proof.
  intros HE. destruct (test_class is_digit t && test_class is_operator t) eqn:E.
  - unfold validation_policy. rewrite E. simpl.
    apply (not_error_of_class p); [exact HE | apply keep_class_all].
  - simpl. apply validation_policy_error. exact E.
Qed.

(** C2: whatever text the model answers, the extractor of either file
    applies the validation policy to it once trimmed (and, in the local
    service, cleaned): the text is accepted -- sanitized and returned, the
    only case in which the result is not an error -- if and only if it has a
    digit and one of the operators + - * /; otherwise a text that starts with
    ERROR: is returned unchanged, and any other text is replaced by the fixed
    error. A model answer without a digit or without an operator therefore
    yields a result that starts with ERROR:. *)
Theorem extract_validation_policy :
  forall gc p img mime raw,
    (gc (GeminiService.extraction_request p img mime) = Return {| text := Some raw |} ->
     let t := trim raw in
     let r := validation_policy (keep_class is_allowed_char) t in
     GeminiService.extractExpressionFromImage gc p img mime = Return r
     /\ startsWith r ERROR_prefix = negb (test_class is_digit t && test_class is_operator t)
     /\ (test_class is_digit raw = false \/ test_class is_operator raw = false ->
         startsWith r ERROR_prefix = true))
    /\
    (gc (LocalService.extraction_request p img mime) = Return {| text := Some raw |} ->
     let t := cleaned raw in
     let r := validation_policy (keep_class is_expression_char) t in
     LocalService.extractExpressionFromImage gc p img mime = Return r
     /\ startsWith r ERROR_prefix = negb (test_class is_digit t && test_class is_operator t)
     /\ (test_class is_digit raw = false \/ test_class is_operator raw = false ->
         startsWith r ERROR_prefix = true)).
Proof.
  intros gc p img mime raw. split; intros H t r.
  - split; [apply gemini_extract_resolved, H|].
    split; [apply validation_policy_accepts; reflexivity|].
    intros Hno. apply validation_policy_error.
    apply andb_false_iff. destruct Hno as [Hd | Ho]; [left | right].
    + destruct (test_class is_digit t) eqn:E; auto.
      apply existsb_trim in E. unfold test_class in Hd. congruence.
    + destruct (test_class is_operator t) eqn:E; auto.
      apply existsb_trim in E. unfold test_class in Ho. congruence.
  - split; [apply local_extract_resolved, H|].
    split; [apply validation_policy_accepts; reflexivity|].
    intros Hno. apply validation_policy_error.
    apply andb_false_iff. destruct Hno as [Hd | Ho]; [left | right].
    + destruct (test_class is_digit t) eqn:E; auto.
      apply existsb_cleaned in E. unfold test_class in Hd. congruence.
    + destruct (test_class is_operator t) eqn:E; auto.
      apply existsb_cleaned in E. unfold test_class in Ho. congruence.
Qed.

(** The text of the end-to-end scenario is accepted as it is; a greeting is
    refused. *)
Lemma extract_validation_policy_witness :
  GeminiService.extractExpressionFromImage
    (fun _ => Return {| text := Some (js " 34+54+67+87 ") |}) [] [] []
  = Return (js "34+54+67+87")
  /\ LocalService.extractExpressionFromImage
       (fun _ => Return {| text := Some (js "Hello there") |}) [] [] []
     = Return (js "ERROR: Could not recognize a valid expression in the image.").
Proof.
  split.
  - exact (proj1 (proj1 (extract_validation_policy
                           (fun _ => Return {| text := Some (js " 34+54+67+87 ") |})
                           [] [] [] (js " 34+54+67+87 ")) eq_refl)).
  - exact (proj1 (proj2 (extract_validation_policy
                           (fun _ => Return {| text := Some (js "Hello there") |})
                           [] [] [] (js "Hello there")) eq_refl)).
Defined.

Lemma expression_char_allowed (c : code_unit) :
  is_expression_char c = true -> is_allowed_char c = true.
Proof. unfold is_allowed_char. intros ->. reflexivity. Qed.

(** C3: for every answer of the model client (a text, no text, or a
    rejection), a result of either extractor that does not start with ERROR:
    is made of characters of [0-9.+\-*/()\s] only; and the sanitizing
    substitution of either file is idempotent. *)
Theorem extract_sanitized :
  forall gc p img mime r,
    (GeminiService.extractExpressionFromImage gc p img mime = Return r ->
     startsWith r ERROR_prefix = false -> forallb is_allowed_char r = true)
    /\
    (LocalService.extractExpressionFromImage gc p img mime = Return r ->
     startsWith r ERROR_prefix = false -> forallb is_allowed_char r = true)
    /\
    (forall s, keep_class is_allowed_char (keep_class is_allowed_char s)
               = keep_class is_allowed_char s)
    /\
    (forall s, keep_class is_expression_char (keep_class is_expression_char s)
               = keep_class is_expression_char s).
Proof.
  intros gc p img mime r. repeat split.
  - intros Hr Hne.
    destruct (gemini_extract_cases gc p img mime) as [[raw Hraw] | Hfail].
    + rewrite (gemini_extract_resolved _ _ _ _ _ Hraw) in Hr. injection Hr as <-.
      rewrite validation_policy_accepts in Hne by reflexivity.
      apply negb_false_iff in Hne. unfold validation_policy. rewrite Hne.
      apply keep_class_all.
    + rewrite Hfail in Hr. injection Hr as <-. discriminate.
  - intros Hr Hne.
    destruct (local_extract_cases gc p img mime) as [[raw Hraw] | Hfail].
    + rewrite (local_extract_resolved _ _ _ _ _ Hraw) in Hr. injection Hr as <-.
      rewrite validation_policy_accepts in Hne by reflexivity.
      apply negb_false_iff in Hne. unfold validation_policy. rewrite Hne.
      eapply forallb_weaken; [apply expression_char_allowed | apply keep_class_all].
    + rewrite Hfail in Hr. injection Hr as <-. discriminate.
  - intros s. apply keep_class_idempotent.
  - intros s. apply keep_class_idempotent.
Qed.

Lemma extract_sanitized_witness :
  forallb is_allowed_char (js "1 + 2  ") = true.
Proof.
  exact (proj1 (extract_sanitized
                  (fun _ => Return {| text := Some (js "1 + 2 = ?") |}) [] [] [] (js "1 + 2  "))
               eq_refl eq_refl).
Defined.

(** ** White space in the extracted expression *)



Definition no_space (r : jstring) : bool := forallb (fun c => negb (is_space c)) r.

Lemma forallb_rev (p : code_unit -> bool) (s : jstring) :
  forallb p (rev s) = forallb p s.
Proof.
  induction s as [|c s IH]; simpl; auto.
  rewrite forallb_app, IH. simpl. rewrite andb_true_r. apply andb_comm.
Qed.

Lemma drop_while_no_space (s : jstring) :
  no_space s = true -> drop_while is_space s = s.
Proof.
  destruct s as [|c s]; simpl; auto.
  intros H. apply andb_true_iff in H as [Hc _].
  apply negb_true_iff in Hc. rewrite Hc. reflexivity.
Qed.


Lemma expression_char_not_space (c : code_unit) :
  is_expression_char c = true -> negb (is_space c) = true.
Proof.
  unfold is_expression_char, is_operator, is_digit, is_char, is_space,
    is_white_space, is_line_terminator, chr. simpl.
  rewrite !orb_true_iff, !andb_true_iff, !N.eqb_eq, !N.leb_le.
  intros H. apply negb_true_iff.
  repeat match goal with
         | |- (_ || _)%bool = false => apply orb_false_iff; split
         | |- (_ && _)%bool = false => apply andb_false_iff; left
         | |- N.eqb _ _ = false => apply N.eqb_neq
         | |- N.leb _ _ = false => apply N.leb_gt
         end; lia.
Qed.




(** ** The guards of the local evaluator *)

Definition INVALID_CHARACTERS : jstring := js "ERROR: Expression contains invalid characters.".
Definition INVALID_SEQUENCE : jstring := js "ERROR: Invalid operator sequence.".
Definition INVALID_NUMBER : jstring := js "ERROR: Calculation resulted in an invalid number.".
Definition INVALID_EXPRESSION : jstring :=
  js "ERROR: Invalid or unrecognized mathematical expression.".

Lemma sanitized_differs (s : jstring) :
  forallb is_allowed_char s = false ->
  negb (jstring_eqb (keep_class is_allowed_char s) s) = true.
Proof.
  intros H. apply negb_true_iff.
  destruct (jstring_eqb (keep_class is_allowed_char s) s) eqn:E; auto.
  apply jstring_eqb_eq, keep_class_fixed in E. congruence.
Qed.

Lemma sanitized_same (s : jstring) :
  forallb is_allowed_char s = true ->
  keep_class is_allowed_char s = s
  /\ negb (jstring_eqb (keep_class is_allowed_char s) s) = false.
Proof.
  intros H. apply keep_class_fixed in H. split; [exact H|].
  apply negb_false_iff, jstring_eqb_eq, H.
Qed.

(** The three ways through the guards. *)
Lemma calculateExpression_program_cases (s : jstring) :
  (forallb is_allowed_char s = false
   /\ LocalService.calculateExpression_program s = Done (Return INVALID_CHARACTERS))
  \/ (forallb is_allowed_char s = true /\ has_operator_run s = true
      /\ LocalService.calculateExpression_program s = Done (Return INVALID_SEQUENCE))
  \/ (forallb is_allowed_char s = true /\ has_operator_run s = false
      /\ exists k, LocalService.calculateExpression_program s
                   = NewFunction (js "return " ++ s) k
                   /\ (forall e, k (Throw e) = Return INVALID_EXPRESSION)
                   /\ (forall v, k (Return v)
                                 = match v with
                                   | VNumber x =>
                                       if isFinite x then Return (Number_toString x)
                                       else Return INVALID_NUMBER
                                   | _ => Return INVALID_NUMBER
                                   end)).
Proof.
  unfold LocalService.calculateExpression_program.
  destruct (forallb is_allowed_char s) eqn:Hall.
  - destruct (sanitized_same s Hall) as [-> ->].
    destruct (has_operator_run s) eqn:Hrun.
    + right; left. auto.
    + right; right. repeat split. eexists. split; [reflexivity|].
      split; [reflexivity|].
      intros [| x | |]; simpl; try reflexivity. destruct (isFinite x); reflexivity.
  - left. rewrite (sanitized_differs s Hall). auto.
Qed.

(** C4: the local evaluator answers any text with a character outside
    [0-9.+\-*/()\s] by "ERROR: Expression contains invalid characters.", and a
    text of allowed characters in which two operator characters are adjacent
    by "ERROR: Invalid operator sequence."; "3++4" and "5*/2" are of the
    second kind. *)
Theorem calculateExpression_guards :
  forall s,
    ((exists c, In c s /\ is_allowed_char c = false) ->
     LocalService.calculateExpression s = Return INVALID_CHARACTERS)
    /\
    (forallb is_allowed_char s = true ->
     (exists u a b v, s = u ++ a :: b :: v /\ is_operator a = true /\ is_operator b = true) ->
     LocalService.calculateExpression s = Return INVALID_SEQUENCE)
    /\ LocalService.calculateExpression (js "3++4") = Return INVALID_SEQUENCE
    /\ LocalService.calculateExpression (js "5*/2") = Return INVALID_SEQUENCE.
Proof.
  intros s. unfold LocalService.calculateExpression. repeat split.
  - intros H. apply forallb_false_iff in H.
    destruct (calculateExpression_program_cases s)
      as [[_ ->] | [(Hall & _) | (Hall & _)]]; [reflexivity | congruence | congruence].
  - intros Hall H. apply has_operator_run_iff in H.
    destruct (calculateExpression_program_cases s)
      as [[Hno _] | [(_ & _ & ->) | (_ & Hrun & _)]]; [congruence | reflexivity | congruence].
Qed.

Lemma calculateExpression_guards_witness :
  LocalService.calculateExpression (js "2 x 3") = Return INVALID_CHARACTERS
  /\ LocalService.calculateExpression (js "3+-4") = Return INVALID_SEQUENCE.
Proof.
  split.
  - apply (proj1 (calculateExpression_guards (js "2 x 3"))).
    exists (chr "x"). split; [simpl; auto | reflexivity].
  - apply (proj1 (proj2 (calculateExpression_guards (js "3+-4")))); [reflexivity|].
    exists [chr "3"], (chr "+"), (chr "-"), [chr "4"]. repeat split.
Defined.

(** C9: the only function body the local evaluator ever hands to
    [new Function] is [return] followed by the input itself, unmodified, and
    only when the input has passed both guards: all its characters are in
    [0-9.+\-*/()\s] and no two operator characters are adjacent. For an input
    with a disallowed character nothing is handed over at all. *)
Theorem calculateExpression_evaluates_guarded_input :
  forall s,
    (forall body k,
        LocalService.calculateExpression_program s = NewFunction body k ->
        body = js "return " ++ s
        /\ forallb is_allowed_char s = true
        /\ has_operator_run s = false)
    /\
    ((exists c, In c s /\ is_allowed_char c = false) ->
     exists c, LocalService.calculateExpression_program s = Done c).
Proof.
  intros s. split.
  - intros body k H.
    destruct (calculateExpression_program_cases s)
      as [[_ E] | [(_ & _ & E) | (Hall & Hrun & k' & E & _)]];
      rewrite E in H; try discriminate.
    injection H as <- _. auto.
  - intros H. apply forallb_false_iff in H.
    destruct (calculateExpression_program_cases s)
      as [[_ E] | [(Hall & _) | (Hall & _)]]; [eauto | congruence | congruence].
Qed.

Lemma calculateExpression_evaluates_guarded_input_witness :
  exists c, LocalService.calculateExpression_program (js "alert(1)") = Done c.
Proof.
  apply (proj2 (calculateExpression_evaluates_guarded_input (js "alert(1)"))).
  exists (chr "a"). split; [simpl; auto | reflexivity].
Defined.

(** ** The remote evaluator *)

(** The numeric test of the remote evaluator:
    [!isNaN(parseFloat(text)) && isFinite(Number(text))]. *)
Definition parses_as_finite_number (t : jstring) : bool :=
  negb (isNaN (parseFloat t)) && isFinite (StringToNumber t).

(** C7: the remote evaluator trims the answer of the model; a trimmed text
    that parses as a finite number is returned as it is, not reformatted; a
    trimmed text that starts with ERROR: is returned unchanged; anything else
    becomes "ERROR: AI returned an invalid numerical format.". *)
Theorem remote_calculateExpression_validation :
  forall gc cp expression raw,
    gc (GeminiService.calculation_request cp expression) = Return {| text := Some raw |} ->
    let t := trim raw in
    (parses_as_finite_number t = true ->
     GeminiService.calculateExpression gc cp expression = Return t)
    /\ (parses_as_finite_number t = false -> startsWith t ERROR_prefix = true ->
        GeminiService.calculateExpression gc cp expression = Return t)
    /\ (parses_as_finite_number t = false -> startsWith t ERROR_prefix = false ->
        GeminiService.calculateExpression gc cp expression
        = Return (js "ERROR: AI returned an invalid numerical format.")).
Proof.
  intros gc cp expression raw H t.
  unfold GeminiService.calculateExpression. rewrite H. simpl. fold t.
  unfold parses_as_finite_number.
  repeat split; intros H1; try intros H2; rewrite H1; try rewrite H2; reflexivity.
Qed.

(** The answer " 2.420e2 " comes back as "2.420e2", not as "242"; "12abc"
    and "Infinity" are not finite numbers. *)
Lemma remote_calculateExpression_validation_witness :
  GeminiService.calculateExpression
    (fun _ => Return {| text := Some (js " 2.420e2 ") |}) (fun e => e) (js "242/1")
  = Return (js "2.420e2")
  /\ GeminiService.calculateExpression
       (fun _ => Return {| text := Some (js "12abc") |}) (fun e => e) (js "12")
     = Return (js "ERROR: AI returned an invalid numerical format.")
  /\ GeminiService.calculateExpression
       (fun _ => Return {| text := Some (js "Infinity") |}) (fun e => e) (js "1/0")
     = Return (js "ERROR: AI returned an invalid numerical format.").
Proof.
  split; [|split].
  - apply (proj1 (remote_calculateExpression_validation
                    (fun _ => Return {| text := Some (js " 2.420e2 ") |})
                    (fun e => e) (js "242/1") (js " 2.420e2 ") eq_refl)).
    vm_compute. reflexivity.
  - apply (proj2 (proj2 (remote_calculateExpression_validation
                    (fun _ => Return {| text := Some (js "12abc") |})
                    (fun e => e) (js "12") (js "12abc") eq_refl))); vm_compute; reflexivity.
  - apply (proj2 (proj2 (remote_calculateExpression_validation
                    (fun _ => Return {| text := Some (js "Infinity") |})
                    (fun e => e) (js "1/0") (js "Infinity") eq_refl))); vm_compute; reflexivity.
Defined.

(** ** The local evaluator past its guards *)

Lemma call_new_Function_return (s : jstring) :
  Script.call_new_Function (js "return " ++ s) = Script.run_return s.
Proof.
  unfold Script.call_new_Function.
  change (js "return ") with [114; 101; 116; 117; 114; 110; 32]%N.
  reflexivity.
Qed.

(** Past the guards the result is decided by the completion of the call. *)
Lemma calculateExpression_guarded (s : jstring) :
  forallb is_allowed_char s = true ->
  has_operator_run s = false ->
  LocalService.calculateExpression s
  = match Script.run_return s with
    | Throw _ => Return INVALID_EXPRESSION
    | Return (VNumber x) =>
        if isFinite x then Return (Number_toString x) else Return INVALID_NUMBER
    | Return _ => Return INVALID_NUMBER
    end.
Proof.
  intros Hall Hrun. unfold LocalService.calculateExpression.
  destruct (calculateExpression_program_cases s)
    as [[Hno _] | [(_ & Hr & _) | (_ & _ & k & -> & Hthrow & Hret)]];
    [congruence | congruence |].
  unfold run. rewrite call_new_Function_return.
  destruct (Script.run_return s) as [v | e]; [apply Hret | apply Hthrow].
Qed.

Lemma operator_cases (c : code_unit) :
  is_operator c = true -> c = chr "+" \/ c = chr "-" \/ c = chr "*" \/ c = chr "/".
Proof.
  unfold is_operator, is_char. rewrite !orb_true_iff, !N.eqb_eq. tauto.
Qed.

(** C10: the operator guard only sees operator characters that touch. Two
    operators with a space between them pass it: such a text is never answered
    with "ERROR: Invalid operator sequence."; "3+ +4" is compiled as the sum of
    3 and the unary plus of 4 and gives "7" (and "3 - -4" gives "7" too). *)
Theorem calculateExpression_spaced_operators :
  (forall a b,
      is_operator a = true -> is_operator b = true ->
      let s := [chr "3"; a; chr " "; b; chr "4"] in
      has_operator_run s = false
      /\ LocalService.calculateExpression s <> Return INVALID_SEQUENCE)
  /\ Script.compile (js "3+ +4")
     = Some (Some (Script.EBinary Script.Add
                     (Script.ELiteral 3 0)
                     (Script.EUnary Script.UPlus (Script.ELiteral 4 0))))
  /\ LocalService.calculateExpression (js "3+ +4") = Return (js "7")
  /\ LocalService.calculateExpression (js "3 - -4") = Return (js "7").
Proof.
  split; [|repeat split].
  intros a b Ha Hb s.
  apply operator_cases in Ha. apply operator_cases in Hb.
  destruct Ha as [-> | [-> | [-> | ->]]]; destruct Hb as [-> | [-> | [-> | ->]]];
    (split; [reflexivity | vm_compute; discriminate]).
Qed.

Lemma calculateExpression_spaced_operators_witness :
  LocalService.calculateExpression (js "3* -4") <> Return INVALID_SEQUENCE.
Proof.
  exact (proj2 (proj1 calculateExpression_spaced_operators (chr "*") (chr "-")
                  eq_refl eq_refl)).
Defined.

Lemma div_by_zero_not_finite (x : number) (s : bool) : isFinite (div x (Zero s)) = false.
Proof. destruct x; reflexivity. Qed.

(** C6: past the guards, a result that is not a finite number -- such as the
    quotient by a divisor that evaluates to zero, or an overflow to
    Infinity -- is answered with "ERROR: Calculation resulted in an invalid
    number.", and a text that fails to compile as JavaScript with "ERROR:
    Invalid or unrecognized mathematical expression."; "5/0" gives the first
    message, which is an ERROR: string and not "Infinity". *)
Theorem calculateExpression_failures :
  forall s,
    forallb is_allowed_char s = true ->
    has_operator_run s = false ->
    (forall x, Script.run_return s = Return (VNumber x) -> isFinite x = false ->
               LocalService.calculateExpression s = Return INVALID_NUMBER)
    /\
    (forall l r lv rv sg,
        Script.compile s = Some (Some (Script.EBinary Script.Div l r)) ->
        Script.eval l = Return lv -> Script.eval r = Return rv ->
        Script.ToNumber rv = Zero sg ->
        LocalService.calculateExpression s = Return INVALID_NUMBER)
    /\
    (Script.compile s = None ->
     LocalService.calculateExpression s = Return INVALID_EXPRESSION).
Proof.
  intros s Hall Hrun. rewrite (calculateExpression_guarded s Hall Hrun).
  repeat split.
  - intros x -> ->. reflexivity.
  - intros l r lv rv sg Hc Hl Hr Hz. unfold Script.run_return. rewrite Hc.
    simpl. rewrite Hl, Hr. simpl. rewrite Hz, div_by_zero_not_finite. reflexivity.
  - intros Hc. unfold Script.run_return. rewrite Hc. reflexivity.
Qed.

(** "5/0" is a division by zero; a literal of 400 nines overflows; "2+" and
    "(2+3" do not compile. *)
Lemma calculateExpression_failures_witness :
  LocalService.calculateExpression (js "5/0") = Return INVALID_NUMBER
  /\ startsWith INVALID_NUMBER ERROR_prefix = true
  /\ LocalService.calculateExpression (repeat (chr "9") 400) = Return INVALID_NUMBER
  /\ LocalService.calculateExpression (js "2+") = Return INVALID_EXPRESSION
  /\ LocalService.calculateExpression (js "(2+3") = Return INVALID_EXPRESSION.
Proof.
  split; [|split; [reflexivity|split; [|split]]].
  - apply (proj1 (proj2 (calculateExpression_failures (js "5/0") eq_refl eq_refl))
             (Script.ELiteral 5 0) (Script.ELiteral 0 0)
             (VNumber (Finite false 5629499534213120 (-50))) (VNumber (Zero false)) false);
      vm_compute; reflexivity.
  - apply (proj1 (calculateExpression_failures (repeat (chr "9") 400) eq_refl eq_refl)
             (Infinity false));
      vm_compute; reflexivity.
  - apply (proj2 (proj2 (calculateExpression_failures (js "2+") eq_refl eq_refl))).
    vm_compute. reflexivity.
  - apply (proj2 (proj2 (calculateExpression_failures (js "(2+3") eq_refl eq_refl))).
    vm_compute. reflexivity.
Defined.

(** ** Numbers stay in range *)

(** The finite values of binary64 do not exceed [MAX_VALUE]. *)
Definition bounded (x : number) : Prop :=
  match x with
  | Finite _ m e => fst (dyadic (Zpos m) e) <= MAX_VALUE * snd (dyadic (Zpos m) e)
  | _ => True
  end.

Lemma round_bounded neg p q : bounded (round neg p q).
Proof.
  unfold round.
  destruct (scale2 p q (Z.max (floor_log2 p q - 52) (-1074))) as [n d].
  destruct (if round_half_even n d =? 2 ^ 53
            then (2 ^ 52, Z.max (floor_log2 p q - 52) (-1074) + 1)
            else (round_half_even n d, Z.max (floor_log2 p q - 52) (-1074)))
    as [m e].
  destruct m as [|mp|mp]; try exact I.
  destruct (dyadic (Z.pos mp) e) as [pm qm] eqn:E.
  destruct (MAX_VALUE * qm <? pm) eqn:G; [exact I|].
  unfold bounded. rewrite E. simpl fst. simpl snd. apply Z.ltb_ge. exact G.
Qed.

Lemma round_not_NaN neg p q : isNaN (round neg p q) = false.
Proof.
  unfold round.
  destruct (scale2 p q (Z.max (floor_log2 p q - 52) (-1074))) as [n d].
  destruct (if round_half_even n d =? 2 ^ 53
            then (2 ^ 52, Z.max (floor_log2 p q - 52) (-1074) + 1)
            else (round_half_even n d, Z.max (floor_log2 p q - 52) (-1074)))
    as [m e].
  destruct m as [|mp|mp]; try reflexivity.
  destruct (dyadic (Z.pos mp) e) as [pm qm].
  destruct (MAX_VALUE * qm <? pm); reflexivity.
Qed.

(** Whether a rounded value is finite does not depend on its sign. *)
Lemma round_finite_sign neg neg' p q :
  isFinite (round neg p q) = isFinite (round neg' p q).
Proof.
  unfold round.
  destruct (scale2 p q (Z.max (floor_log2 p q - 52) (-1074))) as [n d].
  destruct (if round_half_even n d =? 2 ^ 53
            then (2 ^ 52, Z.max (floor_log2 p q - 52) (-1074) + 1)
            else (round_half_even n d, Z.max (floor_log2 p q - 52) (-1074)))
    as [m e].
  destruct m as [|mp|mp]; try reflexivity.
  destruct (dyadic (Z.pos mp) e) as [pm qm].
  destruct (MAX_VALUE * qm <? pm); reflexivity.
Qed.

Lemma of_decimal_bounded neg d x : bounded (of_decimal neg d x).
Proof. unfold of_decimal. destruct (0 <=? x); apply round_bounded. Qed.

Lemma opp_bounded x : bounded x -> bounded (opp x).
Proof. destruct x; intros H; exact H. Qed.

Lemma add_bounded x y : bounded x -> bounded y -> bounded (add x y).
Proof.
  intros Hx Hy. destruct x as [|a|a|a m e], y as [|b|b|b m' e']; try exact I; auto.
  - simpl. destruct (Bool.eqb a b); exact I.
  - unfold add.
    destruct (_ =? 0); [exact I|].
    destruct (dyadic _ _). apply round_bounded.
Qed.

Lemma sub_bounded x y : bounded x -> bounded y -> bounded (sub x y).
Proof. intros Hx Hy. apply add_bounded; [exact Hx | apply opp_bounded, Hy]. Qed.

Lemma mul_bounded x y : bounded (mul x y).
Proof.
  destruct x as [|a|a|a m e], y as [|b|b|b m' e']; try exact I.
  unfold mul. destruct (dyadic _ _). apply round_bounded.
Qed.

Lemma div_bounded x y : bounded (div x y).
Proof.
  destruct x as [|a|a|a m e], y as [|b|b|b m' e']; try exact I.
  unfold div. destruct (scale2 _ _ _). apply round_bounded.
Qed.

(** ** A value within range rounds to a finite number *)

Lemma MAX_VALUE_eq : MAX_VALUE = (2 ^ 53 - 1) * 2 ^ 971.
Proof. reflexivity. Qed.

Lemma MAX_VALUE_lt : MAX_VALUE < 2 ^ 1024.
Proof. apply Z.ltb_lt. vm_compute. reflexivity. Qed.

Lemma MAX_VALUE_ge : 2 ^ 53 <= MAX_VALUE.
Proof. apply Z.leb_le. vm_compute. reflexivity. Qed.

#[local] Opaque MAX_VALUE.

Lemma pow2_pos (k : Z) : 0 <= k -> 0 < 2 ^ k.
Proof. intros H. apply Z.pow_pos_nonneg; lia. Qed.

Lemma pow2_ge_1 (k : Z) : 0 <= k -> 1 <= 2 ^ k.
Proof. intros H. pose proof (pow2_pos k H). lia. Qed.

Lemma pow2_split (a b : Z) : 0 <= a <= b -> 2 ^ b = 2 ^ (b - a) * 2 ^ a.
Proof. intros H. rewrite <- Z.pow_add_r by lia. f_equal. lia. Qed.

Lemma round_half_even_le (n d M : Z) :
  0 < d -> n <= M * d -> round_half_even n d <= M.
Proof.
  intros Hd Hn. unfold round_half_even.
  pose proof (Z.div_mod n d ltac:(lia)) as Hdm.
  pose proof (Z.mod_pos_bound n d Hd) as Hr.
  assert (Hq : n / d <= M).
  { apply Z.div_le_upper_bound; [exact Hd | lia]. }
  assert (Hstrict : n / d = M -> n mod d = 0) by nia.
  destruct (2 * (n mod d) <? d) eqn:E1; [exact Hq|].
  apply Z.ltb_ge in E1.
  assert (n / d <> M) by (intros E; apply Hstrict in E; lia).
  destruct (d <? 2 * (n mod d)); [lia|].
  destruct (Z.even (n / d)); lia.
Qed.

Lemma floor_log2_le (p q : Z) :
  0 < q -> 0 <= p -> p <= MAX_VALUE * q -> floor_log2 p q <= 1023.
Proof.
  intros Hq Hp Hmax. unfold floor_log2.
  set (l := Z.log2 p - Z.log2 q).
  destruct (scale2 p q l) as [n d] eqn:Es.
  destruct (Z.le_gt_cases l 1023) as [Hl | Hl].
  { destruct (d <=? n); lia. }
  pose proof MAX_VALUE_lt as HM.
  assert (Hp0 : 0 < p).
  { destruct (Z.eq_dec p 0) as [-> | ]; [|lia].
    unfold l in Hl. simpl in Hl. pose proof (Z.log2_nonneg q). lia. }
  destruct (d <=? n) eqn:E.
  - exfalso. apply Z.leb_le in E.
    unfold scale2 in Es. destruct (0 <=? l) eqn:E0; [|apply Z.leb_gt in E0; lia].
    injection Es as <- <-.
    assert (2 ^ 1024 <= 2 ^ l) by (apply Z.pow_le_mono_r; lia).
    assert (q * 2 ^ 1024 <= q * 2 ^ l) by (apply Z.mul_le_mono_nonneg_l; lia).
    nia.
  - destruct (Z.le_gt_cases l 1024) as [Hl' | Hl']; [lia|]. exfalso.
    pose proof (Z.log2_spec p Hp0) as [Hlp _].
    pose proof (Z.log2_spec q Hq) as [_ Hlq].
    pose proof (Z.log2_nonneg q) as Hq0.
    assert (E1 : Z.log2 p = (l - 1) + Z.succ (Z.log2 q)) by (unfold l; lia).
    rewrite E1, Z.pow_add_r in Hlp by lia.
    assert (2 ^ 1024 <= 2 ^ (l - 1)) by (apply Z.pow_le_mono_r; lia).
    pose proof (pow2_pos (l - 1) ltac:(lia)).
    pose proof (pow2_pos (Z.succ (Z.log2 q)) ltac:(lia)).
    nia.
Qed.

Lemma round_finite neg p q :
  0 < q -> 0 <= p -> p <= MAX_VALUE * q -> isFinite (round neg p q) = true.
Proof.
  intros Hq Hp Hmax. unfold round.
  pose proof (floor_log2_le p q Hq Hp Hmax) as HL.
  set (e := Z.max (floor_log2 p q - 52) (-1074)).
  assert (He : -1074 <= e <= 971) by (unfold e; lia).
  clearbody e.
  destruct (scale2 p q e) as [n d] eqn:Es.
  set (m0 := round_half_even n d).
  pose proof MAX_VALUE_ge as HM53.
  assert (HMpos : 0 < MAX_VALUE) by (pose proof (pow2_pos 53 ltac:(lia)); lia).
  (* the rounded significand, scaled back, stays within range *)
  assert (Hm0 : let '(pm, qm) := dyadic m0 e in pm <= MAX_VALUE * qm).
  { unfold dyadic, scale2 in *. destruct (0 <=? e) eqn:E0.
    - apply Z.leb_le in E0. injection Es as <- <-.
      assert (Hle : m0 <= (2 ^ 53 - 1) * 2 ^ (971 - e)).
      { apply round_half_even_le.
        - pose proof (pow2_pos e E0). nia.
        - rewrite MAX_VALUE_eq, (pow2_split e 971) in Hmax by lia. nia. }
      rewrite MAX_VALUE_eq, (pow2_split e 971) by lia.
      pose proof (pow2_pos e E0). nia.
    - apply Z.leb_gt in E0. injection Es as <- <-.
      apply round_half_even_le; [exact Hq|].
      pose proof (pow2_pos (- e) ltac:(lia)). nia. }
  destruct (m0 =? 2 ^ 53) eqn:E53.
  - (* renormalised *)
    change (2 ^ 52) with (Z.pos 4503599627370496).
    cbv iota beta.
    assert (Hc : Z.pos 4503599627370496 * 2 = 2 ^ 53) by reflexivity.
    apply Z.eqb_eq in E53. rewrite E53 in Hm0. clear E53.
    generalize dependent (Z.pos 4503599627370496). intros c Hc.
    destruct (dyadic c (e + 1)) as [pm qm] eqn:Ed.
    destruct (MAX_VALUE * qm <? pm) eqn:G; [|reflexivity].
    exfalso. apply Z.ltb_lt in G.
    unfold dyadic in *. destruct (0 <=? e) eqn:E0.
    + apply Z.leb_le in E0.
      destruct (0 <=? e + 1) eqn:E1; [|apply Z.leb_gt in E1; lia].
      injection Ed as <- <-.
      rewrite Z.pow_add_r in G by lia. change (2 ^ 1) with 2 in G. nia.
    + apply Z.leb_gt in E0.
      destruct (0 <=? e + 1) eqn:E1.
      * apply Z.leb_le in E1. assert (e = -1) by lia. subst e.
        injection Ed as <- <-. change (2 ^ (-1 + 1)) with 1 in G. lia.
      * apply Z.leb_gt in E1. injection Ed as <- <-.
        pose proof (pow2_ge_1 (- (e + 1)) ltac:(lia)). nia.
  - cbv iota beta. destruct m0 as [|mp|mp]; try reflexivity.
    destruct (dyadic (Z.pos mp) e) as [pm qm].
    destruct (MAX_VALUE * qm <? pm) eqn:G; [|reflexivity].
    apply Z.ltb_lt in G. lia.
Qed.

#[local] Transparent MAX_VALUE.

(** ** Digit strings *)

Lemma digit_char_spec (d : Z) :
  0 <= d <= 9 -> is_digit (digit_char d) = true /\ digit_value (digit_char d) = d.
Proof.
  intros H. unfold is_digit, digit_char, digit_value, chr. simpl N_of_ascii.
  split.
  - apply andb_true_iff. split; apply N.leb_le; lia.
  - lia.
Qed.

Lemma digit_value_range (c : code_unit) : is_digit c = true -> 0 <= digit_value c <= 9.
Proof.
  unfold is_digit, digit_value, chr. simpl N_of_ascii.
  rewrite andb_true_iff, !N.leb_le. lia.
Qed.

Definition digits_from (a : Z) (ds : jstring) : Z :=
  fold_left (fun a c => 10 * a + digit_value c) ds a.

Lemma digits_value_from (ds : jstring) : digits_value ds = digits_from 0 ds.
Proof. reflexivity. Qed.

Lemma digits_from_shift (ds : jstring) (a : Z) :
  digits_from a ds = a * 10 ^ Z.of_nat (List.length ds) + digits_from 0 ds.
Proof.
  revert a. induction ds as [|c ds IH]; intros a.
  - simpl. lia.
  - unfold digits_from in *. cbn [fold_left List.length].
    rewrite (IH (10 * a + digit_value c)), (IH (10 * 0 + digit_value c)).
    rewrite Nat2Z.inj_succ, Z.pow_succ_r by lia. ring.
Qed.

Lemma digits_value_app (a b : jstring) :
  digits_value (a ++ b)
  = digits_value a * 10 ^ Z.of_nat (List.length b) + digits_value b.
Proof.
  rewrite !digits_value_from. unfold digits_from at 1.
  rewrite fold_left_app. fold (digits_from 0 a).
  fold (digits_from (digits_from 0 a) b). apply digits_from_shift.
Qed.

Lemma digits_from_nonneg (ds : jstring) (a : Z) :
  0 <= a -> forallb is_digit ds = true -> 0 <= digits_from a ds.
Proof.
  revert a. induction ds as [|c ds IH]; intros a Ha H; [exact Ha|].
  simpl in H. apply andb_true_iff in H as [Hc Hds].
  unfold digits_from in *. cbn [fold_left].
  apply IH; [|exact Hds]. pose proof (digit_value_range _ Hc). lia.
Qed.

Lemma digits_value_nonneg (ds : jstring) :
  forallb is_digit ds = true -> 0 <= digits_value ds.
Proof. rewrite digits_value_from. apply digits_from_nonneg. lia. Qed.

Lemma digits_value_zeros (n : Z) : digits_value (zeros n) = 0.
Proof.
  unfold zeros. induction (Z.to_nat n) as [|k IH]; [reflexivity|].
  change (repeat (chr "0") (S k)) with ([chr "0"] ++ repeat (chr "0") k).
  rewrite digits_value_app, IH. reflexivity.
Qed.

Lemma zeros_digits (n : Z) : forallb is_digit (zeros n) = true.
Proof. unfold zeros. induction (Z.to_nat n) as [|k IH]; simpl; auto. Qed.

Lemma zeros_length (n : Z) : 0 <= n -> Z.of_nat (List.length (zeros n)) = n.
Proof. intros H. unfold zeros. rewrite repeat_length. lia. Qed.

(** The digits of a number: all digits, at least one, and they denote it. *)
Lemma digits_fuel_spec (fuel : nat) :
  forall n acc, 0 <= n ->
    exists ds, digits_fuel (S fuel) n acc = ds ++ acc
               /\ forallb is_digit ds = true
               /\ ds <> []
               /\ (n < 2 ^ Z.of_nat (S fuel) -> digits_value ds = n).
Proof.
  induction fuel as [|f IH]; intros n acc Hn.
  - cbn [digits_fuel].
    pose proof (Z.mod_pos_bound n 10 ltac:(lia)) as Hm.
    destruct (digit_char_spec (n mod 10) ltac:(lia)) as [Hd Hv].
    exists [digit_char (n mod 10)]. repeat split.
    + destruct (n / 10 =? 0); reflexivity.
    + simpl. rewrite Hd. reflexivity.
    + discriminate.
    + intros Hlt. change (2 ^ Z.of_nat 1) with 2 in Hlt.
      unfold digits_value, digits_value_base. simpl. rewrite Hv.
      rewrite Z.mod_small; lia.
  - remember (S f) as f1. cbn [digits_fuel].
    pose proof (Z.mod_pos_bound n 10 ltac:(lia)) as Hm.
    pose proof (Z.div_mod n 10 ltac:(lia)) as Hdm.
    destruct (digit_char_spec (n mod 10) ltac:(lia)) as [Hd Hv].
    destruct (n / 10 =? 0) eqn:E.
    + apply Z.eqb_eq in E.
      exists [digit_char (n mod 10)]. repeat split.
      * simpl. rewrite Hd. reflexivity.
      * discriminate.
      * intros _. unfold digits_value, digits_value_base. simpl. rewrite Hv. lia.
    + subst f1.
      destruct (IH (n / 10) (digit_char (n mod 10) :: acc)
                   ltac:(apply Z.div_pos; lia)) as (ds & Eds & Hds & Hne & Hval).
      exists (ds ++ [digit_char (n mod 10)]). repeat split.
      * rewrite Eds, <- app_assoc. reflexivity.
      * rewrite forallb_app, Hds. simpl. rewrite Hd. reflexivity.
      * destruct ds; discriminate.
      * intros Hlt. rewrite digits_value_app. simpl List.length.
        change (10 ^ Z.of_nat 1) with 10.
        rewrite Hval.
        -- unfold digits_value, digits_value_base. simpl. rewrite Hv. lia.
        -- rewrite Nat2Z.inj_succ, Z.pow_succ_r in Hlt by lia. lia.
Qed.

Lemma decimal_digits_spec (n : Z) :
  0 <= n ->
  forallb is_digit (decimal_digits n) = true
  /\ decimal_digits n <> []
  /\ digits_value (decimal_digits n) = n.
Proof.
  intros Hn. unfold decimal_digits.
  destruct (digits_fuel_spec (Z.to_nat (Z.log2 n)) n [] Hn) as (ds & E & Hds & Hne & Hv).
  rewrite E, app_nil_r. repeat split; auto.
  apply Hv. rewrite Nat2Z.inj_succ, Z2Nat.id by apply Z.log2_nonneg.
  destruct (Z.eq_dec n 0) as [-> | Hnz]; [reflexivity|].
  apply Z.log2_spec. lia.
Qed.

(** Scanning over a run of digits. *)
Lemma take_while_digits (ds r : jstring) :
  forallb is_digit ds = true ->
  take_while is_digit (ds ++ r) = ds ++ take_while is_digit r
  /\ drop_while is_digit (ds ++ r) = drop_while is_digit r.
Proof.
  induction ds as [|c ds IH]; intros H; [auto|].
  simpl in H. apply andb_true_iff in H as [Hc Hds].
  destruct (IH Hds) as [E1 E2]. simpl. rewrite Hc, E1, E2. auto.
Qed.

(** ** Reading back what Number::toString writes *)

(** What may follow the digits of a decimal literal: nothing, or a character
    that is neither a digit nor a point. *)
Definition ends_digits (t : jstring) : bool :=
  match t with
  | [] => true
  | c :: _ => negb (is_digit c) && negb (is_char "." c)
  end.

Lemma take_while_stop (t : jstring) :
  ends_digits t = true -> take_while is_digit t = [] /\ drop_while is_digit t = t.
Proof.
  destruct t as [|c t]; [auto|]. simpl. intros H.
  apply andb_true_iff in H as [H _]. apply negb_true_iff in H. rewrite H. auto.
Qed.

(** The scan of digits [I], an optional point with digits [F], and a tail. *)
Lemma scan_decimal_shape (I F t : jstring) (dot : bool) :
  forallb is_digit I = true -> forallb is_digit F = true ->
  (dot = false -> F = []) -> I ++ F <> [] -> ends_digits t = true ->
  scan_decimal (I ++ (if dot then chr "." :: F else []) ++ t)
  = let '(x, r3) := scan_exponent t in
    Some (digits_value (I ++ F), x - Z.of_nat (List.length F), r3).
Proof.
  intros HI HF Hdot Hne Ht. unfold scan_decimal.
  destruct (take_while_digits I ((if dot then chr "." :: F else []) ++ t) HI) as [E1 E2].
  rewrite E1, E2. clear E1 E2.
  destruct (take_while_stop t Ht) as [T1 T2].
  destruct (scan_exponent t) as [x r3] eqn:Ex.
  destruct dot.
  - cbn [app take_while drop_while].
    change (is_digit (chr ".")) with false. cbv iota.
    change (is_char "." (chr ".")) with true. cbv iota.
    destruct (take_while_digits F t HF) as [E1 E2]. rewrite E1, E2, T1, T2.
    rewrite !app_nil_r, Ex.
    destruct I as [|i I']; destruct F as [|f F']; try reflexivity.
    exfalso. apply Hne. reflexivity.
  - rewrite (Hdot eq_refl) in *. cbn [app]. rewrite T1, T2, !app_nil_r.
    rewrite app_nil_r in Hne.
    destruct I as [|i I']; [exfalso; apply Hne; reflexivity|].
    destruct t as [|c t']; [rewrite Ex, ?app_nil_r; reflexivity|].
    simpl in Ht. apply andb_true_iff in Ht as [_ Hc]. apply negb_true_iff in Hc.
    rewrite Hc, Ex, ?app_nil_r. reflexivity.
Qed.

Lemma scan_exponent_nil : scan_exponent [] = (0, []).
Proof. reflexivity. Qed.

(** An exponent part as [layout] writes it. *)
Lemma scan_exponent_layout (e : Z) :
  e <> 0 ->
  scan_exponent (chr "e" :: (if 0 <? e then chr "+" else chr "-")
                         :: decimal_digits (Z.abs e))
  = (e, []).
Proof.
  intros He.
  destruct (decimal_digits_spec (Z.abs e) ltac:(lia)) as (Hd & Hne & Hv).
  destruct (take_while_digits (decimal_digits (Z.abs e)) [] Hd) as [E1 E2].
  rewrite app_nil_r in E1, E2. simpl in E1, E2. rewrite app_nil_r in E1.
  unfold scan_exponent.
  change (is_char "e" (chr "e") || is_char "E" (chr "e")) with true. cbv iota.
  destruct (0 <? e) eqn:E.
  - apply Z.ltb_lt in E.
    change (is_char "+" (chr "+")) with true. cbv iota.
    rewrite E1, E2. destruct (decimal_digits (Z.abs e)); [congruence|].
    rewrite Hv. f_equal. lia.
  - apply Z.ltb_ge in E.
    change (is_char "+" (chr "-")) with false.
    change (is_char "-" (chr "-")) with true. cbv iota.
    rewrite E1, E2. destruct (decimal_digits (Z.abs e)); [congruence|].
    rewrite Hv. f_equal. lia.
Qed.

Lemma firstn_skipn_digits (n : nat) (ds : jstring) :
  forallb is_digit ds = true ->
  forallb is_digit (firstn n ds) = true /\ forallb is_digit (skipn n ds) = true.
Proof.
  intros H. rewrite <- (firstn_skipn n ds), forallb_app in H.
  apply andb_true_iff in H. exact H.
Qed.

(** The literal [layout] writes denotes the decimal it was given. *)
Lemma scan_decimal_layout (ds : jstring) (n : Z) :
  forallb is_digit ds = true -> ds <> [] ->
  exists D X,
    scan_decimal (layout ds n) = Some (D, X, [])
    /\ forall neg, of_decimal neg D X
                   = of_decimal neg (digits_value ds) (n - Z.of_nat (List.length ds)).
Proof.
  intros Hds Hne. unfold layout.
  set (k := Z.of_nat (List.length ds)).
  destruct ((k <=? n) && (n <=? 21)) eqn:C1.
  { (* digits and zeros *)
    apply andb_true_iff in C1 as [C1 _]. apply Z.leb_le in C1.
    exists (digits_value (ds ++ zeros (n - k))), 0. split.
    - assert (H1 : forallb is_digit (ds ++ zeros (n - k)) = true)
        by (rewrite forallb_app, Hds, zeros_digits; reflexivity).
      assert (H2 : (ds ++ zeros (n - k)) ++ [] <> [])
        by (destruct ds; [congruence | discriminate]).
      pose proof (scan_decimal_shape (ds ++ zeros (n - k)) [] [] false
                    H1 eq_refl (fun _ => eq_refl) H2 eq_refl) as H.
      cbn [app] in H. rewrite !app_nil_r in H. rewrite H. reflexivity.
    - intros neg. rewrite digits_value_app, digits_value_zeros, zeros_length by lia.
      unfold of_decimal. change (0 <=? 0) with true. cbv iota.
      destruct (0 <=? n - k) eqn:E; [|apply Z.leb_gt in E; lia].
      f_equal. change (10 ^ 0) with 1. ring. }
  destruct ((0 <? n) && (n <=? 21)) eqn:C2.
  { (* a point inside the digits *)
    apply andb_true_iff in C2 as [C2 C2']. apply Z.ltb_lt in C2. apply Z.leb_le in C2'.
    assert (Hnk : n < k).
    { apply andb_false_iff in C1 as [C1 | C1];
        [apply Z.leb_gt in C1; lia | apply Z.leb_gt in C1; lia]. }
    destruct (firstn_skipn_digits (Z.to_nat n) ds Hds) as [H1 H2].
    exists (digits_value ds), (- Z.of_nat (List.length (skipn (Z.to_nat n) ds))). split.
    - assert (H3 : firstn (Z.to_nat n) ds ++ skipn (Z.to_nat n) ds <> [])
        by (rewrite firstn_skipn; exact Hne).
      pose proof (scan_decimal_shape (firstn (Z.to_nat n) ds) (skipn (Z.to_nat n) ds)
                    [] true H1 H2 ltac:(discriminate) H3 eq_refl) as H.
      rewrite firstn_skipn, app_nil_r in H. cbn [app]. rewrite H. reflexivity.
    - intros neg. f_equal. rewrite length_skipn. unfold k. lia. }
  destruct ((-6 <? n) && (n <=? 0)) eqn:C3.
  { (* leading zeros *)
    apply andb_true_iff in C3 as [_ C3]. apply Z.leb_le in C3.
    exists (digits_value ds), (- Z.of_nat (List.length (zeros (- n) ++ ds))). split.
    - assert (H1 : forallb is_digit (zeros (- n) ++ ds) = true)
        by (rewrite forallb_app, Hds, zeros_digits; reflexivity).
      pose proof (scan_decimal_shape [chr "0"] (zeros (- n) ++ ds) [] true
                    eq_refl H1 ltac:(discriminate) ltac:(discriminate) eq_refl) as H.
      rewrite app_nil_r in H. change (js "0.") with ([chr "0"] ++ [chr "."]).
      rewrite <- app_assoc. cbn [app] in *. rewrite H.
      change (chr "0" :: zeros (- n) ++ ds) with ([chr "0"] ++ zeros (- n) ++ ds).
      rewrite !digits_value_app, digits_value_zeros. reflexivity.
    - intros neg. f_equal. rewrite length_app.
      pose proof (zeros_length (- n) ltac:(lia)). unfold k. lia. }
  (* exponent notation *)
  assert (Hn1 : n - 1 <> 0).
  { apply andb_false_iff in C2. apply andb_false_iff in C3.
    rewrite !Z.ltb_ge, !Z.leb_gt in *. lia. }
  destruct ds as [|d rest]; [congruence|].
  simpl in Hds. apply andb_true_iff in Hds as [Hd Hrest].
  assert (Hends : ends_digits (chr "e" :: (if 0 <? n - 1 then chr "+" else chr "-")
                                       :: decimal_digits (Z.abs (n - 1))) = true)
    by reflexivity.
  destruct rest as [|d2 rest'].
  - exists (digits_value [d]), (n - 1). split.
    + pose proof (scan_decimal_shape [d] [] _ false ltac:(simpl; rewrite Hd; reflexivity)
                    eq_refl ltac:(reflexivity) ltac:(discriminate) Hends) as H.
      cbn [app] in H. rewrite H, scan_exponent_layout by exact Hn1.
      change (Z.of_nat (List.length (@nil code_unit))) with 0.
      rewrite Z.sub_0_r. reflexivity.
    + intros neg. reflexivity.
  - exists (digits_value (d :: d2 :: rest')), (n - 1 - Z.of_nat (List.length (d2 :: rest'))).
    split.
    + pose proof (scan_decimal_shape [d] (d2 :: rest') _ true
                    ltac:(simpl; rewrite Hd; reflexivity)
                    Hrest ltac:(discriminate) ltac:(discriminate) Hends) as H.
      cbn [app] in H. cbn [app]. rewrite H, scan_exponent_layout by exact Hn1.
      reflexivity.
    + intros neg. f_equal; unfold k; cbn [List.length]; lia.
Qed.

(** The characters [Number::toString] writes for a finite number. *)
Definition is_numeral_char (c : code_unit) : bool :=
  is_digit c || is_char "." c || is_char "e" c || is_char "+" c || is_char "-" c.

Lemma digit_numeral_char (ds : jstring) :
  forallb is_digit ds = true -> forallb is_numeral_char ds = true.
Proof.
  apply forallb_weaken. intros c H. unfold is_numeral_char. rewrite H. reflexivity.
Qed.

Lemma layout_chars (ds : jstring) (n : Z) :
  forallb is_digit ds = true -> forallb is_numeral_char (layout ds n) = true.
Proof.
  intros Hds. unfold layout.
  destruct (firstn_skipn_digits (Z.to_nat n) ds Hds) as [H1 H2].
  pose proof (digit_numeral_char _ Hds) as Hn.
  destruct (_ && _).
  { rewrite forallb_app, Hn, (digit_numeral_char _ (zeros_digits _)). reflexivity. }
  destruct (_ && _).
  { rewrite !forallb_app, (digit_numeral_char _ H1), (digit_numeral_char _ H2).
    reflexivity. }
  destruct (_ && _).
  { change (js "0.") with [chr "0"; chr "."].
    change [chr "0"; chr "."] with ([chr "0"] ++ [chr "."]).
    rewrite !forallb_app, Hn, (digit_numeral_char _ (zeros_digits _)). reflexivity. }
  assert (He : forallb is_numeral_char
                 (chr "e" :: (if 0 <? n - 1 then chr "+" else chr "-")
                          :: decimal_digits (Z.abs (n - 1))) = true).
  { destruct (decimal_digits_spec (Z.abs (n - 1)) ltac:(lia)) as (Hd & _ & _).
    cbn [forallb]. rewrite (digit_numeral_char _ Hd).
    destruct (0 <? n - 1); reflexivity. }
  destruct ds as [|d [|d2 rest]]; [reflexivity | |].
  - cbn [forallb] in Hn |- *. apply andb_true_iff in Hn as [Hd _].
    rewrite Hd. exact He.
  - cbn [forallb] in Hn. apply andb_true_iff in Hn as [Hd Hrest].
    change (forallb is_numeral_char (d2 :: rest)) with
      (forallb is_numeral_char ([d2] ++ rest)) in Hrest.
    cbn [forallb]. rewrite Hd. cbn [andb].
    change (is_numeral_char (chr ".")) with true. cbn [andb].
    rewrite forallb_app. cbn [forallb] in Hrest. cbn [app forallb] in Hrest.
    apply andb_true_iff in Hrest as [Hd2 Hr]. cbn [forallb]. rewrite Hd2, Hr. exact He.
Qed.

Lemma layout_head (ds : jstring) (n : Z) :
  forallb is_digit ds = true -> ds <> [] ->
  exists c rest, layout ds n = c :: rest /\ is_digit c = true.
Proof.
  intros Hds Hne. unfold layout.
  destruct ds as [|d ds']; [congruence|].
  cbn [forallb] in Hds. apply andb_true_iff in Hds as [Hd Hds'].
  destruct ((Z.of_nat (List.length (d :: ds')) <=? n) && (n <=? 21)).
  { exists d. eexists. split; [reflexivity | exact Hd]. }
  destruct ((0 <? n) && (n <=? 21)) eqn:C2.
  { apply andb_true_iff in C2 as [C2 _]. apply Z.ltb_lt in C2.
    destruct (Z.to_nat n) as [|j] eqn:E; [lia|].
    exists d. eexists. split; [reflexivity | exact Hd]. }
  destruct ((-6 <? n) && (n <=? 0)).
  { exists (chr "0"). eexists. split; reflexivity. }
  destruct ds'; exists d; eexists; split; try reflexivity; exact Hd.
Qed.

Lemma numeral_char_facts (c : code_unit) :
  is_numeral_char c = true ->
  is_space c = false
  /\ (is_char "x" c || is_char "X" c) = false
  /\ (is_char "o" c || is_char "O" c) = false
  /\ (is_char "b" c || is_char "B" c) = false.
Proof.
  unfold is_numeral_char, is_digit, is_char, is_space, is_white_space,
    is_line_terminator, chr. simpl N_of_ascii.
  rewrite !orb_true_iff, !andb_true_iff, !N.eqb_eq, !N.leb_le.
  intros H.
  repeat split;
    repeat match goal with
           | |- (_ || _)%bool = false => apply orb_false_iff; split
           | |- (_ && _)%bool = false => apply andb_false_iff; left
           | |- N.eqb _ _ = false => apply N.eqb_neq
           | |- N.leb _ _ = false => apply N.leb_gt
           end; lia.
Qed.

Lemma numeral_no_space (t : jstring) :
  forallb is_numeral_char t = true -> no_space t = true.
Proof.
  unfold no_space. apply forallb_weaken. intros c H.
  destruct (numeral_char_facts c H) as [-> _]. reflexivity.
Qed.

Lemma trim_no_space (t : jstring) : no_space t = true -> trim t = t.
Proof.
  intros H. unfold trim, trimEnd, trimStart.
  rewrite (drop_while_no_space _ H), drop_while_no_space, rev_involutive; auto.
  unfold no_space. rewrite forallb_rev. exact H.
Qed.

Lemma scan_non_decimal_numeral (t : jstring) :
  forallb is_numeral_char t = true -> scan_non_decimal t = None.
Proof.
  intros H. destruct t as [|z [|b ds]]; try reflexivity.
  cbn [forallb] in H. apply andb_true_iff in H as [_ H].
  apply andb_true_iff in H as [Hb _].
  destruct (numeral_char_facts b Hb) as (_ & Hx & Ho & Hbb).
  unfold scan_non_decimal. rewrite Hx, Ho, Hbb. destruct (is_char "0" z); reflexivity.
Qed.

Lemma isNaN_of_decimal neg d x : isNaN (of_decimal neg d x) = false.
Proof. unfold of_decimal. destruct (0 <=? x); apply round_not_NaN. Qed.

Lemma of_decimal_finite_sign neg neg' d x :
  isFinite (of_decimal neg d x) = isFinite (of_decimal neg' d x).
Proof. unfold of_decimal. destruct (0 <=? x); apply round_finite_sign. Qed.

Lemma startsWith_head_differs (c p : code_unit) (rest prefix : jstring) :
  N.eqb c p = false -> startsWith (c :: rest) (p :: prefix) = false.
Proof.
  intros H.
  change (startsWith (c :: rest) (p :: prefix)) with (N.eqb c p && startsWith rest prefix).
  rewrite H. reflexivity.
Qed.

Lemma StringToNumber_decimal (t : jstring) (v : number) :
  t <> [] -> no_space t = true -> scan_non_decimal t = None ->
  scan_signed_decimal t = Some (v, []) -> StringToNumber t = v.
Proof.
  intros Hne Hsp Hnd Hs. unfold StringToNumber. rewrite (trim_no_space t Hsp).
  destruct t as [|c r]; [congruence|]. rewrite Hnd, Hs. reflexivity.
Qed.

(** The numeral written for the digits [ds] and the point position [n],
    with or without a minus sign, is read by [Number] and by [parseFloat] as
    the decimal it denotes. *)
Lemma read_numeral (neg : bool) (ds : jstring) (n : Z) :
  forallb is_digit ds = true -> ds <> [] ->
  let t := (if neg then [chr "-"] else []) ++ layout ds n in
  let v := of_decimal neg (digits_value ds) (n - Z.of_nat (List.length ds)) in
  StringToNumber t = v /\ parseFloat t = v.
Proof.
  intros Hds Hne t v.
  destruct (scan_decimal_layout ds n Hds Hne) as (D & X & Hscan & Hval).
  destruct (layout_head ds n Hds Hne) as (c & rest & Hl & Hc).
  pose proof (layout_chars ds n Hds) as Hchars.
  assert (Ht : forallb is_numeral_char t = true).
  { unfold t. rewrite forallb_app, Hchars. destruct neg; reflexivity. }
  assert (Hc' : is_char "+" c = false /\ is_char "-" c = false /\ N.eqb c (chr "I") = false).
  { revert Hc. unfold is_digit, is_char, chr. simpl N_of_ascii.
    rewrite andb_true_iff, !N.leb_le, !N.eqb_neq. lia. }
  destruct Hc' as (Hplus & Hminus & HI).
  assert (Hsigned : scan_signed_decimal t = Some (v, [])).
  { unfold scan_signed_decimal, t.
    assert (Hinf : startsWith (layout ds n) (js "Infinity") = false).
    { rewrite Hl. change (js "Infinity") with (chr "I" :: js "nfinity").
      apply startsWith_head_differs, HI. }
    destruct neg; cbn [app].
    - change (is_char "+" (chr "-")) with false.
      change (is_char "-" (chr "-")) with true. cbv iota.
      rewrite Hinf, Hscan. unfold v. rewrite Hval. reflexivity.
    - rewrite Hl, Hplus, Hminus, <- Hl, Hinf, Hscan. unfold v. rewrite Hval. reflexivity. }
  assert (Hnil : t <> []).
  { unfold t. rewrite Hl. destruct neg; discriminate. }
  split.
  - apply StringToNumber_decimal; auto using numeral_no_space, scan_non_decimal_numeral.
  - unfold parseFloat, trimStart.
    rewrite (drop_while_no_space t (numeral_no_space t Ht)), Hsigned. reflexivity.
Qed.

(** ** The digits chosen by Number::toString *)

Lemma number_eqb_eq (x y : number) : number_eqb x y = true -> x = y.
Proof.
  destruct x as [|a|a|a m e], y as [|b|b|b m' e']; simpl; try discriminate; auto.
  - intros H. apply eqb_prop in H. congruence.
  - intros H. apply eqb_prop in H. congruence.
  - intros H. apply andb_true_iff in H as [H He]. apply andb_true_iff in H as [Ha Hm].
    apply eqb_prop in Ha. apply Pos.eqb_eq in Hm. apply Z.eqb_eq in He. congruence.
Qed.

Lemma pow10_pos (k : Z) : 0 <= k -> 0 < 10 ^ k.
Proof. intros H. apply Z.pow_pos_nonneg; lia. Qed.

Lemma scale10_positive (p q x : Z) :
  0 <= p -> 0 < q -> 0 <= fst (scale10 p q x) /\ 0 < snd (scale10 p q x).
Proof.
  intros Hp Hq. unfold scale10. destruct (0 <=? x) eqn:E; cbn [fst snd].
  - apply Z.leb_le in E. pose proof (pow10_pos x E). split; nia.
  - apply Z.leb_gt in E. pose proof (pow10_pos (- x) ltac:(lia)). split; nia.
Qed.

(** A candidate is a non-negative significand whose decimal rounds to the
    target. *)
Lemma candidate_sound (target : number) (p q n k s x : Z) :
  0 <= p -> 0 < q ->
  candidate target p q n k = Some (s, x) ->
  0 <= s /\ of_decimal false s x = target.
Proof.
  intros Hp Hq. unfold candidate.
  destruct (scale10_positive p q (n - k) Hp Hq) as [Hnum Hden].
  destruct (scale10 p q (n - k)) as [num den]. simpl in Hnum, Hden.
  assert (Hdiv : 0 <= num / den) by (apply Z.div_pos; lia).
  assert (Hnorm : forall v, 0 <= v ->
            0 <= fst (if v =? 10 ^ k then (10 ^ (k - 1), n - k + 1) else (v, n - k))).
  { intros v Hv. destruct (v =? 10 ^ k); simpl; [apply Z.pow_nonneg; lia | exact Hv]. }
  set (lo := if num / den =? 10 ^ k then (10 ^ (k - 1), n - k + 1) else (num / den, n - k)).
  set (hi := if num / den + 1 =? 10 ^ k
             then (10 ^ (k - 1), n - k + 1) else (num / den + 1, n - k)).
  assert (Hlo : 0 <= fst lo) by (apply Hnorm; lia).
  assert (Hhi : 0 <= fst hi) by (apply Hnorm; lia).
  clearbody lo hi.
  destruct (number_eqb (of_decimal false (fst lo) (snd lo)) target) eqn:Elo;
    destruct (number_eqb (of_decimal false (fst hi) (snd hi)) target) eqn:Ehi;
    try discriminate;
    try apply number_eqb_eq in Elo; try apply number_eqb_eq in Ehi.
  - destruct (_ <? _); [|destruct (_ <? _); [|destruct (Z.even _)]];
      intros H; injection H as H; subst; simpl in *; auto.
  - intros H; injection H as H; subst; simpl in *; auto.
  - intros H; injection H as H; subst; simpl in *; auto.
Qed.

Lemma shortest_from_sound (fuel : nat) (target : number) (p q n : Z) :
  0 <= p -> 0 < q ->
  forall k s x,
    shortest_from fuel target p q n k = Some (s, x) ->
    0 <= s /\ of_decimal false s x = target.
Proof.
  intros Hp Hq. induction fuel as [|f IH]; intros k s x; simpl; [discriminate|].
  destruct (candidate target p q n k) as [[s' x']|] eqn:E.
  - intros H. injection H as -> ->. eapply candidate_sound; eauto.
  - apply IH.
Qed.

Lemma dyadic_positive (m : positive) (e : Z) :
  0 < fst (dyadic (Zpos m) e) /\ 0 < snd (dyadic (Zpos m) e).
Proof.
  unfold dyadic. destruct (0 <=? e) eqn:E; cbn [fst snd].
  - apply Z.leb_le in E. pose proof (pow2_pos e E). split; nia.
  - apply Z.leb_gt in E. pose proof (pow2_pos (- e) ltac:(lia)). split; lia.
Qed.

(** The decimal chosen for a number within range rounds to a finite number. *)
Lemma shortest_decimal_finite (neg : bool) (m : positive) (e : Z) :
  bounded (Finite neg m e) ->
  0 <= fst (shortest_decimal m e)
  /\ isFinite (of_decimal false (fst (shortest_decimal m e))
                 (snd (shortest_decimal m e))) = true.
Proof.
  intros Hb. unfold shortest_decimal.
  destruct (dyadic_positive m e) as [Hp Hq].
  unfold bounded in Hb.
  destruct (dyadic (Z.pos m) e) as [p q] eqn:Ed. cbn [fst snd] in Hp, Hq, Hb.
  destruct (shortest_from 17 (Finite false m e) p q (decimal_point p q) 1)
    as [[s x]|] eqn:Es.
  - destruct (shortest_from_sound 17 (Finite false m e) p q (decimal_point p q)
                ltac:(lia) Hq 1 s x Es) as [Hs Hv].
    simpl. rewrite Hv. auto.
  - clear Es. unfold exact_decimal, dyadic in *. destruct (0 <=? e) eqn:E.
    + apply Z.leb_le in E.
      assert (Hpq : p = Z.pos m * 2 ^ e /\ q = 1) by (split; congruence).
      destruct Hpq as [-> ->]. cbn [fst snd]. split; [lia|].
      unfold of_decimal. change (0 <=? 0) with true. cbv iota.
      apply round_finite; change (10 ^ 0) with 1; lia.
    + apply Z.leb_gt in E.
      assert (Hpq : p = Z.pos m /\ q = 2 ^ (- e)) by (split; congruence).
      destruct Hpq as [-> ->]. cbn [fst snd].
      pose proof (Z.pow_pos_nonneg 5 (- e) ltac:(lia) ltac:(lia)) as H5.
      split; [lia|].
      unfold of_decimal. rewrite (proj2 (Z.leb_gt 0 e) E).
      apply round_finite; [apply pow10_pos; lia | lia |].
      change 10 with (2 * 5). rewrite Z.pow_mul_l. nia.
Qed.

(** A finite number within range is written as a numeral that [Number] and
    [parseFloat] read as a finite number. *)
Theorem Number_toString_parses (x : number) :
  isFinite x = true -> bounded x ->
  parses_as_finite_number (Number_toString x) = true.
Proof.
  intros Hf Hb. destruct x as [|s|s|neg m e]; try discriminate.
  - vm_compute. reflexivity.
  - destruct (shortest_decimal_finite neg m e Hb) as [Hs Hfin].
    unfold Number_toString.
    destruct (shortest_decimal m e) as [d x]. simpl in Hs, Hfin.
    destruct (decimal_digits_spec d Hs) as (Hds & Hne & Hv).
    destruct (read_numeral neg (decimal_digits d)
                (Z.of_nat (List.length (decimal_digits d)) + x) Hds Hne) as [HN HP].
    unfold parses_as_finite_number. rewrite HN, HP, Hv.
    replace (Z.of_nat (List.length (decimal_digits d)) + x
             - Z.of_nat (List.length (decimal_digits d))) with x by lia.
    rewrite isNaN_of_decimal, (of_decimal_finite_sign neg false), Hfin. reflexivity.
Qed.

(** ** The values of the evaluator stay in range *)

Definition value_bounded (v : value) : Prop :=
  match v with VNumber x => bounded x | _ => True end.

Lemma scan_signed_decimal_bounded (t rest : jstring) (v : number) :
  scan_signed_decimal t = Some (v, rest) -> bounded v.
Proof.
  unfold scan_signed_decimal.
  destruct (match t with
            | [] => (false, t)
            | c :: r' => if is_char "+" c then (false, r')
                         else if is_char "-" c then (true, r') else (false, t)
            end) as [neg r].
  destruct (startsWith r (js "Infinity")).
  - intros H. injection H as <- _. exact I.
  - destruct (scan_decimal r) as [[[d x] rest']|]; [|discriminate].
    intros H. injection H as <- _. apply of_decimal_bounded.
Qed.

Lemma StringToNumber_bounded (s : jstring) : bounded (StringToNumber s).
Proof.
  unfold StringToNumber. destruct (trim s) as [|c t]; [exact I|].
  destruct (scan_non_decimal (c :: t)) as [[v|]|]; [apply round_bounded | exact I |].
  destruct (scan_signed_decimal (c :: t)) as [[v [|? ?]]|] eqn:E; try exact I.
  eapply scan_signed_decimal_bounded, E.
Qed.

Lemma ToNumber_bounded (v : value) : value_bounded v -> bounded (Script.ToNumber v).
Proof.
  destruct v; intros H; try exact I; try exact H; apply StringToNumber_bounded.
Qed.

Lemma apply_binary_bounded op (l r : value) :
  value_bounded l -> value_bounded r -> value_bounded (Script.apply_binary op l r).
Proof.
  intros Hl Hr. destruct op; unfold Script.apply_binary.
  - destruct (_ || _); [exact I|].
    apply add_bounded; apply ToNumber_bounded.
    + destruct l; try exact I; exact Hl.
    + destruct r; try exact I; exact Hr.
  - apply sub_bounded; apply ToNumber_bounded; assumption.
  - apply mul_bounded.
  - apply div_bounded.
Qed.

Lemma eval_bounded (e : Script.expr) (v : value) :
  Script.eval e = Return v -> value_bounded v.
Proof.
  revert v. induction e as [d x | body | op e IH | op l IHl r IHr | f IHf | f IHf a IHa];
    intros v; cbn [Script.eval].
  - intros H. injection H as <-. apply of_decimal_bounded.
  - intros H. injection H as <-. exact I.
  - destruct op; destruct (Script.eval e) as [v1|]; simpl; try discriminate;
      intros H; injection H as <-.
    + apply ToNumber_bounded, IH. reflexivity.
    + apply opp_bounded, ToNumber_bounded, IH. reflexivity.
  - destruct (Script.eval l) as [lv|]; simpl; [|discriminate].
    destruct (Script.eval r) as [rv|]; simpl; [|discriminate].
    intros H. injection H as <-. apply apply_binary_bounded; auto.
  - destruct (Script.eval f); simpl; discriminate.
  - destruct (Script.eval f); simpl; [|discriminate].
    destruct (Script.eval a); simpl; discriminate.
Qed.

Lemma run_return_bounded (s : jstring) (v : value) :
  Script.run_return s = Return v -> value_bounded v.
Proof.
  unfold Script.run_return. destruct (Script.compile s) as [[e|]|]; try discriminate.
  - apply eval_bounded.
  - intros H. injection H as <-. exact I.
Qed.

(** A text that starts with ERROR: does not pass the numeric test. *)
Lemma error_text_not_number (r : jstring) :
  startsWith r ERROR_prefix = true -> parses_as_finite_number r = false.
Proof.
  destruct r as [|c r]; [discriminate|].
  change (startsWith (c :: r) ERROR_prefix)
    with (N.eqb c (chr "E") && startsWith r (js "RROR:")).
  intros H. apply andb_true_iff in H as [H _]. apply N.eqb_eq in H. subst c.
  unfold parses_as_finite_number, parseFloat, trimStart.
  change (drop_while is_space (chr "E" :: r)) with (chr "E" :: r).
  unfold scan_signed_decimal.
  change (is_char "+" (chr "E")) with false. change (is_char "-" (chr "E")) with false.
  cbv iota.
  change (js "Infinity") with (chr "I" :: js "nfinity").
  rewrite (startsWith_head_differs (chr "E") (chr "I") r (js "nfinity") eq_refl).
  reflexivity.
Qed.

Definition error_messages : list jstring :=
  [INVALID_CHARACTERS; INVALID_SEQUENCE; INVALID_NUMBER; INVALID_EXPRESSION].

(** ** What the local evaluator returns *)

Lemma local_calculateExpression_returns (s : jstring) :
  exists r, LocalService.calculateExpression s = Return r /\ r <> [].
Proof.
  unfold LocalService.calculateExpression.
  destruct (calculateExpression_program_cases s)
    as [[_ ->] | [(_ & _ & ->) | (Hall & Hrun & k & -> & Hthrow & Hret)]];
    try (eexists; split; [reflexivity | discriminate]).
  unfold run. rewrite call_new_Function_return.
  destruct (Script.run_return s) as [v | e] eqn:Ev;
    [|rewrite Hthrow; eexists; split; [reflexivity | discriminate]].
  rewrite Hret.
  destruct v as [| x | |]; try (eexists; split; [reflexivity | discriminate]).
  destruct (isFinite x) eqn:Hf; [|eexists; split; [reflexivity | discriminate]].
  exists (Number_toString x). split; [reflexivity|]. intros E.
  pose proof (Number_toString_parses x Hf (run_return_bounded s _ Ev)) as Hp.
  rewrite E in Hp. discriminate Hp.
Qed.

(** X1: for every input the local evaluator returns normally, and what it
    returns is one of its four error messages or the numeral of a finite
    number; such a numeral is not empty, does not start with ERROR: and passes
    the numeric test of the remote evaluator. *)
Theorem local_calculateExpression_total :
  forall s,
    exists r,
      LocalService.calculateExpression s = Return r
      /\ r <> []
      /\ (In r error_messages
          \/ (exists x, isFinite x = true /\ r = Number_toString x)
             /\ parses_as_finite_number r = true
             /\ startsWith r ERROR_prefix = false).
Proof.
  intros s.
  assert (Herr : forall m, In m error_messages ->
            exists r, Return m = Return r /\ r <> []
                      /\ (In r error_messages
                          \/ (exists x, isFinite x = true /\ r = Number_toString x)
                             /\ parses_as_finite_number r = true
                             /\ startsWith r ERROR_prefix = false)).
  { intros m Hm. exists m. split; [reflexivity|]. split; [|left; exact Hm].
    unfold error_messages in Hm. simpl in Hm.
    destruct Hm as [<- | [<- | [<- | [<- | []]]]]; discriminate. }
  unfold LocalService.calculateExpression.
  destruct (calculateExpression_program_cases s)
    as [[_ ->] | [(_ & _ & ->) | (Hall & Hrun & k & -> & Hthrow & Hret)]].
  - apply Herr. simpl. auto.
  - apply Herr. simpl. auto.
  - unfold run. rewrite call_new_Function_return.
    destruct (Script.run_return s) as [v | e] eqn:Ev.
    + rewrite Hret. destruct v as [| x | |]; try (apply Herr; simpl; auto).
      destruct (isFinite x) eqn:Hf; [|apply Herr; simpl; auto].
      pose proof (run_return_bounded s _ Ev) as Hb. simpl in Hb.
      pose proof (Number_toString_parses x Hf Hb) as Hp.
      exists (Number_toString x). split; [reflexivity|].
      assert (Hne : startsWith (Number_toString x) ERROR_prefix = false).
      { destruct (startsWith (Number_toString x) ERROR_prefix) eqn:E; [|reflexivity].
        apply error_text_not_number in E. congruence. }
      split.
      * intros E. rewrite E in Hp. discriminate.
      * right. split; [exists x; auto | auto].
    + rewrite Hthrow. apply Herr. simpl. auto.
Qed.

(** ** Blank input *)

Lemma space_allowed (c : code_unit) : is_space c = true -> is_allowed_char c = true.
Proof. unfold is_allowed_char. intros ->. apply orb_true_r. Qed.

Lemma space_not_operator (c : code_unit) : is_space c = true -> is_operator c = false.
Proof.
  unfold is_operator, is_char, is_space, is_white_space, is_line_terminator, chr.
  simpl N_of_ascii.
  rewrite !orb_true_iff, !andb_true_iff, !N.eqb_eq, !N.leb_le. intros H.
  repeat match goal with
         | |- (_ || _)%bool = false => apply orb_false_iff; split
         | |- N.eqb _ _ = false => apply N.eqb_neq
         end; lia.
Qed.

Lemma blank_no_operator_run (s : jstring) :
  forallb is_space s = true -> has_operator_run s = false.
Proof.
  induction s as [|a s IH]; [reflexivity|]. intros H.
  cbn [forallb] in H. apply andb_true_iff in H as [Ha Hs].
  destruct s as [|b s']; [reflexivity|].
  change (has_operator_run (a :: b :: s'))
    with ((is_operator a && is_operator b) || has_operator_run (b :: s')).
  rewrite (space_not_operator a Ha), (IH Hs). reflexivity.
Qed.

Lemma lex_blank (s : jstring) :
  forallb is_space s = true ->
  forall fuel nl operand,
    (List.length s < fuel)%nat -> Script.lex fuel s nl operand = Some [].
Proof.
  induction s as [|c s IH]; intros H fuel nl operand Hf.
  - destruct fuel; [inversion Hf | reflexivity].
  - destruct fuel as [|f]; [inversion Hf|].
    cbn [forallb] in H. apply andb_true_iff in H as [Hc Hs].
    cbn [Script.lex]. unfold is_space in Hc.
    destruct (is_line_terminator c).
    + apply IH; [exact Hs | simpl in Hf; lia].
    + rewrite orb_false_r in Hc. rewrite Hc. apply IH; [exact Hs | simpl in Hf; lia].
Qed.

(** X3: a text of white space only (the empty text included) compiles to a bare
    [return]: the call gives [undefined], and the local evaluator answers
    "ERROR: Calculation resulted in an invalid number.", not the message for
    an unrecognized expression. *)
Theorem local_calculateExpression_blank :
  forall s,
    forallb is_space s = true ->
    Script.compile s = Some None
    /\ LocalService.calculateExpression s = Return INVALID_NUMBER.
Proof.
  intros s Hs.
  assert (Hall : forallb is_allowed_char s = true)
    by (eapply forallb_weaken; [apply space_allowed | exact Hs]).
  pose proof (blank_no_operator_run s Hs) as Hrun.
  assert (Hc : Script.compile s = Some None).
  { unfold Script.compile, Script.tokens. rewrite Hall, Hrun. cbn [negb andb].
    rewrite (lex_blank s Hs); [reflexivity | lia]. }
  split; [exact Hc|].
  rewrite (calculateExpression_guarded s Hall Hrun).
  unfold Script.run_return. rewrite Hc. reflexivity.
Qed.

Lemma local_calculateExpression_blank_witness :
  LocalService.calculateExpression (js "   ") = Return INVALID_NUMBER.
Proof. exact (proj2 (local_calculateExpression_blank (js "   ") eq_refl)). Defined.

(** ** Trimming *)

Lemma drop_while_idempotent (p : code_unit -> bool) (s : jstring) :
  drop_while p (drop_while p s) = drop_while p s.
Proof.
  induction s as [|c s IH]; [reflexivity|]. simpl.
  destruct (p c) eqn:E; [exact IH|]. simpl. rewrite E. reflexivity.
Qed.

Lemma drop_while_suffix (p : code_unit -> bool) (s : jstring) :
  exists pre, s = pre ++ drop_while p s.
Proof.
  induction s as [|c s [pre IH]]; [exists []; reflexivity|]. simpl.
  destruct (p c); [exists (c :: pre); simpl; congruence | exists []; reflexivity].
Qed.

Lemma drop_while_head (p : code_unit -> bool) (s : jstring) :
  match drop_while p s with [] => True | c :: _ => p c = false end.
Proof.
  induction s as [|c s IH]; [exact I|]. simpl.
  destruct (p c) eqn:E; [exact IH | exact E].
Qed.

Lemma trim_idempotent (s : jstring) : trim (trim s) = trim s.
Proof.
  unfold trim, trimEnd, trimStart.
  set (u := drop_while is_space s).
  set (w := rev (drop_while is_space (rev u))).
  assert (Hw : drop_while is_space w = w).
  { destruct (drop_while_suffix is_space (rev u)) as [pre Hpre].
    assert (Hu : u = w ++ rev pre).
    { unfold w. rewrite <- rev_app_distr, <- Hpre, rev_involutive. reflexivity. }
    pose proof (drop_while_head is_space s) as Hh. fold u in Hh.
    destruct w as [|c w']; [reflexivity|].
    rewrite Hu in Hh. simpl in Hh. simpl. rewrite Hh. reflexivity. }
  rewrite Hw. unfold w. rewrite rev_involutive, drop_while_idempotent. reflexivity.
Qed.

Lemma trim_blank (s : jstring) : forallb is_space s = true -> trim s = [].
Proof.
  intros H. unfold trim, trimEnd, trimStart.
  assert (E : drop_while is_space s = []).
  { induction s as [|c s IH]; [reflexivity|].
    cbn [forallb] in H. apply andb_true_iff in H as [Hc Hs].
    simpl. rewrite Hc. apply IH, Hs. }
  rewrite E. reflexivity.
Qed.

(** ** The remote evaluator, for every answer *)

Definition COMMUNICATION_FAILED_CALCULATION : jstring :=
  js "ERROR: Failed to communicate with the AI model for calculation.".
Definition COMMUNICATION_FAILED_EXTRACTION : jstring :=
  js "ERROR: Failed to communicate with the AI model for extraction.".
Definition INVALID_FORMAT : jstring :=
  js "ERROR: AI returned an invalid numerical format.".

Lemma remote_calculateExpression_cases gc cp expression :
  (exists raw,
      gc (GeminiService.calculation_request cp expression) = Return {| text := Some raw |}
      /\ GeminiService.calculateExpression gc cp expression
         = Return (if parses_as_finite_number (trim raw) then trim raw
                   else if startsWith (trim raw) ERROR_prefix then trim raw
                   else INVALID_FORMAT))
  \/ ((gc (GeminiService.calculation_request cp expression) = Return {| text := None |}
       \/ exists e, gc (GeminiService.calculation_request cp expression) = Throw e)
      /\ GeminiService.calculateExpression gc cp expression
         = Return COMMUNICATION_FAILED_CALCULATION).
Proof.
  unfold GeminiService.calculateExpression.
  destruct (gc _) as [[[raw|]]|e]; simpl.
  - left. exists raw. split; [reflexivity|]. fold (parses_as_finite_number (trim raw)).
    destruct (parses_as_finite_number (trim raw)); [reflexivity|].
    destruct (startsWith (trim raw) ERROR_prefix); reflexivity.
  - right. split; [left|]; reflexivity.
  - right. split; [right; exists e|]; reflexivity.
Qed.

(** X5: whatever the model client does, the remote evaluator returns normally.
    A result that does not start with ERROR: passes the numeric test and has
    no white space around it; a result that starts with ERROR: does not pass
    the test, so the caller's prefix check separates the two. *)
Theorem remote_calculateExpression_total :
  forall gc cp expression,
    exists r,
      GeminiService.calculateExpression gc cp expression = Return r
      /\ (startsWith r ERROR_prefix = false ->
          parses_as_finite_number r = true /\ trim r = r)
      /\ (startsWith r ERROR_prefix = true -> parses_as_finite_number r = false).
Proof.
  intros gc cp expression.
  destruct (remote_calculateExpression_cases gc cp expression)
    as [(raw & _ & ->) | (_ & ->)].
  - eexists. split; [reflexivity|]. split; [|apply error_text_not_number].
    destruct (parses_as_finite_number (trim raw)) eqn:Hp.
    + intros _. split; [exact Hp | apply trim_idempotent].
    + destruct (startsWith (trim raw) ERROR_prefix) eqn:He; [congruence | discriminate].
  - eexists. split; [reflexivity|]. split; [discriminate | apply error_text_not_number].
Qed.

(** X6: when the request is rejected, or the response carries no text, the
    remote evaluator returns its communication failure message; a blank
    answer is refused as a number although [Number] reads it as 0. *)
Theorem remote_calculateExpression_no_answer :
  forall gc cp expression,
    ((gc (GeminiService.calculation_request cp expression) = Return {| text := None |}
      \/ exists e, gc (GeminiService.calculation_request cp expression) = Throw e) ->
     GeminiService.calculateExpression gc cp expression
     = Return COMMUNICATION_FAILED_CALCULATION)
    /\
    (forall raw,
        gc (GeminiService.calculation_request cp expression) = Return {| text := Some raw |} ->
        forallb is_space raw = true ->
        StringToNumber raw = Zero false
        /\ GeminiService.calculateExpression gc cp expression = Return INVALID_FORMAT).
Proof.
  intros gc cp expression. split.
  - intros H.
    destruct (remote_calculateExpression_cases gc cp expression)
      as [(raw & Hraw & _) | (_ & ->)]; [|reflexivity].
    destruct H as [H | [e H]]; congruence.
  - intros raw Hraw Hblank.
    pose proof (trim_blank raw Hblank) as Ht. split.
    + unfold StringToNumber. rewrite Ht. reflexivity.
    + destruct (remote_calculateExpression_cases gc cp expression)
        as [(raw' & Hraw' & ->) | ([H | [e H]] & _)]; try congruence.
      assert (raw' = raw) by congruence. subst raw'. rewrite Ht. reflexivity.
Qed.

Lemma remote_calculateExpression_no_answer_witness :
  GeminiService.calculateExpression (fun _ => Throw RequestFailed) (fun e => e) (js "1+1")
  = Return COMMUNICATION_FAILED_CALCULATION
  /\ GeminiService.calculateExpression
       (fun _ => Return {| text := Some (js "  ") |}) (fun e => e) (js "1+1")
     = Return INVALID_FORMAT.
Proof.
  split.
  - apply (proj1 (remote_calculateExpression_no_answer
                    (fun _ => Throw RequestFailed) (fun e => e) (js "1+1"))).
    right. exists RequestFailed. reflexivity.
  - apply (proj2 (remote_calculateExpression_no_answer
                    (fun _ => Return {| text := Some (js "  ") |}) (fun e => e) (js "1+1"))
                 (js "  ") eq_refl eq_refl).
Defined.

(** ** The extractors, for every answer *)

Lemma local_extract_returns gc p img mime :
  exists r, LocalService.extractExpressionFromImage gc p img mime = Return r.
Proof.
  destruct (local_extract_cases gc p img mime) as [[raw H] | H].
  - rewrite (local_extract_resolved _ _ _ _ _ H). eauto.
  - rewrite H. eauto.
Qed.

(** X7: whatever the model client does, each extractor returns normally; when
    the request is rejected or the response carries no text, the result is the
    communication failure message. *)
Theorem extract_communication_failure :
  forall gc p img mime,
    (exists r, GeminiService.extractExpressionFromImage gc p img mime = Return r)
    /\ (exists r, LocalService.extractExpressionFromImage gc p img mime = Return r)
    /\ ((gc (GeminiService.extraction_request p img mime) = Return {| text := None |}
         \/ exists e, gc (GeminiService.extraction_request p img mime) = Throw e) ->
        GeminiService.extractExpressionFromImage gc p img mime
        = Return COMMUNICATION_FAILED_EXTRACTION)
    /\ ((gc (LocalService.extraction_request p img mime) = Return {| text := None |}
         \/ exists e, gc (LocalService.extraction_request p img mime) = Throw e) ->
        LocalService.extractExpressionFromImage gc p img mime
        = Return COMMUNICATION_FAILED_EXTRACTION).
Proof.
  intros gc p img mime. repeat split.
  - destruct (gemini_extract_cases gc p img mime) as [[raw H] | H].
    + rewrite (gemini_extract_resolved _ _ _ _ _ H). eauto.
    + rewrite H. eauto.
  - apply local_extract_returns.
  - intros H. destruct (gemini_extract_cases gc p img mime) as [[raw Hraw] | Hf];
      [|exact Hf]. destruct H as [H | [e H]]; congruence.
  - intros H. destruct (local_extract_cases gc p img mime) as [[raw Hraw] | Hf];
      [|exact Hf]. destruct H as [H | [e H]]; congruence.
Qed.

Lemma extract_communication_failure_witness :
  LocalService.extractExpressionFromImage (fun _ => Return {| text := None |}) [] [] []
  = Return COMMUNICATION_FAILED_EXTRACTION.
Proof.
  apply (proj2 (proj2 (proj2 (extract_communication_failure
                                (fun _ => Return {| text := None |}) [] [] [])))).
  left. reflexivity.
Defined.

(** ** Each error message of the local evaluator has one cause *)

Lemma number_text_not_error (x : number) :
  isFinite x = true -> bounded x -> startsWith (Number_toString x) ERROR_prefix = false.
Proof.
  intros Hf Hb.
  destruct (startsWith (Number_toString x) ERROR_prefix) eqn:E; [|reflexivity].
  apply error_text_not_number in E.
  rewrite (Number_toString_parses x Hf Hb) in E. discriminate.
Qed.

(** A text of the alphabet is never refused for its characters. *)
Lemma allowed_not_invalid_characters (s : jstring) :
  forallb is_allowed_char s = true ->
  LocalService.calculateExpression s <> Return INVALID_CHARACTERS.
Proof.
  intros Hall E. destruct (has_operator_run s) eqn:Hrun.
  - unfold LocalService.calculateExpression in E.
    destruct (calculateExpression_program_cases s)
      as [[H _] | [(_ & _ & Hp) | (_ & H & _)]]; [congruence | | congruence].
    rewrite Hp in E. discriminate E.
  - rewrite (calculateExpression_guarded s Hall Hrun) in E.
    destruct (Script.run_return s) as [v | e] eqn:Ev; [|discriminate E].
    destruct v as [| x | |]; try discriminate E.
    destruct (isFinite x) eqn:Hf; [|discriminate E].
    injection E as E.
    pose proof (number_text_not_error x Hf (run_return_bounded s _ Ev)) as Hx.
    rewrite E in Hx. discriminate Hx.
Qed.

(** X2: the four error messages of the local evaluator are told apart by their
    causes: a character outside the alphabet; adjacent operator characters in
    a text of the alphabet; a text past both guards that does not compile or
    whose evaluation throws; a text past both guards whose value is not a
    finite number. *)
Theorem local_error_message_cause :
  forall s,
    (LocalService.calculateExpression s = Return INVALID_CHARACTERS
     <-> forallb is_allowed_char s = false)
    /\ (LocalService.calculateExpression s = Return INVALID_SEQUENCE
        <-> forallb is_allowed_char s = true /\ has_operator_run s = true)
    /\ (LocalService.calculateExpression s = Return INVALID_EXPRESSION
        <-> forallb is_allowed_char s = true /\ has_operator_run s = false
            /\ exists e, Script.run_return s = Throw e)
    /\ (LocalService.calculateExpression s = Return INVALID_NUMBER
        <-> forallb is_allowed_char s = true /\ has_operator_run s = false
            /\ exists v, Script.run_return s = Return v
                         /\ match v with VNumber x => isFinite x = false | _ => True end).
Proof.
  intros s.
  destruct (forallb is_allowed_char s) eqn:Hall.
  2:{ assert (E : LocalService.calculateExpression s = Return INVALID_CHARACTERS).
      { unfold LocalService.calculateExpression.
        destruct (calculateExpression_program_cases s)
          as [[_ ->] | [(H & _) | (H & _)]]; [reflexivity | congruence | congruence]. }
      rewrite E. split; [|split; [|split]].
      - split; intros _; reflexivity.
      - split; [intros H; discriminate H | intros [H _]; discriminate H].
      - split; [intros H; discriminate H | intros [H _]; discriminate H].
      - split; [intros H; discriminate H | intros [H _]; discriminate H]. }
  destruct (has_operator_run s) eqn:Hrun.
  { assert (E : LocalService.calculateExpression s = Return INVALID_SEQUENCE).
    { unfold LocalService.calculateExpression.
      destruct (calculateExpression_program_cases s)
        as [[H _] | [(_ & _ & ->) | (_ & H & _)]]; [congruence | reflexivity | congruence]. }
    rewrite E. split; [|split; [|split]].
    - split; intros H; discriminate H.
    - split; [intros _; split; reflexivity | intros _; reflexivity].
    - split; [intros H; discriminate H | intros (_ & H & _); discriminate H].
    - split; [intros H; discriminate H | intros (_ & H & _); discriminate H]. }
  rewrite (calculateExpression_guarded s Hall Hrun).
  destruct (Script.run_return s) as [v | e] eqn:Ev.
  - assert (Hcase :
      (exists x, v = VNumber x /\ isFinite x = true
                 /\ startsWith (Number_toString x) ERROR_prefix = false)
      \/ (match v with
           | VNumber x => if isFinite x then Return (Number_toString x)
                          else Return INVALID_NUMBER
           | _ => Return INVALID_NUMBER
           end = Return INVALID_NUMBER
           /\ match v with VNumber x => isFinite x = false | _ => True end)).
    { destruct v as [| x | t | t]; try (right; split; [reflexivity | exact I]).
      destruct (isFinite x) eqn:Hf; [left | right; split; reflexivity].
      exists x. split; [reflexivity|]. split; [exact Hf|].
      apply number_text_not_error; [exact Hf | exact (run_return_bounded s _ Ev)]. }
    destruct Hcase as [(x & -> & Hf & Hx) | [-> Hnf]].
    + rewrite Hf.
      assert (Hdiff : forall m, startsWith m ERROR_prefix = true ->
                Return (Number_toString x) = Return m -> False).
      { intros m Hm H. injection H as H. rewrite H in Hx. congruence. }
      split; [|split; [|split]].
      * split; [intros H; exfalso; revert H; apply Hdiff; reflexivity
               | intros H; discriminate H].
      * split; [intros H; exfalso; revert H; apply Hdiff; reflexivity
               | intros [_ H]; discriminate H].
      * split; [intros H; exfalso; revert H; apply Hdiff; reflexivity
               | intros (_ & _ & e & H); discriminate H].
      * split; [intros H; exfalso; revert H; apply Hdiff; reflexivity|].
        intros (_ & _ & v & Hv & Hnf). injection Hv as <-. congruence.
    + split; [|split; [|split]].
      * split; intros H; discriminate H.
      * split; [intros H; discriminate H | intros [_ H]; discriminate H].
      * split; [intros H; discriminate H | intros (_ & _ & e & H); discriminate H].
      * split; [intros _ | intros _; reflexivity].
        split; [reflexivity|]. split; [reflexivity|]. exists v. auto.
  - split; [|split; [|split]].
    + split; intros H; discriminate H.
    + split; [intros H; discriminate H | intros [_ H]; discriminate H].
    + split; [intros _ | intros _; reflexivity].
      split; [reflexivity|]. split; [reflexivity|]. exists e. reflexivity.
    + split; [intros H; discriminate H | intros (_ & _ & v & H & _); discriminate H].
Qed.

(** ** From extraction to evaluation *)

Lemma existsb_keep_class (p q : code_unit -> bool) (s : jstring) :
  (forall c, p c = true -> q c = true) ->
  existsb p s = true -> existsb p (keep_class q s) = true.
Proof.
  intros Hpq. unfold keep_class. induction s as [|c s IH]; [discriminate|].
  simpl. intros H. apply orb_true_iff in H as [H | H].
  - rewrite (Hpq c H). simpl. rewrite H. reflexivity.
  - destruct (q c); simpl; rewrite (IH H); auto using orb_true_r.
Qed.

Lemma digit_expression_char (c : code_unit) :
  is_digit c = true -> is_expression_char c = true.
Proof. unfold is_expression_char. intros ->. reflexivity. Qed.

Lemma operator_expression_char (c : code_unit) :
  is_operator c = true -> is_expression_char c = true.
Proof. unfold is_expression_char. intros ->. rewrite !orb_true_r. reflexivity. Qed.

(** What an extractor returns, when it is not an error, is text of the
    alphabet with a digit and an operator. *)
Lemma extracted_expression_shape gc p img mime r :
  (GeminiService.extractExpressionFromImage gc p img mime = Return r
   \/ LocalService.extractExpressionFromImage gc p img mime = Return r) ->
  startsWith r ERROR_prefix = false ->
  forallb is_allowed_char r = true
  /\ test_class is_digit r = true /\ test_class is_operator r = true.
Proof.
  intros Hr Hne. destruct Hr as [Hr | Hr].
  - destruct (gemini_extract_cases gc p img mime) as [[raw Hraw] | Hf];
      [|rewrite Hf in Hr; injection Hr as <-; discriminate].
    rewrite (gemini_extract_resolved _ _ _ _ _ Hraw) in Hr. injection Hr as <-.
    rewrite validation_policy_accepts in Hne by reflexivity.
    apply negb_false_iff in Hne. unfold validation_policy. rewrite Hne.
    apply andb_true_iff in Hne as [Hd Ho]. unfold test_class in *.
    split; [apply keep_class_all|].
    split; apply existsb_keep_class; auto;
      intros c Hc; apply expression_char_allowed;
      [apply digit_expression_char | apply operator_expression_char]; exact Hc.
  - destruct (local_extract_cases gc p img mime) as [[raw Hraw] | Hf];
      [|rewrite Hf in Hr; injection Hr as <-; discriminate].
    rewrite (local_extract_resolved _ _ _ _ _ Hraw) in Hr. injection Hr as <-.
    rewrite validation_policy_accepts in Hne by reflexivity.
    apply negb_false_iff in Hne. unfold validation_policy. rewrite Hne.
    apply andb_true_iff in Hne as [Hd Ho]. unfold test_class in *.
    split; [eapply forallb_weaken; [apply expression_char_allowed | apply keep_class_all]|].
    split; apply existsb_keep_class; auto using digit_expression_char,
                                         operator_expression_char.
Qed.

(** X8: an expression that an extractor returns (a result that is not an error)
    still has a digit and an operator after sanitization, and the local
    evaluator never refuses it for its characters. *)
Theorem extracted_expression_is_evaluable :
  forall gc p img mime r,
    (GeminiService.extractExpressionFromImage gc p img mime = Return r
     \/ LocalService.extractExpressionFromImage gc p img mime = Return r) ->
    startsWith r ERROR_prefix = false ->
    test_class is_digit r = true
    /\ test_class is_operator r = true
    /\ LocalService.calculateExpression r <> Return INVALID_CHARACTERS.
Proof.
  intros gc p img mime r Hr Hne.
  destruct (extracted_expression_shape gc p img mime r Hr Hne) as (Hall & Hd & Ho).
  split; [exact Hd|]. split; [exact Ho|].
  apply allowed_not_invalid_characters, Hall.
Qed.

Lemma extracted_expression_is_evaluable_witness :
  LocalService.calculateExpression (js "34+54+67+87") <> Return INVALID_CHARACTERS.
Proof.
  exact (proj2 (proj2 (extracted_expression_is_evaluable
                         (fun _ => Return {| text := Some (js "34+54+67+87 = ?") |})
                         [] [] [] (js "34+54+67+87") (or_intror eq_refl) eq_refl))).
Defined.

(** ** Cleaning leaves a clean answer alone *)

Lemma allowed_char_facts (c : code_unit) :
  is_allowed_char c = true ->
  canonicalize c = c
  /\ N.eqb c (chr "E") = false /\ N.eqb c (chr "R") = false /\ N.eqb c (chr "A") = false.
Proof.
  unfold is_allowed_char, is_expression_char, is_operator, is_digit, is_char, is_space,
    is_white_space, is_line_terminator, canonicalize, chr. simpl N_of_ascii.
  rewrite !orb_true_iff, !andb_true_iff, !N.eqb_eq, !N.leb_le. intros H.
  assert (Hc : (97 <=? c)%N && (c <=? 122)%N = false).
  { apply andb_false_iff. rewrite !N.leb_gt. lia. }
  rewrite Hc. rewrite !N.eqb_neq. repeat split; lia.
Qed.

(** The label pattern matches nowhere in a text of the alphabet. *)
Lemma match_label_allowed (c : code_unit) (s : jstring) :
  is_allowed_char c = true -> match_label (c :: s) = None.
Proof.
  intros H. destruct (allowed_char_facts c H) as (Hcan & HE & HR & HA).
  unfold match_label, label_words.
  change (js "expression") with (chr "e" :: js "xpression").
  change (js "result") with (chr "r" :: js "esult").
  change (js "answer") with (chr "a" :: js "nswer").
  cbn [match_alternatives match_word]. rewrite Hcan.
  change (canonicalize (chr "e")) with (chr "E").
  change (canonicalize (chr "r")) with (chr "R").
  change (canonicalize (chr "a")) with (chr "A").
  rewrite HE, HR, HA. reflexivity.
Qed.

Lemma strip_labels_allowed (s : jstring) :
  forallb is_allowed_char s = true -> strip_labels s = s.
Proof.
  unfold strip_labels. induction s as [|c s IH]; [reflexivity|]. intros H.
  cbn [forallb] in H. apply andb_true_iff in H as [Hc Hs].
  cbn [delete_matches]. rewrite (match_label_allowed c s Hc), (IH Hs). reflexivity.
Qed.

Lemma forallb_drop_while (p q : code_unit -> bool) (s : jstring) :
  forallb p s = true -> forallb p (drop_while q s) = true.
Proof.
  induction s as [|c s IH]; [auto|]. intros H. simpl.
  destruct (q c); [|exact H].
  cbn [forallb] in H. apply andb_true_iff in H as [_ Hs]. apply IH, Hs.
Qed.

Lemma forallb_trim (p : code_unit -> bool) (s : jstring) :
  forallb p s = true -> forallb p (trim s) = true.
Proof.
  intros H. unfold trim, trimEnd, trimStart.
  rewrite forallb_rev. apply forallb_drop_while. rewrite forallb_rev.
  apply forallb_drop_while, H.
Qed.

Lemma filter_drop_while (f q : code_unit -> bool) (s : jstring) :
  (forall c, q c = true -> f c = false) -> filter f (drop_while q s) = filter f s.
Proof.
  intros Hq. induction s as [|c s IH]; [reflexivity|]. simpl.
  destruct (q c) eqn:E; [|reflexivity]. rewrite (Hq c E). exact IH.
Qed.

Lemma filter_rev_comm (f : code_unit -> bool) (s : jstring) :
  filter f (rev s) = rev (filter f s).
Proof.
  induction s as [|c s IH]; [reflexivity|]. simpl.
  rewrite filter_app, IH. simpl. destruct (f c); [reflexivity | apply app_nil_r].
Qed.

(** Trimming only removes white space. *)
Lemma remove_spaces_trim (s : jstring) : remove_spaces (trim s) = remove_spaces s.
Proof.
  assert (Hq : forall c, is_space c = true -> negb (is_space c) = false)
    by (intros c ->; reflexivity).
  unfold remove_spaces, trim, trimEnd, trimStart.
  rewrite filter_rev_comm, (filter_drop_while _ _ _ Hq), filter_rev_comm, rev_involutive.
  apply filter_drop_while, Hq.
Qed.

Lemma existsb_remove_spaces (p : code_unit -> bool) (s : jstring) :
  (forall c, p c = true -> is_space c = false) ->
  existsb p s = true -> existsb p (remove_spaces s) = true.
Proof.
  intros Hp. apply existsb_keep_class. intros c Hc. rewrite (Hp c Hc). reflexivity.
Qed.

Lemma digit_not_space (c : code_unit) : is_digit c = true -> is_space c = false.
Proof.
  intros H. apply digit_expression_char, expression_char_not_space in H.
  apply negb_true_iff in H. exact H.
Qed.

Lemma operator_not_space (c : code_unit) : is_operator c = true -> is_space c = false.
Proof.
  intros H. apply operator_expression_char, expression_char_not_space in H.
  apply negb_true_iff in H. exact H.
Qed.

Lemma remove_spaces_expression (s : jstring) :
  forallb is_allowed_char s = true -> forallb is_expression_char (remove_spaces s) = true.
Proof.
  unfold remove_spaces. induction s as [|c s IH]; [reflexivity|]. intros H.
  cbn [forallb] in H. apply andb_true_iff in H as [Hc Hs]. simpl.
  destruct (is_space c) eqn:E; simpl; [apply IH, Hs|].
  unfold is_allowed_char in Hc. rewrite E, orb_false_r in Hc.
  rewrite Hc. apply IH, Hs.
Qed.

Lemma trim_keeps (p : code_unit -> bool) (s : jstring) :
  (forall c, p c = true -> is_space c = false) ->
  existsb p s = true -> existsb p (trim s) = true.
Proof.
  intros Hp H.
  assert (G : forall t, existsb p t = true -> existsb p (drop_while is_space t) = true).
  { induction t as [|c t IH]; [auto|]. simpl. intros Ht.
    destruct (is_space c) eqn:E; [|exact Ht].
    apply orb_true_iff in Ht as [Ht | Ht]; [|apply IH, Ht].
    rewrite (Hp c Ht) in E. discriminate. }
  unfold trim, trimEnd, trimStart. rewrite existsb_rev. apply G.
  rewrite existsb_rev. apply G, H.
Qed.

(** X9: an answer that already is an expression -- characters of the alphabet
    only, with a digit and an operator -- is returned by the extractor of
    geminiService.ts trimmed and otherwise unchanged, and by the extractor of
    the local service with its white space removed and otherwise unchanged:
    the label pattern matches nowhere in it. *)
Theorem extract_clean_answer :
  forall gc p img mime raw,
    forallb is_allowed_char raw = true ->
    test_class is_digit raw = true ->
    test_class is_operator raw = true ->
    (gc (GeminiService.extraction_request p img mime) = Return {| text := Some raw |} ->
     GeminiService.extractExpressionFromImage gc p img mime = Return (trim raw))
    /\
    (gc (LocalService.extraction_request p img mime) = Return {| text := Some raw |} ->
     LocalService.extractExpressionFromImage gc p img mime = Return (remove_spaces raw)).
Proof.
  intros gc p img mime raw Hall Hd Ho. unfold test_class in *. split; intros H.
  - rewrite (gemini_extract_resolved _ _ _ _ _ H). unfold validation_policy, test_class.
    rewrite (trim_keeps _ _ digit_not_space Hd), (trim_keeps _ _ operator_not_space Ho).
    cbn [andb]. f_equal. apply keep_class_fixed, forallb_trim, Hall.
  - rewrite (local_extract_resolved _ _ _ _ _ H).
    assert (E : cleaned raw = remove_spaces raw).
    { unfold cleaned. rewrite strip_labels_allowed by (apply forallb_trim, Hall).
      apply remove_spaces_trim. }
    rewrite E. unfold validation_policy, test_class.
    rewrite (existsb_remove_spaces _ _ digit_not_space Hd),
      (existsb_remove_spaces _ _ operator_not_space Ho).
    cbn [andb]. f_equal. apply keep_class_fixed, remove_spaces_expression, Hall.
Qed.

Lemma extract_clean_answer_witness :
  LocalService.extractExpressionFromImage
    (fun _ => Return {| text := Some (js " (2 + 3) * 4 ") |}) [] [] []
  = Return (js "(2+3)*4").
Proof.
  exact (proj2 (extract_clean_answer
                  (fun _ => Return {| text := Some (js " (2 + 3) * 4 ") |}) [] [] []
                  (js " (2 + 3) * 4 ") eq_refl eq_refl eq_refl) eq_refl).
Defined.

(** ** The component *)

Section AppProperties.

Variable file : Type.
Variable fileToBase64 : file -> App.attempt (jstring * jstring).
Variable readAsDataURL : file -> option jstring.
Variable extract : jstring -> jstring -> App.attempt jstring.
Variable calculate : jstring -> App.attempt jstring.

Let handle := App.handleImageChange file fileToBase64 readAsDataURL extract calculate.

Lemma caught_error (m : option jstring) (st : App.state) :
  App.processState (App.caught m st) = App.error_state
  /\ App.truthy (App.error (App.caught m st)) = true
  /\ App.expression (App.caught m st) = App.expression st
  /\ App.result (App.caught m st) = App.result st.
Proof.
  repeat split. unfold App.caught. simpl.
  destruct m as [[|c m]|]; reflexivity.
Qed.

(** X11: processing a selected file always ends in [success] or in [error]. It
    ends in [success] exactly when the file was converted, the extractor
    returned a text that does not start with ERROR: and the evaluator, called
    on that text, returned a text that does not start with ERROR:; the state
    then holds the two texts and no error. In [error] the state holds a
    non-empty message and no result. The state it ends in does not depend on
    the state it started from, so nothing of an earlier run stays on
    display. *)
Theorem handleImageChange_outcome :
  forall st f,
    let st' := handle st (Some f) in
    (App.processState st' = App.success \/ App.processState st' = App.error_state)
    /\ (App.processState st' = App.success <->
        exists base64 mimeType expr res,
          fileToBase64 f = App.Resolved (base64, mimeType)
          /\ extract base64 mimeType = App.Resolved expr
          /\ startsWith expr ERROR_prefix = false
          /\ calculate expr = App.Resolved res
          /\ startsWith res ERROR_prefix = false
          /\ App.expression st' = Some expr
          /\ App.result st' = Some res
          /\ App.error st' = None)
    /\ (App.processState st' = App.error_state ->
        App.truthy (App.error st') = true /\ App.result st' = None)
    /\ (forall st0, handle st0 (Some f) = st').
Proof.
  intros st f.
  assert (Hfresh : forall st0, handle st0 (Some f) = handle st (Some f))
    by (intros st0; reflexivity).
  cut (let st' := handle st (Some f) in
       (App.processState st' = App.success \/ App.processState st' = App.error_state)
       /\ (App.processState st' = App.success <->
           exists base64 mimeType expr res,
             fileToBase64 f = App.Resolved (base64, mimeType)
             /\ extract base64 mimeType = App.Resolved expr
             /\ startsWith expr ERROR_prefix = false
             /\ calculate expr = App.Resolved res
             /\ startsWith res ERROR_prefix = false
             /\ App.expression st' = Some expr
             /\ App.result st' = Some res
             /\ App.error st' = None)
       /\ (App.processState st' = App.error_state ->
           App.truthy (App.error st') = true /\ App.result st' = None)).
  { cbv zeta. intros (H1 & H2 & H3). repeat split; try tauto; try apply H2; auto. }
  clear Hfresh. unfold handle, App.handleImageChange.
  destruct (fileToBase64 f) as [[base64 mimeType]|m] eqn:Ef.
  2:{ cbv zeta. destruct (caught_error m
        {| App.imagePreview := readAsDataURL f; App.expression := None;
           App.result := None; App.error := None;
           App.processState := App.processing |}) as (Hp & Ht & He & Hr).
      rewrite Hp. split; [auto|]. split; [|auto].
      split; [discriminate | intros (? & ? & ? & ? & H & _); discriminate H]. }
  destruct (extract base64 mimeType) as [expr|m] eqn:Ee.
  2:{ cbv zeta. destruct (caught_error m
        {| App.imagePreview := readAsDataURL f; App.expression := None;
           App.result := None; App.error := None;
           App.processState := App.processing |}) as (Hp & Ht & He & Hr).
      rewrite Hp. split; [auto|]. split; [|auto].
      split; [discriminate|].
      intros (b & mt & ? & ? & H1 & H2 & _).
      injection H1 as <- <-. rewrite Ee in H2. discriminate H2. }
  destruct (startsWith expr ERROR_prefix) eqn:Hx.
  { cbv zeta. split; [auto|]. split; [|intros _; split; [apply caught_error | reflexivity]].
    split; [discriminate|].
    intros (b & mt & x & ? & H1 & H2 & H3 & _).
    injection H1 as <- <-. rewrite Ee in H2. injection H2 as <-. congruence. }
  destruct (calculate expr) as [res|m] eqn:Ec.
  2:{ cbv zeta. split; [right; reflexivity|]. split.
      - split; [discriminate|].
        intros (b & mt & x & ? & H1 & H2 & _ & H4 & _).
        injection H1 as <- <-. rewrite Ee in H2. injection H2 as <-.
        rewrite Ec in H4. discriminate H4.
      - intros _. split; [|reflexivity]. simpl. destruct m as [[|c m]|]; reflexivity. }
  destruct (startsWith res ERROR_prefix) eqn:Hr.
  { cbv zeta. split; [auto|]. split; [|intros _; split; [apply caught_error | reflexivity]].
    split; [discriminate|].
    intros (b & mt & x & r & H1 & H2 & _ & H4 & H5 & _).
    injection H1 as <- <-. rewrite Ee in H2. injection H2 as <-.
    rewrite Ec in H4. injection H4 as <-. congruence. }
  cbv zeta. split; [left; reflexivity|]. split; [|discriminate].
  split; [|reflexivity].
  intros _. exists base64, mimeType, expr, res. repeat split; assumption.
Qed.

End AppProperties.

(** X12: when the extractor returns an error text, that text is the message on
    display, no expression is kept and the evaluator plays no part: any two
    evaluators give the same state. When the evaluator returns an error text
    for the extracted expression, that text is the message on display and the
    extracted expression is kept beside it. *)
Theorem handleImageChange_stage_failure :
  forall (file : Type) toBase64 reader extract (f : file) st base64 mimeType expr,
    toBase64 f = App.Resolved (base64, mimeType) ->
    extract base64 mimeType = App.Resolved expr ->
    (startsWith expr ERROR_prefix = true ->
     forall calculate calculate',
       let st' := App.handleImageChange file toBase64 reader extract calculate st (Some f) in
       st' = App.handleImageChange file toBase64 reader extract calculate' st (Some f)
       /\ App.error st' = Some expr
       /\ App.expression st' = None
       /\ App.processState st' = App.error_state)
    /\
    (startsWith expr ERROR_prefix = false ->
     forall calculate res,
       calculate expr = App.Resolved res ->
       startsWith res ERROR_prefix = true ->
       let st' := App.handleImageChange file toBase64 reader extract calculate st (Some f) in
       App.error st' = Some res
       /\ App.expression st' = Some expr
       /\ App.result st' = None
       /\ App.processState st' = App.error_state).
Proof.
  intros file toBase64 reader extract f st base64 mimeType expr Hb He.
  assert (Hmsg : forall m, startsWith m ERROR_prefix = true -> App.truthy (Some m) = true).
  { intros [|c m] H; [discriminate | reflexivity]. }
  split.
  - intros Hx calculate calculate'. unfold App.handleImageChange.
    rewrite Hb, He, Hx. cbv zeta. unfold App.caught. rewrite (Hmsg expr Hx).
    repeat split.
  - intros Hx calculate res Hc Hr. unfold App.handleImageChange.
    rewrite Hb, He, Hx, Hc, Hr. cbv zeta. unfold App.caught. rewrite (Hmsg res Hr).
    repeat split.
Qed.

Lemma handleImageChange_stage_failure_witness :
  App.error
    (App.handleImageChange unit (fun _ => App.Resolved ([], []))
       (fun _ => None)
       (fun _ _ => App.Resolved (js "ERROR: No expression found"))
       (fun e => App.Resolved e)
       (App.resetState (App.resetState {| App.imagePreview := None; App.expression := None;
                          App.result := None; App.error := None;
                          App.processState := App.idle |}))
       (Some tt))
  = Some (js "ERROR: No expression found").
Proof.
  exact (proj1 (proj2 (proj1 (handleImageChange_stage_failure
           unit (fun _ => App.Resolved ([], [])) (fun _ => None)
           (fun _ _ => App.Resolved (js "ERROR: No expression found")) tt
           _ [] [] (js "ERROR: No expression found") eq_refl eq_refl)
         eq_refl (fun e => App.Resolved e) (fun e => App.Resolved e)))).
Defined.

(** ** The component on the services of the local file *)

Lemma remove_spaces_no_space (s : jstring) : no_space (remove_spaces s) = true.
Proof. unfold no_space, remove_spaces. apply keep_class_all. Qed.

(** An error text of the local extractor is not the evaluator's message
    about invalid characters. *)
Lemma local_extract_not_invalid_characters gc p img mime :
  LocalService.extractExpressionFromImage gc p img mime <> Return INVALID_CHARACTERS.
Proof.
  intros H.
  destruct (local_extract_cases gc p img mime) as [[raw Hraw] | Hf];
    [|rewrite Hf in H; discriminate H].
  rewrite (local_extract_resolved _ _ _ _ _ Hraw) in H. injection H as H.
  unfold validation_policy in H.
  destruct (test_class is_digit (cleaned raw) && test_class is_operator (cleaned raw)).
  - pose proof (keep_class_all is_expression_char (cleaned raw)) as Hk.
    rewrite H in Hk. discriminate Hk.
  - destruct (startsWith (cleaned raw) ERROR_prefix); [|discriminate H].
    pose proof (remove_spaces_no_space (strip_labels (trim raw))) as Hn.
    fold (cleaned raw) in Hn. rewrite H in Hn. discriminate Hn.
Qed.

Lemma caught_message (m : jstring) (st : App.state) :
  App.truthy (Some m) = true ->
  App.caught (Some m) st
  = {| App.imagePreview := App.imagePreview st; App.expression := App.expression st;
       App.result := App.result st; App.error := Some m;
       App.processState := App.error_state |}.
Proof. intros H. unfold App.caught. rewrite H. reflexivity. Qed.

(** X13: the component wired to the extractor and the evaluator of the local
    file, for any model client: once the file is converted and its preview is
    loaded, processing it ends with exactly one of the error message and the
    final result on display, and with the spinner gone; the message is never
    the fallback "An unexpected error occurred." nor the evaluator's message
    about invalid characters. *)
Theorem local_pipeline_view :
  forall (file : Type) toBase64 reader gc prompt message_of (f : file) st base64 mimeType,
    toBase64 f = App.Resolved (base64, mimeType) ->
    App.truthy (reader f) = true ->
    let st' :=
      App.handleImageChange file toBase64 reader
        (fun b m => awaited message_of (LocalService.extractExpressionFromImage gc prompt b m))
        (fun e => awaited message_of (LocalService.calculateExpression e))
        st (Some f) in
    App.shows_spinner st' = false
    /\ App.shows_error st' = negb (App.shows_result st')
    /\ App.error st' <> Some App.UNEXPECTED
    /\ App.error st' <> Some INVALID_CHARACTERS.
Proof.
  intros file toBase64 reader gc prompt message_of f st base64 mimeType Hb Hp.
  unfold App.handleImageChange. rewrite Hb.
  destruct (local_extract_returns gc prompt base64 mimeType) as [ex Hex].
  pose proof (local_extract_not_invalid_characters gc prompt base64 mimeType) as Hnic.
  rewrite Hex in Hnic |- *. cbn [awaited].
  assert (Hmsg : forall m, startsWith m ERROR_prefix = true ->
            App.truthy (Some m) = true /\ m <> App.UNEXPECTED).
  { intros m H. split; [destruct m; [discriminate | reflexivity]|].
    intros ->. discriminate H. }
  destruct (startsWith ex ERROR_prefix) eqn:Hx.
  { destruct (Hmsg ex Hx) as [Ht Hu]. cbv zeta. rewrite (caught_message ex _ Ht).
    unfold App.shows_spinner, App.shows_error, App.shows_result, App.shows_panel.
    cbn [App.imagePreview App.processState App.error App.expression App.result].
    rewrite Hp, Ht. repeat split; try reflexivity; congruence. }
  destruct (local_calculateExpression_returns ex) as (res & Hres & Hne).
  destruct (extracted_expression_shape gc prompt base64 mimeType ex (or_intror Hex) Hx)
    as (Hall & Hd & _).
  pose proof (allowed_not_invalid_characters ex Hall) as Hic.
  rewrite Hres in Hic |- *. cbn [awaited].
  assert (Hex_t : App.truthy (Some ex) = true).
  { destruct ex; [discriminate Hd | reflexivity]. }
  destruct (startsWith res ERROR_prefix) eqn:Hr.
  { destruct (Hmsg res Hr) as [Ht Hu]. cbv zeta. rewrite (caught_message res _ Ht).
    unfold App.shows_spinner, App.shows_error, App.shows_result, App.shows_panel.
    cbn [App.imagePreview App.processState App.error App.expression App.result].
    rewrite Hp, Ht, Hex_t. repeat split; try reflexivity; congruence. }
  cbv zeta.
  unfold App.shows_spinner, App.shows_error, App.shows_result, App.shows_panel.
  cbn [App.imagePreview App.processState App.error App.expression App.result].
  assert (Hres_t : App.truthy (Some res) = true) by (destruct res; [congruence | reflexivity]).
  rewrite Hp, Hres_t. repeat split; try reflexivity; discriminate.
Qed.

Lemma local_pipeline_view_witness :
  App.result
    (App.handleImageChange unit (fun _ => App.Resolved ([], []))
       (fun _ => Some (js "data:image/png;base64,"))
       (fun b m => awaited (fun _ => None)
                     (LocalService.extractExpressionFromImage
                        (fun _ => Return {| text := Some (js "34+54+67+87") |}) [] b m))
       (fun e => awaited (fun _ => None) (LocalService.calculateExpression e))
       (App.resetState {| App.imagePreview := None; App.expression := None;
                          App.result := None; App.error := None;
                          App.processState := App.idle |})
       (Some tt))
  = Some (js "242")
  /\ App.error
       (App.handleImageChange unit (fun _ => App.Resolved ([], []))
          (fun _ => Some (js "data:image/png;base64,"))
          (fun b m => awaited (fun _ => None)
                        (LocalService.extractExpressionFromImage
                           (fun _ => Return {| text := Some (js "34+54+67+87") |}) [] b m))
          (fun e => awaited (fun _ => None) (LocalService.calculateExpression e))
          (App.resetState {| App.imagePreview := None; App.expression := None;
                             App.result := None; App.error := None;
                             App.processState := App.idle |})
          (Some tt))
     <> Some INVALID_CHARACTERS.
Proof.
  split; [vm_compute; reflexivity|].
  exact (proj2 (proj2 (proj2 (local_pipeline_view unit (fun _ => App.Resolved ([], []))
           (fun _ => Some (js "data:image/png;base64,"))
           (fun _ => Return {| text := Some (js "34+54+67+87") |}) [] (fun _ => None) tt
           _ [] [] eq_refl eq_refl)))).
Defined.

(** ** The parser reads the conventional layout back *)

Section ParserFacts.
Import Script Layout.

(** One step of each function of the parser. *)
Lemma parse_additive_S f ts :
  parse_additive (S f) ts
  = match parse_multiplicative f ts with
    | Some (e, rest) => additive_rest f e rest
    | None => None
    end.
Proof. reflexivity. Qed.

Lemma additive_rest_S f lhs ts :
  additive_rest (S f) lhs ts
  = match ts with
    | (_, TPlus) :: r =>
        match parse_multiplicative f r with
        | Some (e, rest) => additive_rest f (EBinary Add lhs e) rest
        | None => None
        end
    | (_, TMinus) :: r =>
        match parse_multiplicative f r with
        | Some (e, rest) => additive_rest f (EBinary Sub lhs e) rest
        | None => None
        end
    | _ => Some (lhs, ts)
    end.
Proof. reflexivity. Qed.

Lemma parse_multiplicative_S f ts :
  parse_multiplicative (S f) ts
  = match parse_unary f ts with
    | Some (e, rest) => multiplicative_rest f e rest
    | None => None
    end.
Proof. reflexivity. Qed.

Lemma multiplicative_rest_S f lhs ts :
  multiplicative_rest (S f) lhs ts
  = match ts with
    | (_, TStar) :: r =>
        match parse_unary f r with
        | Some (e, rest) => multiplicative_rest f (EBinary Mul lhs e) rest
        | None => None
        end
    | (_, TSlash) :: r =>
        match parse_unary f r with
        | Some (e, rest) => multiplicative_rest f (EBinary Div lhs e) rest
        | None => None
        end
    | _ => Some (lhs, ts)
    end.
Proof. reflexivity. Qed.

Lemma parse_unary_S f ts :
  parse_unary (S f) ts
  = match ts with
    | (_, TPlus) :: r =>
        match parse_unary f r with
        | Some (e, rest) => Some (EUnary UPlus e, rest)
        | None => None
        end
    | (_, TMinus) :: r =>
        match parse_unary f r with
        | Some (e, rest) => Some (EUnary UMinus e, rest)
        | None => None
        end
    | (_, TNumber d x) :: r => call_rest f (ELiteral d x) r
    | (_, TRegExp b) :: r => call_rest f (ERegExp b) r
    | (_, TLParen) :: r =>
        match parse_additive f r with
        | Some (e, (_, TRParen) :: rest) => call_rest f e rest
        | _ => None
        end
    | _ => None
    end.
Proof. reflexivity. Qed.

Lemma call_rest_S f callee ts :
  call_rest (S f) callee ts
  = match ts with
    | (_, TLParen) :: (_, TRParen) :: rest => call_rest f (ECall callee) rest
    | (_, TLParen) :: (_, TEllipsis) :: r =>
        match parse_additive f r with
        | Some (a, (_, TRParen) :: rest) => call_rest f (ECallWith callee a) rest
        | _ => None
        end
    | (_, TLParen) :: r =>
        match parse_additive f r with
        | Some (a, (_, TRParen) :: rest) => call_rest f (ECallWith callee a) rest
        | _ => None
        end
    | _ => Some (callee, ts)
    end.
Proof. reflexivity. Qed.

(** More fuel does not change a result. *)
Definition stable (f : nat) : Prop :=
  (forall ts r, parse_additive f ts = Some r -> parse_additive (S f) ts = Some r)
  /\ (forall l ts r, additive_rest f l ts = Some r -> additive_rest (S f) l ts = Some r)
  /\ (forall ts r, parse_multiplicative f ts = Some r ->
                   parse_multiplicative (S f) ts = Some r)
  /\ (forall l ts r, multiplicative_rest f l ts = Some r ->
                     multiplicative_rest (S f) l ts = Some r)
  /\ (forall ts r, parse_unary f ts = Some r -> parse_unary (S f) ts = Some r)
  /\ (forall c ts r, call_rest f c ts = Some r -> call_rest (S f) c ts = Some r).

Ltac use_stable :=
  repeat match goal with
         | IH : forall ts r, ?p ?f ts = Some r -> ?p (S ?f) ts = Some r,
           H : ?p ?f ?ts = Some ?r |- _ =>
             rewrite (IH ts r H); clear H
         | IH : forall l ts r, ?p ?f l ts = Some r -> ?p (S ?f) l ts = Some r,
           H : ?p ?f ?l ?ts = Some ?r |- _ =>
             rewrite (IH l ts r H); clear H
         end.

Lemma parser_stable : forall f, stable f.
Proof.
  induction f as [|f (A & AR & M & MR & U & C)].
  - repeat split; intros; discriminate.
  - repeat split.
    + intros ts r. rewrite (parse_additive_S (S f)), (parse_additive_S f).
      destruct (parse_multiplicative f ts) as [[e rest]|] eqn:E; [|discriminate].
      intros H. use_stable. reflexivity.
    + intros l ts r. rewrite (additive_rest_S (S f)), (additive_rest_S f).
      destruct ts as [|[nl [ | | | | | | | | | ]] ts']; try (intros H; exact H);
        (destruct (parse_multiplicative f ts') as [[e rest]|] eqn:E; [|discriminate];
         intros H; use_stable; reflexivity).
    + intros ts r. rewrite (parse_multiplicative_S (S f)), (parse_multiplicative_S f).
      destruct (parse_unary f ts) as [[e rest]|] eqn:E; [|discriminate].
      intros H. use_stable. reflexivity.
    + intros l ts r. rewrite (multiplicative_rest_S (S f)), (multiplicative_rest_S f).
      destruct ts as [|[nl [ | | | | | | | | | ]] ts']; try (intros H; exact H);
        (destruct (parse_unary f ts') as [[e rest]|] eqn:E; [|discriminate];
         intros H; use_stable; reflexivity).
    + intros ts r. rewrite (parse_unary_S (S f)), (parse_unary_S f).
      destruct ts as [|[nl [d x | b | | | | | | | | ]] ts']; try discriminate.
      * intros H. use_stable. reflexivity.
      * intros H. use_stable. reflexivity.
      * destruct (parse_unary f ts') as [[e rest]|] eqn:E; [|discriminate].
        intros H. use_stable. exact H.
      * destruct (parse_unary f ts') as [[e rest]|] eqn:E; [|discriminate].
        intros H. use_stable. exact H.
      * destruct (parse_additive f ts') as [[e [|[nl' t] rest]]|] eqn:E; try discriminate.
        destruct t; try discriminate. intros H. use_stable. reflexivity.
    + intros c ts r. rewrite (call_rest_S (S f)), (call_rest_S f).
      destruct ts as [|[nl t] ts']; [intros H; exact H|].
      destruct t; try (intros H; exact H).
      destruct ts' as [|[nl2 t2] ts'']; [|destruct t2];
        try (destruct (parse_additive f _) as [[a [|[nl' t] rest]]|] eqn:E;
             try discriminate; destruct t; try discriminate;
             intros H; use_stable; reflexivity).
      intros H. use_stable. reflexivity.
Qed.

End ParserFacts.

Section Layout_facts.
Import Script Layout.

Lemma parser_stable_le :
  forall f f', (f <= f')%nat ->
    (forall ts r, parse_additive f ts = Some r -> parse_additive f' ts = Some r)
    /\ (forall l ts r, additive_rest f l ts = Some r -> additive_rest f' l ts = Some r)
    /\ (forall ts r, parse_multiplicative f ts = Some r ->
                     parse_multiplicative f' ts = Some r)
    /\ (forall l ts r, multiplicative_rest f l ts = Some r ->
                       multiplicative_rest f' l ts = Some r)
    /\ (forall ts r, parse_unary f ts = Some r -> parse_unary f' ts = Some r)
    /\ (forall c ts r, call_rest f c ts = Some r -> call_rest f' c ts = Some r).
Proof.
  intros f f' Hle. induction Hle as [|m Hle (A & AR & M & MR & U & C)].
  - repeat split; intros; assumption.
  - destruct (parser_stable m) as (A' & AR' & M' & MR' & U' & C').
    repeat split; intros; auto.
Qed.

(** What may follow an operand, a product and a sum. *)
Definition ends_operand (rest : list ltoken) : bool :=
  match rest with
  | (_, TLParen) :: _ => false
  | _ => true
  end.

Definition ends_product (rest : list ltoken) : bool :=
  match rest with
  | (_, TLParen) :: _ | (_, TStar) :: _ | (_, TSlash) :: _ => false
  | _ => true
  end.

Lemma call_rest_ends e rest :
  ends_operand rest = true -> call_rest 1 e rest = Some (e, rest).
Proof.
  destruct rest as [|[nl t] r]; [reflexivity|].
  destruct t; try reflexivity; discriminate.
Qed.

Lemma multiplicative_rest_ends e rest :
  ends_product rest = true -> multiplicative_rest 1 e rest = Some (e, rest).
Proof.
  destruct rest as [|[nl t] r]; [reflexivity|].
  destruct t; try reflexivity; discriminate.
Qed.

Lemma ends_product_operand rest : ends_product rest = true -> ends_operand rest = true.
Proof.
  destruct rest as [|[nl t] r]; [reflexivity|].
  destruct t; try reflexivity; discriminate.
Qed.

Lemma on_line_app a b : on_line (a ++ b) = on_line a ++ on_line b.
Proof. apply map_app. Qed.

Lemma on_line_cons t ts : on_line (t :: ts) = (false, t) :: on_line ts.
Proof. reflexivity. Qed.

Lemma positive_fuel_unary f e rest r : call_rest f e rest = Some r -> (1 <= f)%nat.
Proof. destruct f; [discriminate|]. intros _. apply le_n_S, Nat.le_0_l. Qed.

Lemma positive_fuel_product f e rest r :
  multiplicative_rest f e rest = Some r -> (1 <= f)%nat.
Proof. destruct f; [discriminate|]. intros _. apply le_n_S, Nat.le_0_l. Qed.

Lemma positive_fuel_sum f e rest r : additive_rest f e rest = Some r -> (1 <= f)%nat.
Proof. destruct f; [discriminate|]. intros _. apply le_n_S, Nat.le_0_l. Qed.

(** The three levels of the parser on the layout of a term, followed by any
    continuation the level stops at. *)
Definition reads_operand (e : arith) : Prop :=
  forall rest f res F,
    call_rest f (to_expr e) rest = Some res ->
    (f + need 3 e <= F)%nat ->
    parse_unary F (on_line (print 3 e) ++ rest) = Some res.

Definition reads_product (e : arith) : Prop :=
  forall rest f res F,
    ends_operand rest = true ->
    multiplicative_rest f (to_expr e) rest = Some res ->
    (f + need 2 e <= F)%nat ->
    parse_multiplicative F (on_line (print 2 e) ++ rest) = Some res.

Definition reads_sum (e : arith) : Prop :=
  forall rest f res F,
    ends_product rest = true ->
    additive_rest f (to_expr e) rest = Some res ->
    (f + need 1 e <= F)%nat ->
    parse_additive F (on_line (print 1 e) ++ rest) = Some res.

Lemma operand_of_sum e :
  reads_sum e ->
  forall rest f res F,
    call_rest f (to_expr e) rest = Some res ->
    (f + need 1 e + 2 <= F)%nat ->
    parse_unary F ((false, TLParen) :: on_line (print 1 e) ++ (false, TRParen) :: rest)
    = Some res.
Proof.
  intros S1 rest f res F Hc HF.
  destruct F as [|F1]; [lia|]. rewrite parse_unary_S.
  rewrite (S1 ((false, TRParen) :: rest) 1%nat (to_expr e, (false, TRParen) :: rest) F1);
    [ | reflexivity | reflexivity | lia ].
  destruct (parser_stable_le f F1) as (_ & _ & _ & _ & _ & C); [lia|].
  apply C. exact Hc.
Qed.

Lemma product_of_operand e :
  reads_operand e ->
  forall rest f res F,
    ends_operand rest = true ->
    multiplicative_rest f (to_expr e) rest = Some res ->
    (f + need 3 e + 2 <= F)%nat ->
    parse_multiplicative F (on_line (print 3 e) ++ rest) = Some res.
Proof.
  intros S3 rest f res F Hrest Hm HF.
  destruct F as [|F1]; [lia|]. rewrite parse_multiplicative_S.
  rewrite (S3 rest 1%nat (to_expr e, rest) F1); [ | apply call_rest_ends, Hrest | lia ].
  destruct (parser_stable_le f F1) as (_ & _ & _ & MR & _ & _); [lia|].
  apply MR. exact Hm.
Qed.

Lemma sum_of_product e :
  reads_product e ->
  forall rest f res F,
    ends_product rest = true ->
    additive_rest f (to_expr e) rest = Some res ->
    (f + need 2 e + 2 <= F)%nat ->
    parse_additive F (on_line (print 2 e) ++ rest) = Some res.
Proof.
  intros S2 rest f res F Hrest Ha HF.
  destruct F as [|F1]; [lia|]. rewrite parse_additive_S.
  rewrite (S2 rest 1%nat (to_expr e, rest) F1);
    [ | apply ends_product_operand, Hrest | apply multiplicative_rest_ends, Hrest | lia ].
  destruct (parser_stable_le f F1) as (_ & AR & _ & _ & _ & _); [lia|].
  apply AR. exact Ha.
Qed.

Lemma sum_step op l r :
  precedence op = 1%nat ->
  reads_sum l -> reads_product r ->
  forall rest f res F,
    ends_product rest = true ->
    additive_rest f (EBinary op (to_expr l) (to_expr r)) rest = Some res ->
    (f + (need 1 l + need 2 r + 2) <= F)%nat ->
    parse_additive F
      (on_line (print 1 l ++ operator_token op :: print 2 r) ++ rest) = Some res.
Proof.
  intros Hop S1 S2 rest f res F Hrest Ha HF.
  rewrite on_line_app, on_line_cons, <- app_assoc, <- app_comm_cons.
  apply (S1 _ (S (f + 1 + need 2 r)));
    [ destruct op; try discriminate Hop; reflexivity | | lia ].
  rewrite additive_rest_S.
  assert (Hr : parse_multiplicative (f + 1 + need 2 r) (on_line (print 2 r) ++ rest)
               = Some (to_expr r, rest)).
  { apply (S2 rest 1%nat);
      [ apply ends_product_operand, Hrest | apply multiplicative_rest_ends, Hrest | lia ]. }
  destruct (parser_stable_le f (f + 1 + need 2 r)) as (_ & AR & _ & _ & _ & _); [lia|].
  destruct op; try discriminate Hop; cbn [operator_token];
    unfold ltoken in *; rewrite Hr; apply AR; exact Ha.
Qed.

Lemma product_step op l r :
  precedence op = 2%nat ->
  reads_product l -> reads_operand r ->
  forall rest f res F,
    ends_operand rest = true ->
    multiplicative_rest f (EBinary op (to_expr l) (to_expr r)) rest = Some res ->
    (f + (need 2 l + need 3 r + 2) <= F)%nat ->
    parse_multiplicative F
      (on_line (print 2 l ++ operator_token op :: print 3 r) ++ rest) = Some res.
Proof.
  intros Hop S2 S3 rest f res F Hrest Hm HF.
  rewrite on_line_app, on_line_cons, <- app_assoc, <- app_comm_cons.
  apply (S2 _ (S (f + 1 + need 3 r)));
    [ destruct op; try discriminate Hop; reflexivity | | lia ].
  rewrite multiplicative_rest_S.
  assert (Hr : parse_unary (f + 1 + need 3 r) (on_line (print 3 r) ++ rest)
               = Some (to_expr r, rest)).
  { apply (S3 rest 1%nat); [ apply call_rest_ends, Hrest | lia ]. }
  destruct (parser_stable_le f (f + 1 + need 3 r)) as (_ & _ & _ & MR & _ & _); [lia|].
  destruct op; try discriminate Hop; cbn [operator_token];
    unfold ltoken in *; rewrite Hr; apply MR; exact Hm.
Qed.

Lemma parser_reads_layout :
  forall e, reads_sum e /\ reads_product e /\ reads_operand e.
Proof.
  induction e as [d x | op l (L1 & L2 & L3) r (R1 & R2 & R3)].
  - assert (S3 : reads_operand (ANum d x)).
    { intros rest f res F Hc HF. cbn [print need] in *.
      rewrite on_line_cons. cbn [on_line map app].
      destruct F as [|F1]; [lia|]. rewrite parse_unary_S.
      destruct (parser_stable_le f F1) as (_ & _ & _ & _ & _ & C); [lia|].
      apply C. exact Hc. }
    assert (S2 : reads_product (ANum d x)).
    { intros rest f res F Hrest Hm HF.
      apply (product_of_operand (ANum d x) S3 rest f); auto.
      cbn [need] in *. lia. }
    split; [|split]; auto.
    intros rest f res F Hrest Ha HF.
    apply (sum_of_product (ANum d x) S2 rest f); auto.
    cbn [need] in *. lia.
  - destruct (precedence op) as [|[|[|p]]] eqn:Hop;
      try (destruct op; discriminate Hop).
    + (* a sum or a difference *)
      assert (S1 : reads_sum (ABin op l r)).
      { intros rest f res F Hrest Ha HF.
        cbn [print]. rewrite Hop. cbn [Nat.leb].
        apply (sum_step op l r Hop L1 R2 rest f); auto.
        destruct op; try discriminate Hop; cbn [need] in HF; exact HF. }
      assert (S3 : reads_operand (ABin op l r)).
      { intros rest f res F Hc HF.
        pose proof (operand_of_sum (ABin op l r) S1 rest f res F Hc) as H.
        cbn [print] in H |- *. rewrite Hop in H |- *. cbn [Nat.leb] in H |- *.
        rewrite on_line_cons, on_line_app, <- app_comm_cons, <- app_assoc.
        rewrite on_line_cons. cbn [on_line map app]. fold (on_line (print 1 l ++ operator_token op :: print 2 r)).
        apply H. destruct op; try discriminate Hop; cbn [need] in HF |- *; lia. }
      split; [exact S1|split; [|exact S3]].
      intros rest f res F Hrest Hm HF.
      pose proof (product_of_operand (ABin op l r) S3 rest f res F Hrest Hm) as H.
      cbn [print] in H |- *. rewrite Hop in H |- *. cbn [Nat.leb] in H |- *.
      apply H. destruct op; try discriminate Hop; cbn [need] in HF |- *; lia.
    + (* a product or a quotient *)
      assert (S2 : reads_product (ABin op l r)).
      { intros rest f res F Hrest Hm HF.
        cbn [print]. rewrite Hop. cbn [Nat.leb].
        apply (product_step op l r Hop L2 R3 rest f); auto.
        destruct op; try discriminate Hop; cbn [need] in HF; exact HF. }
      assert (S1 : reads_sum (ABin op l r)).
      { intros rest f res F Hrest Ha HF.
        pose proof (sum_of_product (ABin op l r) S2 rest f res F Hrest Ha) as H.
        cbn [print] in H |- *. rewrite Hop in H |- *. cbn [Nat.leb] in H |- *.
        apply H. destruct op; try discriminate Hop; cbn [need] in HF |- *; lia. }
      split; [exact S1|split; [exact S2|]].
      intros rest f res F Hc HF.
      pose proof (operand_of_sum (ABin op l r) S1 rest f res F Hc) as H.
      cbn [print] in H |- *. rewrite Hop in H |- *. cbn [Nat.leb] in H |- *.
      rewrite on_line_cons, on_line_app, <- app_comm_cons, <- app_assoc.
      rewrite on_line_cons. cbn [on_line map app].
      apply H. destruct op; try discriminate Hop; cbn [need] in HF |- *; lia.
Qed.

Lemma need_size : forall e c, (need c e + 1 <= 6 * size e)%nat.
Proof.
  induction e as [d x | op l IHl r IHr]; intros c.
  - cbn [need size]. destruct c as [|[|[|[|c]]]]; lia.
  - cbn [size]. 
    pose proof (IHl 1%nat). pose proof (IHl 2%nat).
    pose proof (IHr 2%nat). pose proof (IHr 3%nat).
    destruct op; cbn [need]; destruct c as [|[|[|[|c]]]]; lia.
Qed.

Lemma size_print : forall e c, (size e <= List.length (print c e))%nat.
Proof.
  induction e as [d x | op l IHl r IHr]; intros c.
  - cbn. lia.
  - cbn [print size].
    pose proof (IHl (precedence op)). pose proof (IHr (S (precedence op))).
    destruct (c <=? precedence op)%nat; cbn [List.length];
      rewrite ?length_app; cbn [List.length]; rewrite ?length_app; cbn [List.length]; lia.
Qed.

End Layout_facts.

(** ** The evaluator on conventionally written arithmetic *)

Section Written.
Import Script Layout.

(** One step of the lexer, over the lexer for the rest. *)
Definition lex_step (k : jstring -> bool -> bool -> option (list ltoken))
    (s : jstring) (nl operand : bool) : option (list ltoken) :=
  let emit t rest op :=
    match k rest false op with
    | Some ts => Some ((nl, t) :: ts)
    | None => None
    end in
  match s with
  | [] => Some []
  | c :: r =>
      if is_line_terminator c then k r true operand
      else if is_white_space c then k r nl operand
      else if is_digit c
              || (is_char "." c && match r with d :: _ => is_digit d | [] => false end)
      then let '(d, x, rest) := scan_numeric_literal s in emit (TNumber d x) rest true
      else if is_char "." c then
        match r with
        | c1 :: c2 :: r' =>
            if is_char "." c1 && is_char "." c2 then emit TEllipsis r' false
            else emit TDot r false
        | _ => emit TDot r false
        end
      else if is_char "+" c then emit TPlus r false
      else if is_char "-" c then emit TMinus r false
      else if is_char "*" c then emit TStar r false
      else if is_char "(" c then emit TLParen r false
      else if is_char ")" c then emit TRParen r true
      else if is_char "/" c then
        if operand then emit TSlash r false
        else
          match scan_regexp r with
          | Some (body, rest) => emit (TRegExp body) rest true
          | None => None
          end
      else None
  end.

Lemma lex_S f s nl operand : lex (S f) s nl operand = lex_step (lex f) s nl operand.
Proof. reflexivity. Qed.

Lemma lex_step_mono k k' :
  (forall s nl op ts, k s nl op = Some ts -> k' s nl op = Some ts) ->
  forall s nl op ts, lex_step k s nl op = Some ts -> lex_step k' s nl op = Some ts.
Proof.
  intros Hk s nl op ts. unfold lex_step.
  assert (He : forall t rest o,
             match k rest false o with
             | Some ts0 => Some ((nl, t) :: ts0)
             | None => None
             end = Some ts ->
             match k' rest false o with
             | Some ts0 => Some ((nl, t) :: ts0)
             | None => None
             end = Some ts).
  { intros t rest o. destruct (k rest false o) as [ts0|] eqn:E; [|discriminate].
    rewrite (Hk _ _ _ _ E). auto. }
  destruct s as [|c r]; [auto|].
  destruct (is_line_terminator c); [apply Hk|].
  destruct (is_white_space c); [apply Hk|].
  destruct (is_digit c || _).
  { destruct (scan_numeric_literal (c :: r)) as [[d x] rest]. apply He. }
  destruct (is_char "." c).
  { destruct r as [|c1 [|c2 r']]; try apply He.
    destruct (is_char "." c1 && is_char "." c2); apply He. }
  destruct (is_char "+" c); [apply He|].
  destruct (is_char "-" c); [apply He|].
  destruct (is_char "*" c); [apply He|].
  destruct (is_char "(" c); [apply He|].
  destruct (is_char ")" c); [apply He|].
  destruct (is_char "/" c); [|discriminate].
  destruct op; [apply He|].
  destruct (scan_regexp r) as [[body rest]|]; [apply He|discriminate].
Qed.

Lemma lex_stable :
  forall f s nl op ts, lex f s nl op = Some ts -> lex (S f) s nl op = Some ts.
Proof.
  induction f as [|f IH]; intros s nl op ts; [discriminate|].
  rewrite (lex_S (S f)), (lex_S f). apply lex_step_mono. exact IH.
Qed.

Lemma lex_stable_le :
  forall f f', (f <= f')%nat ->
    forall s nl op ts, lex f s nl op = Some ts -> lex f' s nl op = Some ts.
Proof.
  intros f f' Hle. induction Hle as [|m Hle IH]; intros s nl op ts H; [exact H|].
  apply lex_stable, IH, H.
Qed.

(** A digit is none of the other characters the lexer tells apart. *)
Lemma digit_facts (c : code_unit) :
  is_digit c = true ->
  is_line_terminator c = false /\ is_white_space c = false
  /\ is_operator c = false /\ is_char "." c = false /\ is_allowed_char c = true.
Proof.
  unfold is_digit, chr. simpl N_of_ascii. rewrite andb_true_iff, !N.leb_le.
  intros [Hlo Hhi].
  assert (H : (c = 48 \/ c = 49 \/ c = 50 \/ c = 51 \/ c = 52 \/ c = 53 \/ c = 54
               \/ c = 55 \/ c = 56 \/ c = 57)%N) by lia.
  repeat (destruct H as [-> | H]; [repeat split; reflexivity|]).
  subst c. repeat split; reflexivity.
Qed.

Lemma scan_numeric_literal_decimal (i f rest : jstring) :
  decimal_literal i f = true -> ends_digits rest = true ->
  scan_numeric_literal (numeral_text i f ++ rest)
  = (digits_value (i ++ f), - Z.of_nat (List.length f), rest).
Proof.
  unfold decimal_literal. rewrite !andb_true_iff. intros [[Hi Hf] Hz] Hrest.
  unfold scan_numeric_literal, numeral_text. rewrite <- app_assoc.
  destruct (take_while_digits i ((match f with [] => [] | _ => chr "." :: f end) ++ rest) Hi)
    as [E1 E2].
  rewrite E1, E2. clear E1 E2.
  destruct (take_while_stop rest Hrest) as [T1 T2].
  assert (Hoct : match i ++ take_while is_digit
                         ((match f with [] => [] | _ => chr "." :: f end) ++ rest) with
                 | z :: _ :: _ =>
                     is_char "0" z
                     && forallb is_octal_digit
                          (i ++ take_while is_digit
                                  ((match f with [] => [] | _ => chr "." :: f end) ++ rest))
                 | _ => false
                 end = false).
  { destruct f as [|f0 f'].
    - cbn [app]. rewrite T1, app_nil_r.
      destruct i as [|z [|z2 i']]; try reflexivity.
      apply negb_true_iff in Hz. rewrite Hz. reflexivity.
    - remember (f0 :: f') as fs eqn:Efs.
      cbn [app take_while]. change (is_digit (chr ".")) with false. cbv iota.
      rewrite app_nil_r.
      destruct i as [|z [|z2 i']]; try reflexivity.
      apply negb_true_iff in Hz. rewrite Hz. reflexivity. }
  rewrite Hoct. clear Hoct.
  destruct f as [|f0 f'].
  - cbn [app]. rewrite T1, T2, !app_nil_r.
    destruct rest as [|c r]; [rewrite ?app_nil_r; reflexivity|].
    simpl in Hrest. apply andb_true_iff in Hrest as [_ Hc]. apply negb_true_iff in Hc.
    rewrite Hc. rewrite ?app_nil_r. reflexivity.
  - remember (f0 :: f') as fs eqn:Efs.
    cbn [app take_while drop_while]. change (is_digit (chr ".")) with false. cbv iota.
    change (is_char "." (chr ".")) with true. cbv iota.
    destruct (take_while_digits fs rest Hf) as [E1 E2].
    rewrite E1, E2, T1, T2, !app_nil_r. reflexivity.
Qed.

Lemma lex_numeral (i f rest : jstring) (F : nat) (nl po : bool) (ts : list ltoken) :
  decimal_literal i f = true -> ends_digits rest = true ->
  lex F rest false true = Some ts ->
  lex (S F) (numeral_text i f ++ rest) nl po
  = Some ((nl, TNumber (digits_value (i ++ f)) (- Z.of_nat (List.length f))) :: ts).
Proof.
  intros Hlit Hrest Hts.
  pose proof (scan_numeric_literal_decimal i f rest Hlit Hrest) as Hscan.
  assert (Hhead : exists c r, numeral_text i f ++ rest = c :: r /\ is_digit c = true).
  { unfold decimal_literal in Hlit. rewrite !andb_true_iff in Hlit.
    destruct Hlit as [[Hi _] Hz]. destruct i as [|c i']; [discriminate|].
    simpl in Hi. apply andb_true_iff in Hi as [Hc _].
    exists c. eexists. split; [reflexivity|exact Hc]. }
  destruct Hhead as (c & r & E & Hc). rewrite E in Hscan |- *.
  destruct (digit_facts c Hc) as (H1 & H2 & _).
  rewrite lex_S. unfold lex_step. rewrite H1, H2, Hc. cbn [orb].
  rewrite Hscan, Hts. reflexivity.
Qed.

Lemma lex_operator (op : binary_operator) (s : jstring) (F : nat) (nl : bool)
    (ts : list ltoken) :
  lex F s false false = Some ts ->
  lex (S F) (operator_char op :: s) nl true = Some ((nl, operator_token op) :: ts).
Proof.
  intros H. rewrite lex_S. destruct op; unfold lex_step, operator_char; simpl;
    rewrite H; reflexivity.
Qed.

Lemma lex_open (s : jstring) (F : nat) (nl po : bool) (ts : list ltoken) :
  lex F s false false = Some ts ->
  lex (S F) (chr "(" :: s) nl po = Some ((nl, TLParen) :: ts).
Proof.
  intros H. rewrite lex_S. unfold lex_step; simpl. rewrite H. reflexivity.
Qed.

Lemma lex_close (s : jstring) (F : nat) (nl po : bool) (ts : list ltoken) :
  lex F s false true = Some ts ->
  lex (S F) (chr ")" :: s) nl po = Some ((nl, TRParen) :: ts).
Proof.
  intros H. rewrite lex_S. unfold lex_step; simpl. rewrite H. reflexivity.
Qed.

(** Tokens of which the first carries the line flag [nl]. *)
Definition flagged (nl : bool) (ts : list token) : list ltoken :=
  match ts with
  | [] => []
  | t :: r => (nl, t) :: on_line r
  end.

Lemma print_head (e : arith) (c : nat) : exists t r, print c e = t :: r.
Proof.
  revert c. induction e as [d x | op l IHl r IHr]; intros c.
  - eexists. eexists. reflexivity.
  - cbn [print]. destruct (c <=? precedence op)%nat.
    + destruct (IHl (precedence op)) as (t & r' & ->). eexists. eexists. reflexivity.
    + eexists. eexists. reflexivity.
Qed.

Lemma flagged_app (nl : bool) (a b : list token) :
  a <> [] -> flagged nl (a ++ b) = flagged nl a ++ on_line b.
Proof.
  destruct a as [|t r]; [congruence|]. intros _. cbn [app flagged].
  rewrite on_line_app. reflexivity.
Qed.

Lemma flagged_on_line (ts : list token) : flagged false ts = on_line ts.
Proof. destruct ts; reflexivity. Qed.

Lemma ends_digits_operator (op : binary_operator) (s : jstring) :
  ends_digits (operator_char op :: s) = true.
Proof. destruct op; reflexivity. Qed.

(** The lexer on a written term, followed by a text that cannot continue a
    literal. *)
Definition lexes (c : nat) (t : formula) : Prop :=
  forall rest F nl po ts F',
    ends_digits rest = true ->
    lex F rest false true = Some ts ->
    (F + List.length (write c t) <= F')%nat ->
    lex F' (write c t ++ rest) nl po = Some (flagged nl (print c (meaning t)) ++ ts).

Lemma lexes_body op l r :
  lexes (precedence op) l -> lexes (S (precedence op)) r ->
  forall rest F nl po ts F',
    ends_digits rest = true ->
    lex F rest false true = Some ts ->
    (F + List.length (write (precedence op) l ++ operator_char op
                        :: write (S (precedence op)) r) <= F')%nat ->
    lex F' ((write (precedence op) l ++ operator_char op
               :: write (S (precedence op)) r) ++ rest) nl po
    = Some (flagged nl (print (precedence op) (meaning l) ++ operator_token op
                          :: print (S (precedence op)) (meaning r)) ++ ts).
Proof.
  intros Hl Hr rest F nl po ts F' Hrest Hts HF.
  rewrite length_app in HF. cbn [List.length] in HF.
  rewrite <- app_assoc, <- app_comm_cons.
  rewrite (Hl (operator_char op :: write (S (precedence op)) r ++ rest)
              (S (F + List.length (write (S (precedence op)) r))) nl po
              ((false, operator_token op)
                 :: flagged false (print (S (precedence op)) (meaning r)) ++ ts) F');
    [ | apply ends_digits_operator | | lia ].
  - destruct (print_head (meaning l) (precedence op)) as (t0 & r0 & E).
    rewrite flagged_app by (rewrite E; discriminate).
    rewrite on_line_cons, flagged_on_line, <- app_assoc, <- app_comm_cons.
    reflexivity.
  - apply lex_operator. apply (Hr rest F false false ts); auto.
Qed.

Lemma lex_written : forall t c, well_written t = true -> lexes c t.
Proof.
  induction t as [i f | op l IHl r IHr]; intros c Hw.
  - intros rest F nl po ts F' Hrest Hts HF. cbn [write meaning print flagged on_line map].
    cbn [write] in HF.
    assert (Hlen : (1 <= List.length (numeral_text i f))%nat).
    { cbn [well_written] in Hw. unfold decimal_literal in Hw.
      rewrite !andb_true_iff in Hw. destruct Hw as [_ Hz].
      destruct i; [discriminate|]. cbn. lia. }
    destruct F' as [|F'']; [lia|].
    apply lex_numeral; auto.
    apply (lex_stable_le F F''); [lia|exact Hts].
  - cbn [well_written] in Hw. apply andb_true_iff in Hw as [Hl Hr].
    pose proof (lexes_body op l r (IHl _ Hl) (IHr _ Hr)) as Hbody.
    intros rest F nl po ts F' Hrest Hts HF.
    cbn [write meaning print] in *.
    destruct (c <=? precedence op)%nat.
    + apply (Hbody rest F); auto.
    + cbn [List.length] in HF. rewrite length_app in HF. cbn [List.length] in HF.
      destruct F' as [|F'']; [lia|].
      rewrite <- app_comm_cons, <- app_assoc. cbn [app flagged].
      rewrite (lex_open _ F'' nl po
                 (flagged false (print (precedence op) (meaning l) ++ operator_token op
                                   :: print (S (precedence op)) (meaning r))
                  ++ (false, TRParen) :: ts)).
      * rewrite on_line_app, flagged_on_line, <- app_assoc. reflexivity.
      * apply (Hbody (chr ")" :: rest) (S F)); [reflexivity| |lia].
        apply lex_close, Hts.
Qed.

(** The guards of the evaluator let a written term through. *)
Lemma write_allowed : forall t c,
  well_written t = true -> forallb is_allowed_char (write c t) = true.
Proof.
  assert (Hd : forall ds, forallb is_digit ds = true -> forallb is_allowed_char ds = true).
  { induction ds as [|d ds IH]; [reflexivity|]. cbn [forallb].
    rewrite andb_true_iff. intros [Hd Hds].
    destruct (digit_facts d Hd) as (_ & _ & _ & _ & Ha). rewrite Ha. auto. }
  induction t as [i f | op l IHl r IHr]; intros c Hw.
  - cbn [write well_written] in *. unfold decimal_literal in Hw.
    rewrite !andb_true_iff in Hw. destruct Hw as [[Hi Hf] _].
    unfold numeral_text. rewrite forallb_app, (Hd i Hi).
    destruct f as [|f0 f']; [reflexivity|].
    cbn [forallb andb]. change (is_allowed_char (chr ".")) with true.
    apply (Hd _ Hf).
  - cbn [well_written] in Hw. apply andb_true_iff in Hw as [Hl Hr].
    assert (Hb : forallb is_allowed_char
                   (write (precedence op) l ++ operator_char op
                      :: write (S (precedence op)) r) = true).
    { rewrite forallb_app. cbn [forallb]. rewrite (IHl _ Hl), (IHr _ Hr).
      destruct op; reflexivity. }
    cbn [write]. destruct (c <=? precedence op)%nat; [exact Hb|].
    cbn [forallb]. rewrite forallb_app, Hb. reflexivity.
Qed.

Lemma has_operator_run_skip (a : code_unit) (s : jstring) :
  is_operator a = false -> has_operator_run (a :: s) = has_operator_run s.
Proof.
  intros H. destruct s as [|b s]; [reflexivity|].
  cbn [has_operator_run]. rewrite H. reflexivity.
Qed.

Lemma has_operator_run_cons (a b : code_unit) (s : jstring) :
  has_operator_run (a :: b :: s)
  = (is_operator a && is_operator b) || has_operator_run (b :: s).
Proof. reflexivity. Qed.

Lemma has_operator_run_digits (ds s : jstring) :
  forallb is_digit ds = true -> has_operator_run (ds ++ s) = has_operator_run s.
Proof.
  induction ds as [|d ds IH]; [reflexivity|]. cbn [forallb]. rewrite andb_true_iff.
  intros [Hd Hds]. destruct (digit_facts d Hd) as (_ & _ & Ho & _).
  rewrite <- app_comm_cons, has_operator_run_skip by exact Ho. apply IH, Hds.
Qed.

Lemma write_head : forall t c,
  well_written t = true -> exists h r, write c t = h :: r /\ is_operator h = false.
Proof.
  induction t as [i f | op l IHl r IHr]; intros c Hw.
  - cbn [write well_written] in *. unfold decimal_literal in Hw.
    rewrite !andb_true_iff in Hw. destruct Hw as [[Hi _] Hz].
    destruct i as [|d i']; [discriminate|]. cbn [forallb] in Hi.
    apply andb_true_iff in Hi as [Hd _]. destruct (digit_facts d Hd) as (_ & _ & Ho & _).
    exists d. eexists. split; [reflexivity|exact Ho].
  - cbn [well_written] in Hw. apply andb_true_iff in Hw as [Hl Hr].
    cbn [write]. destruct (c <=? precedence op)%nat.
    + destruct (IHl (precedence op) Hl) as (h & r' & -> & Ho).
      exists h. eexists. split; [reflexivity|exact Ho].
    + eexists. eexists. split; reflexivity.
Qed.

Lemma write_no_operator_run : forall t c s,
  well_written t = true -> has_operator_run (write c t ++ s) = has_operator_run s.
Proof.
  induction t as [i f | op l IHl r IHr]; intros c s Hw.
  - cbn [write well_written] in *. unfold decimal_literal in Hw.
    rewrite !andb_true_iff in Hw. destruct Hw as [[Hi Hf] _].
    unfold numeral_text. rewrite <- app_assoc, has_operator_run_digits by exact Hi.
    destruct f as [|f0 f']; [reflexivity|].
    rewrite <- app_comm_cons, has_operator_run_skip by reflexivity.
    apply has_operator_run_digits, Hf.
  - cbn [well_written] in Hw. apply andb_true_iff in Hw as [Hl Hr].
    assert (Hb : forall s',
               has_operator_run
                 ((write (precedence op) l ++ operator_char op
                     :: write (S (precedence op)) r) ++ s') = has_operator_run s').
    { intros s'. rewrite <- app_assoc, (IHl _ _ Hl), <- app_comm_cons.
      destruct (write_head r (S (precedence op)) Hr) as (h & r' & E & Ho).
      rewrite E, <- app_comm_cons, has_operator_run_cons, Ho, andb_false_r.
      cbn [orb]. rewrite app_comm_cons, <- E. apply IHr, Hr. }
    cbn [write]. destruct (c <=? precedence op)%nat; [apply Hb|].
    rewrite <- app_comm_cons, has_operator_run_skip by reflexivity.
    rewrite <- app_assoc, Hb. cbn [app]. apply has_operator_run_skip. reflexivity.
Qed.

(** Evaluation of an arithmetic term is double precision arithmetic. *)
Lemma eval_arith : forall e : arith, eval (to_expr e) = Return (VNumber (value e)).
Proof.
  induction e as [d x | op l IHl r IHr]; [reflexivity|].
  cbn [to_expr eval]. rewrite IHl, IHr. cbn [bind].
  destruct op; reflexivity.
Qed.



End Written.



(** ** Juxtaposition is a call, not a product *)

Section Juxtaposition.
Import Script Layout.

Lemma print_head_kind (e : arith) (c : nat) :
  exists t r, print c e = t :: r /\ (t = TLParen \/ exists d x, t = TNumber d x).
Proof.
  revert c. induction e as [d x | op l IHl r IHr]; intros c.
  - eexists. eexists. split; [reflexivity|]. right. eauto.
  - cbn [print]. destruct (c <=? precedence op)%nat.
    + destruct (IHl (precedence op)) as (t & r' & -> & Ht).
      eexists. eexists. split; [reflexivity|exact Ht].
    + eexists. eexists. split; [reflexivity|]. left. reflexivity.
Qed.

(** An operand followed by a parenthesized term parses as a call of the
    operand with the term as its argument. *)
Lemma parse_juxtaposed (e1 e2 : arith) :
  parse_expression
    (on_line (print 3 e1) ++ (false, TLParen) :: on_line (print 1 e2) ++ [(false, TRParen)])
  = Some (ECallWith (to_expr e1) (to_expr e2), []).
Proof.
  destruct (parser_reads_layout e1) as (_ & _ & S3).
  destruct (parser_reads_layout e2) as (S1 & _ & _).
  set (rest := (false, TLParen) :: on_line (print 1 e2) ++ [(false, TRParen)]).
  assert (Hcall : call_rest (S (S (need 1 e2))) (to_expr e1) rest
                  = Some (ECallWith (to_expr e1) (to_expr e2), [])).
  { rewrite call_rest_S. unfold rest.
    rewrite (S1 [(false, TRParen)] 1%nat (to_expr e2, [(false, TRParen)]) (S (need 1 e2)));
      [ | reflexivity | reflexivity | lia ].
    destruct (print_head_kind e2 1) as (t & r & E & [-> | (d & x & ->)]);
      rewrite E, on_line_cons; reflexivity. }
  unfold parse_expression.
  remember (parse_fuel (on_line (print 3 e1) ++ rest)) as F eqn:EF.
  assert (HF : (need 3 e1 + need 1 e2 + 4 <= F)%nat).
  { subst F. unfold parse_fuel, rest. rewrite length_app. cbn [List.length].
    rewrite length_app. cbn [List.length]. unfold on_line. rewrite !length_map.
    pose proof (need_size e1 3). pose proof (size_print e1 3).
    pose proof (need_size e2 1). pose proof (size_print e2 1). lia. }
  destruct F as [|[|F2]]; [lia|lia|].
  rewrite parse_additive_S, parse_multiplicative_S.
  rewrite (S3 rest _ _ F2 Hcall) by lia.
  destruct F2 as [|F3]; [lia|]. reflexivity.
Qed.

Lemma lex_juxtaposed (t1 t2 : formula) :
  well_written t1 = true -> well_written t2 = true ->
  let s := write 3 t1 ++ chr "(" :: write 1 t2 ++ [chr ")"] in
  lex (S (List.length s)) s false false
  = Some (on_line (print 3 (meaning t1)) ++ (false, TLParen)
            :: on_line (print 1 (meaning t2)) ++ [(false, TRParen)]).
Proof.
  intros H1 H2 s. unfold s.
  rewrite <- flagged_on_line.
  apply (lex_written t1 3 H1 _ (S (S (S (List.length (write 1 t2))))));
    [reflexivity | | rewrite length_app; cbn [List.length]; rewrite length_app;
                     cbn [List.length]; lia].
  apply lex_open. rewrite <- flagged_on_line.
  apply (lex_written t2 1 H2 _ 2%nat); [reflexivity | | lia].
  apply lex_close. reflexivity.
Qed.

Lemma juxtaposed_guards (t1 t2 : formula) :
  well_written t1 = true -> well_written t2 = true ->
  let s := write 3 t1 ++ chr "(" :: write 1 t2 ++ [chr ")"] in
  forallb is_allowed_char s = true /\ has_operator_run s = false.
Proof.
  intros H1 H2 s. unfold s. split.
  - rewrite forallb_app, (write_allowed t1 3 H1). cbn [forallb andb].
    rewrite forallb_app, (write_allowed t2 1 H2). reflexivity.
  - rewrite (write_no_operator_run t1 3 _ H1).
    rewrite has_operator_run_skip by reflexivity.
    rewrite (write_no_operator_run t2 1 _ H2). reflexivity.
Qed.

Lemma run_return_juxtaposed (t1 t2 : formula) :
  well_written t1 = true -> well_written t2 = true ->
  run_return (write 3 t1 ++ chr "(" :: write 1 t2 ++ [chr ")"]) = Throw TypeError.
Proof.
  intros H1 H2. destruct (juxtaposed_guards t1 t2 H1 H2) as [Hall Hrun].
  unfold run_return, compile, tokens. rewrite Hall, Hrun. cbn [negb andb].
  rewrite (lex_juxtaposed t1 t2 H1 H2).
  pose proof (parse_juxtaposed (meaning t1) (meaning t2)) as Hparse.
  destruct (print_head (meaning t1) 3) as (t0 & r0 & E).
  rewrite E in Hparse |- *. rewrite on_line_cons in Hparse |- *.
  cbn [app] in Hparse |- *. rewrite Hparse. cbn [List.length parse_statements].
  cbn [eval]. rewrite !eval_arith. reflexivity.
Qed.

End Juxtaposition.

(** X14: a term written directly before a parenthesized term -- as in [2(3+4)] or
    [(1+2)(3+4)] -- passes both guards of the local evaluator, but is a call
    in the language of the function body, not a product: calling a number
    throws, and the evaluator reports an invalid expression. *)
Theorem calculateExpression_juxtaposition :
  forall t1 t2 : Layout.formula,
    Layout.well_written t1 = true ->
    Layout.well_written t2 = true ->
    LocalService.calculateExpression
      (Layout.write 3 t1 ++ chr "(" :: Layout.write 1 t2 ++ [chr ")"])
    = Return INVALID_EXPRESSION.
Proof.
  intros t1 t2 H1 H2. destruct (juxtaposed_guards t1 t2 H1 H2) as [Hall Hrun].
  rewrite (calculateExpression_guarded _ Hall Hrun).
  rewrite (run_return_juxtaposed t1 t2 H1 H2). reflexivity.
Qed.

Lemma calculateExpression_juxtaposition_witness :
  LocalService.calculateExpression (js "2(3+4)") = Return INVALID_EXPRESSION.
Proof.
  apply (calculateExpression_juxtaposition
           (Layout.Numeral (js "2") [])
           (Layout.Operation Script.Add (Layout.Numeral (js "3") [])
              (Layout.Numeral (js "4") [])));
    reflexivity.
Defined.

(** ** Labels in the answer of the model *)

(** [w] is the word [word], in any letter case. *)
Definition spells (word w : jstring) : bool :=
  match match_word word w with
  | Some [] => true
  | _ => false
  end.

Lemma spells_app (word : jstring) :
  forall w rest, spells word w = true ->
    match_word word (w ++ rest) = Some rest /\ List.length w = List.length word.
Proof.
  unfold spells. induction word as [|p word IH]; intros w rest H.
  - destruct w; [auto|discriminate].
  - destruct w as [|c w]; [discriminate|]. cbn [match_word app] in *.
    destruct (N.eqb (canonicalize c) (canonicalize p)); [|discriminate].
    destruct (IH w rest H) as [E L]. cbn [List.length]. auto.
Qed.

Lemma spells_head (p : code_unit) (word w : jstring) :
  spells (p :: word) w = true ->
  exists c w', w = c :: w' /\ canonicalize c = canonicalize p.
Proof.
  unfold spells. destruct w as [|c w]; [discriminate|]. cbn [match_word].
  destruct (N.eqb (canonicalize c) (canonicalize p)) eqn:E; [|discriminate].
  intros _. apply N.eqb_eq in E. eauto.
Qed.

(** A character that folds to a capital letter is a letter. *)
Lemma letter_facts (c : code_unit) :
  (65 <= canonicalize c <= 90)%N -> is_space c = false.
Proof.
  unfold canonicalize, chr. simpl N_of_ascii.
  intros H.
  assert (Hc : (65 <= c <= 90 \/ 97 <= c <= 122)%N).
  { destruct (N.leb 97 c && N.leb c 122) eqn:E.
    - apply andb_true_iff in E as [E1 E2]. apply N.leb_le in E1, E2. lia.
    - lia. }
  unfold is_space, is_white_space, is_line_terminator.
  repeat match goal with
         | |- context [N.eqb c ?v] =>
             replace (N.eqb c v) with false by (symmetry; apply N.eqb_neq; lia)
         end.
  replace (N.leb 8192 c) with false by (symmetry; apply N.leb_gt; lia).
  reflexivity.
Qed.

Lemma label_word_head (word w : jstring) :
  In word label_words -> spells word w = true ->
  exists c w', w = c :: w' /\ is_space c = false.
Proof.
  intros Hin Hs.
  assert (H : exists p word', word = p :: word' /\ (65 <= canonicalize p <= 90)%N).
  { destruct Hin as [<- | [<- | [<- | []]]]; eexists; eexists;
      (split; [reflexivity | vm_compute; split; discriminate]). }
  destruct H as (p & word' & -> & Hp).
  destruct (spells_head p word' w Hs) as (c & w' & -> & Hc).
  exists c, w'. split; [reflexivity|]. apply letter_facts. rewrite Hc. exact Hp.
Qed.

Lemma match_alternatives_label (word w rest : jstring) :
  In word label_words -> spells word w = true ->
  match_alternatives label_words (w ++ rest) = Some (List.length w, rest).
Proof.
  intros Hin Hs. destruct (spells_app word w rest Hs) as [Hm Hlen].
  unfold label_words. destruct Hin as [<- | [<- | [<- | []]]].
  - cbn [match_alternatives]. rewrite Hm, Hlen. reflexivity.
  - destruct (spells_head _ _ w Hs) as (c & w' & E & Hc).
    cbn [match_alternatives]. rewrite Hm, Hlen.
    replace (match_word (js "expression") (w ++ rest)) with (@None jstring);
      [reflexivity|].
    rewrite E. change (js "expression") with (chr "e" :: js "xpression").
    cbn [match_word app]. rewrite Hc. reflexivity.
  - destruct (spells_head _ _ w Hs) as (c & w' & E & Hc).
    cbn [match_alternatives]. rewrite Hm, Hlen.
    replace (match_word (js "expression") (w ++ rest)) with (@None jstring).
    + replace (match_word (js "result") (w ++ rest)) with (@None jstring);
        [reflexivity|].
      rewrite E. change (js "result") with (chr "r" :: js "esult").
      cbn [match_word app]. rewrite Hc. reflexivity.
    + rewrite E. change (js "expression") with (chr "e" :: js "xpression").
      cbn [match_word app]. rewrite Hc. reflexivity.
Qed.

(** The separator after the word: none, a colon or a hyphen. *)
Definition label_separator (sep body : jstring) : bool :=
  match sep with
  | [] => negb (startsWith body [chr "-"])
  | [c] => is_char ":" c || is_char "-" c
  | _ => false
  end.

Lemma match_label_labelled (word w sep body : jstring) :
  In word label_words -> spells word w = true ->
  label_separator sep body = true ->
  forallb is_allowed_char body = true ->
  match_label (w ++ sep ++ body)
  = Some (List.length w + List.length sep
          + List.length (take_while is_space body))%nat.
Proof.
  intros Hin Hs Hsep Hall. unfold match_label.
  rewrite (match_alternatives_label word w (sep ++ body) Hin Hs).
  destruct sep as [|c [|c2 sep]]; [| |discriminate].
  - cbn [app List.length]. destruct body as [|b body]; [reflexivity|].
    cbn [label_separator] in Hsep. apply negb_true_iff in Hsep.
    change (startsWith (b :: body) [chr "-"]) with (N.eqb b (chr "-") && true) in Hsep.
    rewrite andb_true_r in Hsep.
    cbn [forallb] in Hall. apply andb_true_iff in Hall as [Hb _].
    assert (Hcolon : is_char ":" b = false).
    { unfold is_char. apply N.eqb_neq. intros ->. discriminate Hb. }
    unfold is_char at 2. rewrite Hcolon, Hsep. reflexivity.
  - cbn [label_separator] in Hsep. cbn [app List.length]. rewrite Hsep. reflexivity.
Qed.

Lemma delete_matches_skip (m : jstring -> option nat) (a b : jstring) :
  delete_matches m (List.length a) (a ++ b) = delete_matches m 0 b.
Proof.
  induction a as [|c a IH]; [reflexivity|]. cbn [List.length app delete_matches]. exact IH.
Qed.

Lemma take_drop_while (p : code_unit -> bool) (s : jstring) :
  take_while p s ++ drop_while p s = s.
Proof.
  induction s as [|c s IH]; [reflexivity|]. simpl.
  destruct (p c); [simpl; rewrite IH|]; reflexivity.
Qed.

(** A label at the head of a text of the alphabet is deleted together with
    the white space after it, and nothing else is. *)
Lemma strip_labels_labelled (word w sep body : jstring) :
  In word label_words -> spells word w = true ->
  label_separator sep body = true ->
  forallb is_allowed_char body = true ->
  strip_labels (w ++ sep ++ body) = drop_while is_space body.
Proof.
  intros Hin Hs Hsep Hall.
  pose proof (match_label_labelled word w sep body Hin Hs Hsep Hall) as Hm.
  destruct (label_word_head word w Hin Hs) as (c & w' & E & _).
  unfold strip_labels. rewrite E in Hm |- *.
  cbn [app delete_matches]. cbn [app] in Hm. rewrite Hm. cbn [List.length Nat.add].
  rewrite <- (take_drop_while is_space body) at 2.
  rewrite !app_assoc, <- !length_app, delete_matches_skip.
  apply strip_labels_allowed, forallb_drop_while, Hall.
Qed.

Lemma drop_while_app (p : code_unit -> bool) (x y : jstring) :
  existsb (fun c => negb (p c)) x = true ->
  drop_while p (x ++ y) = drop_while p x ++ y.
Proof.
  induction x as [|c x IH]; [discriminate|]. simpl.
  destruct (p c); [exact IH | reflexivity].
Qed.

Lemma drop_while_all (p : code_unit -> bool) (x y : jstring) :
  existsb (fun c => negb (p c)) x = false ->
  drop_while p (x ++ y) = drop_while p y.
Proof.
  induction x as [|c x IH]; [reflexivity|]. simpl.
  destruct (p c); [exact IH | discriminate].
Qed.

Lemma trimEnd_app (a b : jstring) :
  existsb (fun c => negb (is_space c)) b = true -> trimEnd (a ++ b) = a ++ trimEnd b.
Proof.
  intros H. unfold trimEnd.
  rewrite rev_app_distr, drop_while_app by (rewrite existsb_rev; exact H).
  rewrite rev_app_distr, rev_involutive. reflexivity.
Qed.

Lemma trimEnd_head (c : code_unit) (r : jstring) :
  existsb (fun c => negb (is_space c)) (c :: r) = true ->
  exists r', trimEnd (c :: r) = c :: r'.
Proof.
  intros H. destruct (existsb (fun c => negb (is_space c)) r) eqn:Hr.
  - exists (trimEnd r). apply (trimEnd_app [c] r Hr).
  - exists []. cbn [existsb] in H. rewrite Hr, orb_false_r in H.
    unfold trimEnd. cbn [rev].
    rewrite drop_while_all by (rewrite existsb_rev; exact Hr).
    cbn [drop_while]. apply negb_true_iff in H. rewrite H. reflexivity.
Qed.

Lemma remove_spaces_trimEnd (s : jstring) : remove_spaces (trimEnd s) = remove_spaces s.
Proof.
  assert (Hq : forall c, is_space c = true -> negb (is_space c) = false)
    by (intros c ->; reflexivity).
  unfold remove_spaces, trimEnd.
  rewrite filter_rev_comm, (filter_drop_while _ _ _ Hq), filter_rev_comm, rev_involutive.
  reflexivity.
Qed.

Lemma existsb_weaken (p q : code_unit -> bool) (s : jstring) :
  (forall c, p c = true -> q c = true) -> existsb p s = true -> existsb q s = true.
Proof.
  intros Hpq. rewrite !existsb_exists. intros (c & Hin & Hc). eauto.
Qed.

(** The text the extractor of the local service validates, for a labelled
    answer. *)
Lemma cleaned_labelled (word w sep body : jstring) :
  In word label_words -> spells word w = true ->
  label_separator sep body = true ->
  forallb is_allowed_char body = true ->
  test_class is_digit body = true ->
  cleaned (w ++ sep ++ body) = remove_spaces body.
Proof.
  intros Hin Hs Hsep Hall Hd.
  assert (Hns : existsb (fun c => negb (is_space c)) body = true).
  { apply (existsb_weaken is_digit); [|exact Hd].
    intros c Hc. rewrite (digit_not_space c Hc). reflexivity. }
  destruct (label_word_head word w Hin Hs) as (c & w' & E & Hc).
  assert (Htrim : trim (w ++ sep ++ body) = w ++ sep ++ trimEnd body).
  { unfold trim, trimStart. rewrite E. cbn [app drop_while]. rewrite Hc.
    change (c :: w' ++ sep ++ body) with ((c :: w') ++ sep ++ body).
    rewrite app_assoc, trimEnd_app, <- app_assoc by exact Hns. reflexivity. }
  assert (Hsep' : label_separator sep (trimEnd body) = true).
  { destruct sep as [|s1 [|s2 sep]]; [|exact Hsep|discriminate].
    destruct body as [|b body]; [discriminate|].
    destruct (trimEnd_head b body Hns) as (r' & ->).
    cbn [label_separator] in *. exact Hsep. }
  assert (Hall' : forallb is_allowed_char (trimEnd body) = true).
  { unfold trimEnd. rewrite forallb_rev. apply forallb_drop_while.
    rewrite forallb_rev. exact Hall. }
  unfold cleaned. rewrite Htrim, (strip_labels_labelled word w sep _ Hin Hs Hsep' Hall').
  assert (Hq : forall c, is_space c = true -> negb (is_space c) = false)
    by (intros x ->; reflexivity).
  unfold remove_spaces at 1. rewrite (filter_drop_while _ _ _ Hq).
  apply remove_spaces_trimEnd.
Qed.

(** X10: an answer of the model that is an expression behind a label -- one of the
    words expression, result and answer in any letter case, then nothing, a
    colon or a hyphen, then text of the alphabet with a digit and an
    operator -- makes the extractor of the local service return the
    expression alone, without the label and without white space. *)
Theorem local_extract_strips_label :
  forall gc p img mime word w sep body,
    In word label_words ->
    spells word w = true ->
    label_separator sep body = true ->
    forallb is_allowed_char body = true ->
    test_class is_digit body = true ->
    test_class is_operator body = true ->
    gc (LocalService.extraction_request p img mime)
    = Return {| text := Some (w ++ sep ++ body) |} ->
    LocalService.extractExpressionFromImage gc p img mime = Return (remove_spaces body).
Proof.
  intros gc p img mime word w sep body Hin Hs Hsep Hall Hd Ho H.
  rewrite (local_extract_resolved _ _ _ _ _ H).
  rewrite (cleaned_labelled word w sep body Hin Hs Hsep Hall Hd).
  unfold validation_policy, test_class in *.
  rewrite (existsb_remove_spaces _ _ digit_not_space Hd),
    (existsb_remove_spaces _ _ operator_not_space Ho).
  cbn [andb]. f_equal. apply keep_class_fixed, remove_spaces_expression, Hall.
Qed.

Lemma local_extract_strips_label_witness :
  let gc := fun _ : request => Return {| text := Some (js "Result: 12 * (3 + 4)") |} in
  LocalService.extractExpressionFromImage gc [] [] [] = Return (js "12*(3+4)").
Proof.
  apply (local_extract_strips_label
           (fun _ : request => Return {| text := Some (js "Result: 12 * (3 + 4)") |})
           [] [] [] (js "result") (js "Result") (js ":") (js " 12 * (3 + 4)"));
    try reflexivity.
  right. left. reflexivity.
Defined.
